(** * Shade measurement: rounding, formatting, aggregation and the
      additional-pass policy

    A shallow embedding of [utils/format.ts], [utils/aggregate.ts] and of the
    inline helpers of the self-contained page component, together with the
    properties of the written specification that concern them; and of the
    tutorial state machine and the two measurement providers, with further
    properties of the code.

    ECMAScript numbers are IEEE-754 binary64 values.  They are modelled
    bit-exactly by the Standard Library's [spec_float] at precision 53 and
    maximal exponent 1024, with round-to-nearest-even arithmetic
    ([SFadd], [SFsub], [SFmul], [SFdiv]).  The built-ins the sources call
    ([Math.ceil], [Math.floor], [Math.round], [Math.max], [Math.min], [%],
    number-to-string conversion) follow the wording of the ECMAScript
    specification.  Strings are byte strings in UTF-8.  Recursion of the
    source that has no bound takes the depth of stack as fuel.  Limits of
    an engine on the number of arguments of a call are not modelled. *)

From Stdlib Require Import ZArith List Bool Lia String Ascii QArith Qround Qabs.
From Stdlib Require Import SpecFloat DecimalString.
Import ListNotations.

Local Open Scope Z_scope.

(** ** ECMAScript numbers *)

Module JS.

Definition prec : Z := 53.
Definition emax : Z := 1024.

Definition number : Type := spec_float.

Definition NaN : number := S754_nan.
Definition Infinity : number := S754_infinity false.
Definition neg_Infinity : number := S754_infinity true.
Definition pos_zero : number := S754_zero false.
Definition neg_zero : number := S754_zero true.

(** A number is well formed when its mantissa and exponent are the canonical
    binary64 ones; every value a program can hold is. *)
Definition valid (x : number) : Prop := valid_binary prec emax x = true.

Definition is_finite (x : number) : bool :=
  match x with
  | S754_zero _ | S754_finite _ _ _ => true
  | _ => false
  end.

Definition is_nan (x : number) : bool :=
  match x with S754_nan => true | _ => false end.

(** The number with the integer value [n] (exact when [|n| <= 2^53]); this is
    how an integer literal and an array length enter arithmetic. *)
Definition of_int (n : Z) : number := binary_normalize prec emax n 0 false.

Definition add : number -> number -> number := SFadd prec emax.
Definition sub : number -> number -> number := SFsub prec emax.
Definition mul : number -> number -> number := SFmul prec emax.
Definition div : number -> number -> number := SFdiv prec emax.

(** The decimal literal [n / 10^k], e.g. [0.85] is [decimal 85 2]: the
    nearest binary64 value, which correctly rounded division yields. *)
Definition decimal (n : Z) (k : nat) : number :=
  div (of_int n) (of_int (10 ^ Z.of_nat k)).

(** Comparisons; each is false as soon as one side is NaN. *)
Definition lt (x y : number) : bool := SFltb x y.
Definition gt (x y : number) : bool := SFltb y x.
Definition ge (x y : number) : bool := SFleb y x.
Definition strict_eq (x y : number) : bool := SFeqb x y.

(** The signed integer mantissa of a finite number. *)
Definition signed (s : bool) (m : positive) : Z := cond_Zopp s (Zpos m).

(** Floor and ceiling of the real value [sm * 2^e], and the integer nearest
    to it with ties toward positive infinity. *)
Definition floorZ (sm e : Z) : Z :=
  if 0 <=? e then sm * 2 ^ e else sm / 2 ^ (- e).

Definition ceilZ (sm e : Z) : Z := - floorZ (- sm) e.

Definition roundZ (sm e : Z) : Z :=
  if 0 <=? e then sm * 2 ^ e else (2 * sm + 2 ^ (- e)) / 2 ^ (- e + 1).

(** An integral result: a zero keeps the sign of the argument, as
    [Math.ceil(-0.5)] is [-0]. *)
Definition integral (s : bool) (n : Z) : number :=
  if n =? 0 then S754_zero s else of_int n.

(** Rounding to an integer chosen by [pick]; zeros, infinities, NaN and the
    numbers whose exponent is not negative are returned as they are. *)
Definition to_integral (pick : Z -> Z -> Z) (x : number) : number :=
  match x with
  | S754_finite s m e =>
      if 0 <=? e then x else integral s (pick (signed s m) e)
  | _ => x
  end.

Definition Math_ceil : number -> number := to_integral ceilZ.
Definition Math_floor : number -> number := to_integral floorZ.
Definition Math_round : number -> number := to_integral roundZ.

(** [Math.max(...xs)] and [Math.min(...xs)]: NaN if any argument is NaN,
    otherwise a scan from the identity element in which [+0] is above
    [-0]. *)
Definition max_step (highest x : number) : number :=
  match highest, x with
  | S754_zero true, S754_zero false => x
  | _, _ => if gt x highest then x else highest
  end.

Definition min_step (lowest x : number) : number :=
  match lowest, x with
  | S754_zero false, S754_zero true => x
  | _, _ => if lt x lowest then x else lowest
  end.

Definition Math_max (xs : list number) : number :=
  if existsb is_nan xs then NaN else fold_left max_step xs neg_Infinity.

Definition Math_min (xs : list number) : number :=
  if existsb is_nan xs then NaN else fold_left min_step xs Infinity.

(** The remainder operator [n % d]: exact, with the sign of the dividend. *)
Definition rem (n d : number) : number :=
  match n, d with
  | S754_nan, _ | _, S754_nan => NaN
  | S754_infinity _, _ => NaN
  | _, S754_zero _ => NaN
  | _, S754_infinity _ => n
  | S754_zero _, _ => n
  | S754_finite sn mn en, S754_finite _ md ed =>
      let ez := Z.min en ed in
      let r := (Zpos mn * 2 ^ (en - ez)) mod (Zpos md * 2 ^ (ed - ez)) in
      if r =? 0 then S754_zero sn
      else binary_normalize prec emax (cond_Zopp sn r) ez false
  end.

(** *** Number to string

    [Number::toString] of the ECMAScript specification in radix 10: the
    shortest digit string [s] (of [k] digits, scaled by [10^(n-k)]) that
    reads back as the same number, laid out as an integer, a decimal fraction
    or in exponent notation. *)

Definition digits_of (n : Z) : string :=
  NilEmpty.string_of_uint (N.to_uint (Z.to_N n)).

Fixpoint zeros (n : nat) : string :=
  match n with O => EmptyString | S n' => String "0" (zeros n') end.

(** A power of ten as a fraction of two integers. *)
Definition pow10 (j : Z) : Z * Z :=
  if 0 <=? j then (10 ^ j, 1) else (1, 10 ^ (- j)).

Definition pow2 (j : Z) : Z * Z :=
  if 0 <=? j then (2 ^ j, 1) else (1, 2 ^ (- j)).

(** The positive finite number [m * 2^e] and the interval of reals that round
    to it, in units of [2^(e-2)]: [(lo, v, hi, closed)]. *)
Definition rounding_interval (m : positive) (e : Z) : Z * Z * Z * bool :=
  let lo :=
    if (Zpos m =? 2 ^ (prec - 1)) && (3 - emax - prec <? e)
    then 4 * Zpos m - 1 else 4 * Zpos m - 2 in
  (lo, 4 * Zpos m, 4 * Zpos m + 2, Z.even (Zpos m)).

(** The least exponent at or above [n] whose power of ten exceeds
    [m * 2^e]. *)
Fixpoint decimal_scan (fuel : nat) (m : positive) (e n : Z) : Z :=
  match fuel with
  | O => n
  | S fuel' =>
      let '(tn, td) := pow2 e in
      let '(pn, pd) := pow10 n in
      if Zpos m * tn * pd <? pn * td then n
      else decimal_scan fuel' m e (n + 1)
  end.

(** The least [n] with [m * 2^e < 10^n].  With [d] the number of binary
    digits of [m], the value is at least [2^(d - 1 + e)], so that [n] lies
    above [(d - 1 + e) * log10 2], and at most three steps above the
    integer the scan starts from. *)
Definition decimal_exponent (m : positive) (e : Z) : Z :=
  decimal_scan 8 m e ((Zpos (digits2_pos m) - 1 + e) * 30103 / 100000 - 1).

(** The [k]-digit integers [s] with [s * 10^(n-k)] inside the interval, and
    among them the one nearest to the number (the even one on a tie). *)
Definition digits_at (m : positive) (e : Z) (k n : Z) : option Z :=
  let '(lo, v, hi, closed) := rounding_interval m e in
  let '(tn, td) := pow2 (e - 2) in
  let '(pn, pd) := pow10 (n - k) in
  let a := pn * td in
  let b := tn * pd in
  let s_lo := if closed then - ((- (lo * b)) / a) else (lo * b) / a + 1 in
  let s_hi := if closed then (hi * b) / a else - ((- (hi * b)) / a) - 1 in
  let s_lo := Z.max s_lo (10 ^ (k - 1)) in
  let s_hi := Z.min s_hi (10 ^ k - 1) in
  if s_hi <? s_lo then None
  else
    let clamp s := Z.max s_lo (Z.min s_hi s) in
    let c1 := clamp ((v * b) / a) in
    let c2 := clamp ((v * b) / a + 1) in
    let d1 := Z.abs (c1 * a - v * b) in
    let d2 := Z.abs (c2 * a - v * b) in
    Some (if d1 <? d2 then c1
          else if d2 <? d1 then c2
          else if Z.even c1 then c1 else c2).

(** The distance of [s * 10^(n-k)] from the number, as a fraction. *)
Definition digits_error (m : positive) (e : Z) (k n s : Z) : Z * Z :=
  let '(tn, td) := pow2 e in
  let '(pn, pd) := pow10 (n - k) in
  (Z.abs (s * pn * td - Zpos m * tn * pd), pd * td).

(** Of two candidates [(s, n)] of [k] digits the one nearer to the number,
    and on a tie the one with the even [s]. *)
Definition nearer (m : positive) (e : Z) (k : Z) (c1 c2 : Z * Z) : Z * Z :=
  let '(d1, q1) := digits_error m e k (snd c1) (fst c1) in
  let '(d2, q2) := digits_error m e k (snd c2) (fst c2) in
  if d1 * q2 <? d2 * q1 then c1
  else if d2 * q1 <? d1 * q2 then c2
  else if Z.even (fst c1) then c1 else c2.

(** The nearest of the candidates of [k] digits at the exponents [ns]. *)
Fixpoint nearest_digits (m : positive) (e : Z) (k : Z) (ns : list Z)
  : option (Z * Z) :=
  match ns with
  | [] => None
  | n :: ns' =>
      match digits_at m e k n, nearest_digits m e k ns' with
      | Some s, Some c => Some (nearer m e k (s, n) c)
      | Some s, None => Some (s, n)
      | None, c => c
      end
  end.

(** The least number [k] of digits that has a candidate, and the nearest
    candidate of that many digits.  A candidate lies within one power of
    ten of the number. *)
Fixpoint shortest_digits (fuel : nat) (m : positive) (e : Z) (k n0 : Z)
  : Z * Z * Z :=
  match fuel with
  | O => (Zpos m, k, n0)
  | S fuel' =>
      match nearest_digits m e k [n0 - 1; n0; n0 + 1] with
      | Some (s, n) => (s, k, n)
      | None => shortest_digits fuel' m e (k + 1) n0
      end
  end.

Definition first_digits (n : nat) (s : string) : string := substring 0 n s.
Definition last_digits (n : nat) (s : string) : string :=
  substring n (String.length s - n) s.

Definition toString_positive (m : positive) (e : Z) : string :=
  let n0 := decimal_exponent m e in
  let '(s, k, n) := shortest_digits 17 m e 1 n0 in
  let ds := digits_of s in
  if (k <=? n) && (n <=? 21) then
    (ds ++ zeros (Z.to_nat (n - k)))%string
  else if (0 <? n) && (n <=? 21) then
    (first_digits (Z.to_nat n) ds ++ "." ++ last_digits (Z.to_nat n) ds)%string
  else if (-6 <? n) && (n <=? 0) then
    ("0." ++ zeros (Z.to_nat (- n)) ++ ds)%string
  else
    let sign := if 0 <=? n - 1 then "+"%string else "-"%string in
    let ex := (sign ++ digits_of (Z.abs (n - 1)))%string in
    if k =? 1 then (ds ++ "e" ++ ex)%string
    else (first_digits 1 ds ++ "." ++ last_digits 1 ds ++ "e" ++ ex)%string.

Definition Number_toString (x : number) : string :=
  match x with
  | S754_nan => "NaN"%string
  | S754_zero _ => "0"%string
  | S754_infinity false => "Infinity"%string
  | S754_infinity true => "-Infinity"%string
  | S754_finite false m e => toString_positive m e
  | S754_finite true m e => ("-" ++ toString_positive m e)%string
  end.

End JS.

Import JS.

(** ** [utils/format.ts] *)

(** The inch mark, a double quote. *)
Definition inch_mark : string := String (ascii_of_nat 34) EmptyString.

Definition roundUpToSixteenth (inches : number) : number :=
  div (Math_ceil (mul inches (of_int 16))) (of_int 16).

(** [findGCD] recurses without a bound in the source; [fuel] is the depth of
    call stack available, and [None] the stack running out. *)
Fixpoint findGCD (fuel : nat) (a b : number) : option number :=
  match fuel with
  | O => None
  | S fuel' =>
      if strict_eq b (of_int 0) then Some a else findGCD fuel' b (rem a b)
  end.

Record Fraction : Type := { numerator : number; denominator : number }.

Definition simplifyFraction (fuel : nat) (numerator denominator : number)
  : option Fraction :=
  match findGCD fuel numerator denominator with
  | Some gcd =>
      Some {| numerator := div numerator gcd;
              denominator := div denominator gcd |}
  | None => None
  end.

Definition formatInchesFraction (fuel : nat) (inches : number)
  : option string :=
  let rounded := roundUpToSixteenth inches in
  let whole := Math_floor rounded in
  let remainder := sub rounded whole in
  if strict_eq remainder (of_int 0) then
    Some (Number_toString whole ++ inch_mark)%string
  else
    let sixteenths := Math_round (mul remainder (of_int 16)) in
    match simplifyFraction fuel sixteenths (of_int 16) with
    | None => None
    | Some f =>
        if strict_eq whole (of_int 0) then
          Some (Number_toString (numerator f) ++ "/"
                ++ Number_toString (denominator f) ++ inch_mark)%string
        else
          Some (Number_toString whole ++ " "
                ++ Number_toString (numerator f) ++ "/"
                ++ Number_toString (denominator f) ++ inch_mark)%string
    end.

Definition formatDimensions (fuel : nat) (widthInches heightInches : number)
  : option string :=
  match formatInchesFraction fuel widthInches with
  | None => None
  | Some width =>
      match formatInchesFraction fuel heightInches with
      | None => None
      | Some height => Some (width ++ " × " ++ height)%string
      end
  end.

Definition formatConfidence (confidence : number) : string :=
  (Number_toString (Math_round (mul confidence (of_int 100))) ++ "%")%string.

(** ** [providers/types.ts] *)

Inductive ConfidenceCategory : Type := Excellent | OK | Not_Great.

(** The optional, free-form [detectorMetadata] is left out: nothing reads
    it. *)
Record FrameMetadata : Type := {
  pxToInchUsed : option number;
  detectorConfidence : number
}.

(** The field [category] of a pass is [pass_category] here, the name
    [category] being kept for the aggregated result. *)
Record PassResult : Type := {
  widthInInches : number;
  heightInInches : number;
  confidence : number;
  pass_category : ConfidenceCategory;
  timestamp : number;
  frameMetadata : FrameMetadata
}.

(** ** [utils/aggregate.ts] *)

Record AggregatedResult : Type := {
  widthInches : number;
  heightInches : number;
  averageConfidence : number;
  category : ConfidenceCategory;
  passCount : number;
  passes : list PassResult
}.

(** [xs.length] as a number. *)
Definition length_of {A : Type} (xs : list A) : number :=
  of_int (Z.of_nat (List.length xs)).

(** [xs.reduce((sum, p) => sum + f(p), 0)]. *)
Definition reduce_sum {A : Type} (f : A -> number) (xs : list A) : number :=
  fold_left (fun sum p => add sum (f p)) xs (of_int 0).

Definition aggregateResults (passes : list PassResult) : AggregatedResult :=
  if (List.length passes =? 0)%nat then
    {| widthInches := of_int 0;
       heightInches := of_int 0;
       averageConfidence := of_int 0;
       category := Not_Great;
       passCount := of_int 0;
       passes := [] |}
  else
    let maxWidth := Math_max (map widthInInches passes) in
    let maxHeight := Math_max (map heightInInches passes) in
    let finalWidth := roundUpToSixteenth maxWidth in
    let finalHeight := roundUpToSixteenth maxHeight in
    let avgConfidence := div (reduce_sum confidence passes) (length_of passes) in
    let category :=
      if ge avgConfidence (decimal 85 2) then Excellent
      else if ge avgConfidence (decimal 65 2) then OK
      else Not_Great in
    {| widthInches := finalWidth;
       heightInches := finalHeight;
       averageConfidence := avgConfidence;
       category := category;
       passCount := length_of passes;
       passes := passes |}.

Record Recommendation : Type := { recommend : bool; reason : string }.

Definition shouldRecommendAdditionalPass (passes : list PassResult)
  : Recommendation :=
  if (List.length passes =? 0)%nat then
    {| recommend := false; reason := "No passes yet" |}
  else if (3 <=? List.length passes)%nat then
    {| recommend := false; reason := "Maximum passes reached" |}
  else
    let avgConfidence := div (reduce_sum confidence passes) (length_of passes) in
    if lt avgConfidence (decimal 65 2) then
      {| recommend := true;
         reason := "Low confidence - an additional pass may improve accuracy" |}
    else
      let varies :=
        if (2 <=? List.length passes)%nat then
          let widths := map widthInInches passes in
          let heights := map heightInInches passes in
          let widthVariance := sub (Math_max widths) (Math_min widths) in
          let heightVariance := sub (Math_max heights) (Math_min heights) in
          gt widthVariance (of_int 1) || gt heightVariance (of_int 1)
        else false in
      if varies then
        {| recommend := true;
           reason :=
             "Measurements vary between passes - an additional pass may help" |}
      else {| recommend := false; reason := "Measurements look good" |}.

(** ** The self-contained page component *)

Module Page.

Record PassResult : Type := {
  widthInInches : number;
  heightInInches : number;
  confidence : number;
  category : ConfidenceCategory;
  timestamp : number
}.

Definition roundUp (n : number) : number :=
  div (Math_ceil (mul n (of_int 16))) (of_int 16).

(** The object [aggregate] returns; its fields [confidence] and [category]
    are [agg_confidence] and [agg_category] here. *)
Record Aggregate : Type := {
  width : number;
  height : number;
  agg_confidence : number;
  agg_category : ConfidenceCategory;
  passCount : number
}.

(** [None] is the source's [null]. *)
Definition aggregate (passes : list PassResult) : option Aggregate :=
  if (List.length passes =? 0)%nat then None
  else
    let maxW := Math_max (map widthInInches passes) in
    let maxH := Math_max (map heightInInches passes) in
    let avgConf := div (reduce_sum confidence passes) (length_of passes) in
    Some {| width := roundUp maxW;
            height := roundUp maxH;
            agg_confidence := avgConf;
            agg_category :=
              if ge avgConf (decimal 85 2) then Excellent
              else if ge avgConf (decimal 65 2) then OK
              else Not_Great;
            passCount := length_of passes |}.

(** The arrow function [gcd] local to [formatFraction]; as for [findGCD],
    [fuel] is the depth of call stack available. *)
Fixpoint gcd (fuel : nat) (a b : number) : option number :=
  match fuel with
  | O => None
  | S fuel' =>
      if strict_eq b (of_int 0) then Some a else gcd fuel' b (rem a b)
  end.

Definition formatFraction (fuel : nat) (inches : number) : option string :=
  let rounded := roundUp inches in
  let whole := Math_floor rounded in
  let frac := sub rounded whole in
  if strict_eq frac (of_int 0) then
    Some (Number_toString whole ++ inch_mark)%string
  else
    let sixteenths := Math_round (mul frac (of_int 16)) in
    match gcd fuel sixteenths (of_int 16) with
    | None => None
    | Some d =>
        let num := div sixteenths d in
        let den := div (of_int 16) d in
        if strict_eq whole (of_int 0) then
          Some (Number_toString num ++ "/" ++ Number_toString den
                ++ inch_mark)%string
        else
          Some (Number_toString whole ++ " " ++ Number_toString num ++ "/"
                ++ Number_toString den ++ inch_mark)%string
    end.

(** [mockCapture] draws three random numbers, for the confidence, the
    width and the height in this order, and reads the clock; they are the
    arguments here. *)
Definition mockCapture (r1 r2 r3 now : number) : PassResult :=
  let confidence := add (decimal 7 1) (mul r1 (decimal 25 2)) in
  {| widthInInches := add (of_int 35) (mul r2 (of_int 2));
     heightInInches := add (of_int 47) (mul r3 (of_int 2));
     confidence := confidence;
     category :=
       if ge confidence (decimal 85 2) then Excellent
       else if ge confidence (decimal 65 2) then OK
       else Not_Great;
     timestamp := now |}.

End Page.

(** A pass of [providers/types.ts] at the narrower type of the page
    component, which has no [frameMetadata]. *)
Definition page_pass (p : PassResult) : Page.PassResult :=
  {| Page.widthInInches := widthInInches p;
     Page.heightInInches := heightInInches p;
     Page.confidence := confidence p;
     Page.category := pass_category p;
     Page.timestamp := timestamp p |}.

(** ** [state/tutorialMachine.ts] *)

Module Tutorial.

Inductive MountType : Type := inside | outside.

Record TutorialContext : Type := {
  mountType : option MountType;
  passes : list PassResult;
  cameraPermissionDenied : bool;
  finalWidth : option number;
  finalHeight : option number;
  finalConfidence : option number;
  finalCategory : option ConfidenceCategory
}.

Inductive TutorialEvent : Type :=
| START
| PERMISSION_GRANTED
| PERMISSION_DENIED
| RETRY_PERMISSION
| SELECT_MOUNT (mount : MountType)
| CAPTURE_COMPLETE (result : PassResult)
| CONTINUE_TO_PASS2
| CONTINUE_TO_PASS3
| SKIP_PASS3
| VIEW_RESULTS
| VIEW_DETAILS
| VIEW_SETTINGS
| BACK
| RESTART.

Definition initialContext : TutorialContext :=
  {| mountType := None;
     passes := [];
     cameraPermissionDenied := false;
     finalWidth := None;
     finalHeight := None;
     finalConfidence := None;
     finalCategory := None |}.

(** The object [calculateFinalResults] returns; its fields [confidence] and
    [category] are [results_confidence] and [results_category] here. *)
Record Results : Type := {
  width : number;
  height : number;
  results_confidence : number;
  results_category : ConfidenceCategory
}.

Definition calculateFinalResults (passes : list PassResult) : Results :=
  if (List.length passes =? 0)%nat then
    {| width := of_int 0;
       height := of_int 0;
       results_confidence := of_int 0;
       results_category := Not_Great |}
  else
    let width := Math_max (map widthInInches passes) in
    let height := Math_max (map heightInInches passes) in
    let avgConfidence := div (reduce_sum confidence passes) (length_of passes) in
    let category :=
      if ge avgConfidence (decimal 85 2) then Excellent
      else if ge avgConfidence (decimal 65 2) then OK
      else Not_Great in
    {| width := width;
       height := height;
       results_confidence := avgConfidence;
       results_category := category |}.

Definition shouldSuggestPass3 (passes : list PassResult) : bool :=
  if (List.length passes <? 2)%nat then false
  else
    let avgConfidence := div (reduce_sum confidence passes) (length_of passes) in
    lt avgConfidence (decimal 75 2).

(** *** Actions

    Each [assign] replaces the fields it names and keeps the others. *)

Definition setMountType (mount : MountType) (context : TutorialContext)
  : TutorialContext :=
  {| mountType := Some mount;
     passes := passes context;
     cameraPermissionDenied := cameraPermissionDenied context;
     finalWidth := finalWidth context;
     finalHeight := finalHeight context;
     finalConfidence := finalConfidence context;
     finalCategory := finalCategory context |}.

Definition addPassResult (result : PassResult) (context : TutorialContext)
  : TutorialContext :=
  {| mountType := mountType context;
     passes := passes context ++ [result];
     cameraPermissionDenied := cameraPermissionDenied context;
     finalWidth := finalWidth context;
     finalHeight := finalHeight context;
     finalConfidence := finalConfidence context;
     finalCategory := finalCategory context |}.

Definition calculateFinal (context : TutorialContext) : TutorialContext :=
  let results := calculateFinalResults (passes context) in
  {| mountType := mountType context;
     passes := passes context;
     cameraPermissionDenied := cameraPermissionDenied context;
     finalWidth := Some (width results);
     finalHeight := Some (height results);
     finalConfidence := Some (results_confidence results);
     finalCategory := Some (results_category results) |}.

Definition setPermissionDenied (context : TutorialContext) : TutorialContext :=
  {| mountType := mountType context;
     passes := passes context;
     cameraPermissionDenied := true;
     finalWidth := finalWidth context;
     finalHeight := finalHeight context;
     finalConfidence := finalConfidence context;
     finalCategory := finalCategory context |}.

Definition clearPermissionDenied (context : TutorialContext) : TutorialContext :=
  {| mountType := mountType context;
     passes := passes context;
     cameraPermissionDenied := false;
     finalWidth := finalWidth context;
     finalHeight := finalHeight context;
     finalConfidence := finalConfidence context;
     finalCategory := finalCategory context |}.

Definition resetContext (_ : TutorialContext) : TutorialContext :=
  initialContext.

(** *** Guards

    The two named guards are declared in [setup]; no transition refers to
    them. *)

Definition guard_shouldSuggestPass3 (context : TutorialContext) : bool :=
  shouldSuggestPass3 (passes context).

Definition hasLowConfidence (context : TutorialContext) : bool :=
  let results := calculateFinalResults (passes context) in
  lt (results_confidence results) (decimal 75 2).

(** *** States and transitions *)

Inductive StateValue : Type :=
| home
| permission
| mountSelection
| pass1
| pass1Review
| pass2
| pass2Review
| pass3
| completion
| details
| settings.

(** A snapshot of the running machine: the active state and the context. *)
Record Snapshot : Type := {
  value : StateValue;
  context : TutorialContext
}.

Definition initial : Snapshot :=
  {| value := home; context := initialContext |}.

(** One event sent to the machine.  The actions of a transition run in the
    order they are listed, each on the context the previous one left; a
    transition without target keeps the state; an event the active state
    does not handle changes nothing. *)
Definition transition (snapshot : Snapshot) (event : TutorialEvent)
  : Snapshot :=
  let ctx := context snapshot in
  match value snapshot, event with
  | home, START => {| value := permission; context := ctx |}
  | home, VIEW_SETTINGS => {| value := settings; context := ctx |}
  | permission, PERMISSION_GRANTED =>
      {| value := mountSelection; context := clearPermissionDenied ctx |}
  | permission, PERMISSION_DENIED =>
      {| value := permission; context := setPermissionDenied ctx |}
  | permission, RETRY_PERMISSION =>
      {| value := permission; context := clearPermissionDenied ctx |}
  | permission, BACK => {| value := home; context := ctx |}
  | mountSelection, SELECT_MOUNT mount =>
      {| value := pass1; context := setMountType mount ctx |}
  | mountSelection, BACK => {| value := permission; context := ctx |}
  | pass1, CAPTURE_COMPLETE result =>
      {| value := pass1Review; context := addPassResult result ctx |}
  | pass1, BACK => {| value := mountSelection; context := ctx |}
  | pass1Review, CONTINUE_TO_PASS2 => {| value := pass2; context := ctx |}
  | pass1Review, BACK => {| value := pass1; context := ctx |}
  | pass2, CAPTURE_COMPLETE result =>
      {| value := pass2Review; context := addPassResult result ctx |}
  | pass2, BACK => {| value := pass1Review; context := ctx |}
  | pass2Review, CONTINUE_TO_PASS3 => {| value := pass3; context := ctx |}
  | pass2Review, SKIP_PASS3 =>
      {| value := completion; context := calculateFinal ctx |}
  | pass2Review, VIEW_RESULTS =>
      {| value := completion; context := calculateFinal ctx |}
  | pass3, CAPTURE_COMPLETE result =>
      {| value := completion;
         context := calculateFinal (addPassResult result ctx) |}
  | pass3, SKIP_PASS3 =>
      {| value := completion; context := calculateFinal ctx |}
  | pass3, BACK => {| value := pass2Review; context := ctx |}
  | completion, VIEW_DETAILS => {| value := details; context := ctx |}
  | completion, VIEW_SETTINGS => {| value := settings; context := ctx |}
  | completion, RESTART =>
      {| value := home; context := resetContext ctx |}
  | details, BACK => {| value := completion; context := ctx |}
  | settings, BACK =>
      match finalWidth ctx with
      | Some _ => {| value := completion; context := ctx |}
      | None => {| value := home; context := ctx |}
      end
  | _, _ => snapshot
  end.

(** The snapshot after a sequence of events. *)
Definition run (events : list TutorialEvent) (snapshot : Snapshot) : Snapshot :=
  fold_left transition events snapshot.

(** The snapshots the machine can be in: those some sequence of events
    leads to from the initial one. *)
Inductive reachable : Snapshot -> Prop :=
| reachable_initial : reachable initial
| reachable_step (snapshot : Snapshot) (event : TutorialEvent) :
    reachable snapshot -> reachable (transition snapshot event).

End Tutorial.

(** ** The screens of [app/page.tsx]

    What the review, details and completion screens print for a pass and for
    the final result. *)

(** The width and height lines of [PassReviewScreen] and [DetailsScreen],
    and [displayWidth] and [displayHeight] of a debug record. *)
Definition displayWidth (fuel : nat) (result : PassResult) : option string :=
  formatInchesFraction fuel (roundUpToSixteenth (widthInInches result)).

Definition displayHeight (fuel : nat) (result : PassResult) : option string :=
  formatInchesFraction fuel (roundUpToSixteenth (heightInInches result)).

(** ** The measurement providers *)

(** The providers read the random number generator and the clock.  A call
    takes what [Math.random()] returns, in the order of the calls, and the
    reading of [Date.now()] as further arguments. *)

(** [DetectionResult] of [providers/types.ts]. *)
Module Detection.

Record DetectionResult : Type := {
  x : number;
  y : number;
  width : number;
  height : number;
  confidence : number
}.

(** [StabilityState] of [providers/types.ts]. *)
Record StabilityState : Type := {
  isStable : bool;
  jitter : number;
  frameCount : number
}.

End Detection.

(** [Math.abs]. *)
Definition Math_abs (x : number) : number := SFabs x.

(** What a method leaves: a value, or the message of the [Error] thrown. *)
Inductive outcome (A : Type) : Type :=
| returned (value : A)
| thrown (message : string).

Arguments returned {A} value.
Arguments thrown {A} message.

(** *** [providers/WebMeasurementProvider.ts] *)

Module WebMeasurementProvider.

(** The number of frames tracked for the stability, the jitter below which
    a detection is stable, and the confidence above which a capture is
    suggested. *)
Definition STABILITY_WINDOW : number := of_int 10.
Definition JITTER_THRESHOLD : number := decimal 2 2.
Definition CONFIDENCE_THRESHOLD : number := decimal 6 1.

Record CornerSet : Type := {
  corner_x : number;
  corner_y : number;
  corner_width : number;
  corner_height : number;
  corner_timestamp : number
}.

(** The two properties of the video element that the provider reads. *)
Record Video : Type := {
  videoWidth : number;
  videoHeight : number
}.

(** The private fields; the media stream, which only [initialize] and
    [cleanup] touch, is left out. *)
Record State : Type := {
  videoElement : option Video;
  isActive : bool;
  currentDetection : option Detection.DetectionResult;
  cornerHistory : list CornerSet;
  frameCount : number;
  captureCount : number
}.

Definition runDetector (this : State) (r1 r2 r3 r4 r5 : number)
  : option Detection.DetectionResult :=
  match videoElement this with
  | None => None
  | Some video =>
      if strict_eq (videoWidth video) (of_int 0)
         || strict_eq (videoHeight video) (of_int 0)
      then None
      else
        let jitter := decimal 1 2 in
        let baseX := decimal 15 2 in
        let baseY := decimal 1 1 in
        let baseWidth := decimal 7 1 in
        let baseHeight := decimal 8 1 in
        let x := add baseX (mul (sub r1 (decimal 5 1)) jitter) in
        let y := add baseY (mul (sub r2 (decimal 5 1)) jitter) in
        let width := add baseWidth (mul (sub r3 (decimal 5 1)) jitter) in
        let height := add baseHeight (mul (sub r4 (decimal 5 1)) jitter) in
        let confidence := add (decimal 7 1) (mul r5 (decimal 2 1)) in
        let x := Math_max [of_int 0; Math_min [sub (of_int 1) width; x]] in
        let y := Math_max [of_int 0; Math_min [sub (of_int 1) height; y]] in
        Some {| Detection.x := x;
                Detection.y := y;
                Detection.width := width;
                Detection.height := height;
                Detection.confidence := confidence |}
  end.

(** One frame.  The five random numbers are read only when the detector
    runs to its end; [shift] drops the oldest entry of the history. *)
Definition getDetection (this : State) (r1 r2 r3 r4 r5 now : number)
  : option Detection.DetectionResult * State :=
  if negb (isActive this)
     || match videoElement this with None => true | Some _ => false end
  then (None, this)
  else
    let this :=
      {| videoElement := videoElement this;
         isActive := isActive this;
         currentDetection := currentDetection this;
         cornerHistory := cornerHistory this;
         frameCount := add (frameCount this) (of_int 1);
         captureCount := captureCount this |} in
    match runDetector this r1 r2 r3 r4 r5 with
    | Some detection =>
        let pushed :=
          cornerHistory this
          ++ [{| corner_x := Detection.x detection;
                 corner_y := Detection.y detection;
                 corner_width := Detection.width detection;
                 corner_height := Detection.height detection;
                 corner_timestamp := now |}] in
        let history :=
          if gt (length_of pushed) STABILITY_WINDOW then tl pushed else pushed in
        (Some detection,
         {| videoElement := videoElement this;
            isActive := isActive this;
            currentDetection := Some detection;
            cornerHistory := history;
            frameCount := frameCount this;
            captureCount := captureCount this |})
    | None => (currentDetection this, this)
    end.

(** The loop of [getStability] from index [i] on: [prev] is the entry at
    [i - 1] and [rest] the entries from [i]. *)
Fixpoint totalJitter (prev : CornerSet) (rest : list CornerSet) (total : number)
  : number :=
  match rest with
  | [] => total
  | curr :: rest' =>
      let dx := Math_abs (sub (corner_x curr) (corner_x prev)) in
      let dy := Math_abs (sub (corner_y curr) (corner_y prev)) in
      let dw := Math_abs (sub (corner_width curr) (corner_width prev)) in
      let dh := Math_abs (sub (corner_height curr) (corner_height prev)) in
      totalJitter curr rest' (add total (add (add (add dx dy) dw) dh))
  end.

Definition getStability (this : State) : Detection.StabilityState :=
  let history := cornerHistory this in
  match history with
  | first :: (_ :: _) as rest =>
      let avgJitter :=
        div (totalJitter first rest (of_int 0))
            (sub (length_of history) (of_int 1)) in
      let isStable :=
        lt avgJitter JITTER_THRESHOLD
        && ge (length_of history) (div STABILITY_WINDOW (of_int 2)) in
      {| Detection.isStable := isStable;
         Detection.jitter := avgJitter;
         Detection.frameCount := length_of history |}
  | _ =>
      {| Detection.isStable := false;
         Detection.jitter := of_int 1;
         Detection.frameCount := length_of history |}
  end.

Definition suggestCapture (this : State) : bool :=
  let stability := getStability this in
  Detection.isStable stability
  && match currentDetection this with
     | Some detection =>
         gt (Detection.confidence detection) CONFIDENCE_THRESHOLD
     | None => false
     end.

Definition estimatePxToInch (this : State) : option number := None.

Definition capture (this : State) (r1 r2 now : number)
  : outcome PassResult * State :=
  let this :=
    {| videoElement := videoElement this;
       isActive := isActive this;
       currentDetection := currentDetection this;
       cornerHistory := cornerHistory this;
       frameCount := frameCount this;
       captureCount := add (captureCount this) (of_int 1) |} in
  match currentDetection this, videoElement this with
  | Some detection, Some video =>
      let pxToInch := estimatePxToInch this in
      let '(widthInches, heightInches, confidence, category) :=
        match pxToInch with
        | Some scale =>
            let widthInches :=
              mul (mul (Detection.width detection) (videoWidth video)) scale in
            let heightInches :=
              mul (mul (Detection.height detection) (videoHeight video)) scale in
            let confidence :=
              mul (Detection.confidence detection) (decimal 9 1) in
            (widthInches, heightInches, confidence,
             if ge confidence (decimal 85 2) then Excellent else OK)
        | None =>
            let assumedWindowWidth := of_int 36 in
            let assumedWindowHeight := of_int 48 in
            let widthInches :=
              mul assumedWindowWidth
                (div (Detection.width detection) (decimal 7 1)) in
            let heightInches :=
              mul assumedWindowHeight
                (div (Detection.height detection) (decimal 8 1)) in
            let widthInches :=
              add widthInches (mul (sub r1 (decimal 5 1)) (of_int 2)) in
            let heightInches :=
              add heightInches (mul (sub r2 (decimal 5 1)) (of_int 2)) in
            let confidence :=
              mul (Detection.confidence detection) (decimal 7 1) in
            (widthInches, heightInches, confidence,
             if ge confidence (decimal 65 2) then OK else Not_Great)
        end in
      (returned
         {| widthInInches := widthInches;
            heightInInches := heightInches;
            confidence := confidence;
            pass_category := category;
            timestamp := now;
            frameMetadata :=
              {| pxToInchUsed := pxToInch;
                 detectorConfidence := Detection.confidence detection |} |},
       {| videoElement := videoElement this;
          isActive := isActive this;
          currentDetection := currentDetection this;
          cornerHistory := [];
          frameCount := frameCount this;
          captureCount := captureCount this |})
  | _, _ => (thrown "No detection available for capture", this)
  end.

End WebMeasurementProvider.

(** *** [providers/MockProvider.ts] *)

Module MockProvider.

Record State : Type := {
  isActive : bool;
  frameCount : number;
  captureCount : number;
  currentDetection : option Detection.DetectionResult;
  stabilityFrames : number;
  lastJitter : number;
  baseWidth : number;
  baseHeight : number
}.

(** The field initialisers of the class. *)
Definition new : State :=
  {| isActive := false;
     frameCount := of_int 0;
     captureCount := of_int 0;
     currentDetection := None;
     stabilityFrames := of_int 0;
     lastJitter := decimal 5 1;
     baseWidth := of_int 36;
     baseHeight := of_int 48 |}.

Definition capture (this : State) (r1 r2 r3 now : number)
  : PassResult * State :=
  let count := add (captureCount this) (of_int 1) in
  let widthVariation := mul (sub r1 (decimal 5 1)) (of_int 2) in
  let heightVariation := mul (sub r2 (decimal 5 1)) (of_int 2) in
  let width := add (baseWidth this) widthVariation in
  let height := add (baseHeight this) heightVariation in
  let '(confidence, category) :=
    if strict_eq count (of_int 1) then
      (add (decimal 75 2) (mul r3 (decimal 1 1)), OK)
    else if strict_eq count (of_int 2) then
      (add (decimal 85 2) (mul r3 (decimal 1 1)), Excellent)
    else
      let confidence := add (decimal 80 2) (mul r3 (decimal 15 2)) in
      (confidence, if gt confidence (decimal 85 2) then Excellent else OK) in
  ({| widthInInches := width;
      heightInInches := height;
      confidence := confidence;
      pass_category := category;
      timestamp := now;
      frameMetadata :=
        {| pxToInchUsed := None; detectorConfidence := confidence |} |},
   {| isActive := isActive this;
      frameCount := frameCount this;
      captureCount := count;
      currentDetection := currentDetection this;
      stabilityFrames := of_int 0;
      lastJitter := decimal 5 1;
      baseWidth := baseWidth this;
      baseHeight := baseHeight this |}).

End MockProvider.

(** ** The same functions over a store

    In the running program [passes] is a reference to an array of references
    to pass objects.  Here the store is explicit: every read goes through it,
    [map] allocates its result array, and the aggregated result keeps the
    reference it was given. *)

Definition addr : Type := nat.

Inductive object : Type :=
| Pass (p : PassResult)
| PassArray (elems : list addr)
| NumberArray (elems : list number).

Definition heap : Type := list object.

(** A computation reads and extends the store, or gets stuck on a reference
    of the wrong kind. *)
Definition M (A : Type) : Type := heap -> option (A * heap).

Definition ret {A : Type} (a : A) : M A := fun h => Some (a, h).

Definition bind {A B : Type} (c : M A) (k : A -> M B) : M B :=
  fun h => match c h with Some (a, h') => k a h' | None => None end.

Notation "x <- c ;; k" := (bind c (fun x => k))
  (at level 61, c at next level, right associativity).

Definition alloc (o : object) : M addr :=
  fun h => Some (List.length h, h ++ [o]).

Definition read_pass (a : addr) : M PassResult :=
  fun h => match nth_error h a with Some (Pass p) => Some (p, h) | _ => None end.

Definition read_pass_array (a : addr) : M (list addr) :=
  fun h => match nth_error h a with Some (PassArray l) => Some (l, h) | _ => None end.

Definition read_number_array (a : addr) : M (list number) :=
  fun h => match nth_error h a with Some (NumberArray l) => Some (l, h) | _ => None end.

Fixpoint read_passes (elems : list addr) : M (list PassResult) :=
  match elems with
  | [] => ret []
  | a :: rest => p <- read_pass a ;; ps <- read_passes rest ;; ret (p :: ps)
  end.

(** The passes an array reference stands for. *)
Definition deref (a : addr) : M (list PassResult) :=
  elems <- read_pass_array a ;; read_passes elems.

(** [passes.length], [passes.map(p => f(p))], [Math.max(...xs)],
    [Math.min(...xs)] and [passes.reduce((sum, p) => sum + f(p), 0)]. *)
Definition array_length (a : addr) : M nat :=
  elems <- read_pass_array a ;; ret (List.length elems).

Definition array_map (f : PassResult -> number) (a : addr) : M addr :=
  ps <- deref a ;; alloc (NumberArray (map f ps)).

Definition spread_max (a : addr) : M number :=
  xs <- read_number_array a ;; ret (Math_max xs).

Definition spread_min (a : addr) : M number :=
  xs <- read_number_array a ;; ret (Math_min xs).

Definition array_reduce_sum (f : PassResult -> number) (a : addr) : M number :=
  ps <- deref a ;; ret (reduce_sum f ps).

Definition number_of_nat (n : nat) : number := of_int (Z.of_nat n).

(** The aggregated result as an object: its [passes] is a reference. *)
Record AggregatedObject : Type := {
  obj_widthInches : number;
  obj_heightInches : number;
  obj_averageConfidence : number;
  obj_category : ConfidenceCategory;
  obj_passCount : number;
  obj_passes : addr
}.

Definition aggregateResults_st (passes : addr) : M AggregatedObject :=
  len <- array_length passes ;;
  if (len =? 0)%nat then
    empty <- alloc (PassArray []) ;;
    ret {| obj_widthInches := of_int 0;
           obj_heightInches := of_int 0;
           obj_averageConfidence := of_int 0;
           obj_category := Not_Great;
           obj_passCount := of_int 0;
           obj_passes := empty |}
  else
    widths <- array_map widthInInches passes ;;
    maxWidth <- spread_max widths ;;
    heights <- array_map heightInInches passes ;;
    maxHeight <- spread_max heights ;;
    let finalWidth := roundUpToSixteenth maxWidth in
    let finalHeight := roundUpToSixteenth maxHeight in
    sum <- array_reduce_sum confidence passes ;;
    len <- array_length passes ;;
    let avgConfidence := div sum (number_of_nat len) in
    let category :=
      if ge avgConfidence (decimal 85 2) then Excellent
      else if ge avgConfidence (decimal 65 2) then OK
      else Not_Great in
    len <- array_length passes ;;
    ret {| obj_widthInches := finalWidth;
           obj_heightInches := finalHeight;
           obj_averageConfidence := avgConfidence;
           obj_category := category;
           obj_passCount := number_of_nat len;
           obj_passes := passes |}.

Definition shouldRecommendAdditionalPass_st (passes : addr) : M Recommendation :=
  len <- array_length passes ;;
  if (len =? 0)%nat then
    ret {| recommend := false; reason := "No passes yet" |}
  else if (3 <=? len)%nat then
    ret {| recommend := false; reason := "Maximum passes reached" |}
  else
    sum <- array_reduce_sum confidence passes ;;
    len <- array_length passes ;;
    let avgConfidence := div sum (number_of_nat len) in
    if lt avgConfidence (decimal 65 2) then
      ret {| recommend := true;
             reason := "Low confidence - an additional pass may improve accuracy" |}
    else
      len <- array_length passes ;;
      varies <-
        (if (2 <=? len)%nat then
           widths <- array_map widthInInches passes ;;
           heights <- array_map heightInInches passes ;;
           maxW <- spread_max widths ;;
           minW <- spread_min widths ;;
           let widthVariance := sub maxW minW in
           maxH <- spread_max heights ;;
           minH <- spread_min heights ;;
           let heightVariance := sub maxH minH in
           ret (gt widthVariance (of_int 1) || gt heightVariance (of_int 1))
         else ret false) ;;
      if (varies : bool) then
        ret {| recommend := true;
               reason :=
                 "Measurements vary between passes - an additional pass may help" |}
      else ret {| recommend := false; reason := "Measurements look good" |}.

(** The aggregated object read back as a value. *)
Definition view (o : AggregatedObject) : M AggregatedResult :=
  ps <- deref (obj_passes o) ;;
  ret {| widthInches := obj_widthInches o;
         heightInches := obj_heightInches o;
         averageConfidence := obj_averageConfidence o;
         category := obj_category o;
         passCount := obj_passCount o;
         passes := ps |}.

Definition extends (h h' : heap) : Prop := exists new, h' = h ++ new.

(** ** Vocabulary of the specification *)

(** The largest finite number, [Number.MAX_VALUE]. *)
Definition MAX_VALUE : number := S754_finite false (2 ^ 53 - 1) 971.

(** The real value of a finite number (zero for the others). *)
Definition val (x : number) : Q :=
  match x with
  | S754_finite s m e =>
      if 0 <=? e then inject_Z (signed s m * 2 ^ e)
      else signed s m # Z.to_pos (2 ^ (- e))
  | _ => 0%Q
  end.

(** The arithmetic mean as the sources compute it: the running sum from
    zero, divided by the count. *)
Definition mean (xs : list number) : number :=
  div (fold_left add xs (of_int 0)) (of_int (Z.of_nat (List.length xs))).


(** [haystack.includes(needle)]. *)
Fixpoint includes (needle haystack : string) : bool :=
  String.prefix needle haystack
  || match haystack with
     | EmptyString => false
     | String _ rest => includes needle rest
     end.

(** The UTF-8 bytes of a code point below [0x800]. *)
Definition utf8 (cp : nat) : string :=
  if (cp <? 128)%nat then String (ascii_of_nat cp) EmptyString
  else String (ascii_of_nat (192 + cp / 64))
         (String (ascii_of_nat (128 + cp mod 64)) EmptyString).

(** A session only ever appends passes: [later ps qs] when [qs] is [ps]
    followed by further captures. *)
Inductive later (ps : list PassResult) : list PassResult -> Prop :=
| later_now : later ps ps
| later_capture (qs : list PassResult) (p : PassResult) :
    later ps qs -> later ps (qs ++ [p]).

(** The text of [n] sixteenths in lowest terms, with the inch mark. *)
Definition fraction_text (n : Z) : string :=
  (Number_toString (of_int (n / Z.gcd n 16)) ++ "/"
   ++ Number_toString (of_int (16 / Z.gcd n 16)) ++ inch_mark)%string.

(** The helper of the test suite that builds a pass; [now] stands for the
    clock reading. *)
Definition createPassResult (width height confidence now : number) : PassResult :=
  {| widthInInches := width;
     heightInInches := height;
     confidence := confidence;
     pass_category :=
       if ge confidence (decimal 85 2) then Excellent
       else if ge confidence (decimal 65 2) then OK
       else Not_Great;
     timestamp := now;
     frameMetadata :=
       {| pxToInchUsed := None; detectorConfidence := confidence |} |}.

(** Pass sequences of the test suite. *)
Definition sample_passes : list PassResult :=
  [createPassResult (decimal 355 1) (of_int 48) (decimal 7 1) (of_int 0);
   createPassResult (decimal 362 1) (decimal 475 1) (decimal 8 1) (of_int 1);
   createPassResult (decimal 358 1) (decimal 481 1) (decimal 9 1) (of_int 2)].

Definition varying_passes : list PassResult :=
  [createPassResult (of_int 34) (of_int 46) (decimal 8 1) (of_int 0);
   createPassResult (of_int 36) (of_int 48) (decimal 8 1) (of_int 1)].

(** A store holding the three sample passes and, at address 3, the array
    that refers to them. *)
Definition sample_store : heap :=
  map Pass sample_passes ++ [PassArray [0; 1; 2]]%nat.

(** ** Vocabulary of the proofs *)

(** The number of binary digits of a mantissa. *)
Definition digits (m : positive) : Z := Zpos (digits2_pos m).

(** The exponent a binary64 number of a given magnitude must have. *)
Definition fexp64 (e : Z) : Z := fexp prec emax e.

(** The value of a number in units of [2^-1074], the spacing of the
    subnormals: an integer for every well-formed number. *)
Definition sc (x : number) : Z :=
  match x with
  | S754_finite s m e => signed s m * 2 ^ (e + 1074)
  | _ => 0
  end.

(** A bound above every finite magnitude in units of [2^-1074]. *)
Definition huge : Z := 2 ^ 3000.

(** Numbers other than NaN are ordered as these integers are. *)
Definition key (x : number) : Z :=
  match x with
  | S754_infinity false => huge
  | S754_infinity true => - huge
  | _ => sc x
  end.

Definition is_zero (x : number) : bool :=
  match x with S754_zero _ => true | _ => false end.

(** Ceiling of a quotient of integers. *)
Definition ceil_div (a b : Z) : Z := - ((- a) / b).

(** [j] sixteenths. *)
Definition grid (j : Z) : number := binary_normalize prec emax j (-4) false.

(** The denominator of the unit [2^-1074]. *)
Definition P1074 : positive := Z.to_pos (2 ^ 1074).

(** *** Vocabulary of the further properties *)

(** No final result has been computed. *)
Definition finals_unset (c : Tutorial.TutorialContext) : Prop :=
  Tutorial.finalWidth c = None /\ Tutorial.finalHeight c = None /\
  Tutorial.finalConfidence c = None /\ Tutorial.finalCategory c = None.

(** The final result is the one computed from the passes held now. *)
Definition finals_current (c : Tutorial.TutorialContext) : Prop :=
  let r := Tutorial.calculateFinalResults (Tutorial.passes c) in
  Tutorial.finalWidth c = Some (Tutorial.width r) /\
  Tutorial.finalHeight c = Some (Tutorial.height r) /\
  Tutorial.finalConfidence c = Some (Tutorial.results_confidence r) /\
  Tutorial.finalCategory c = Some (Tutorial.results_category r).

(** Past the mount selection: permission was granted and a mount chosen. *)
Definition measuring (n : nat) (c : Tutorial.TutorialContext) : Prop :=
  Tutorial.cameraPermissionDenied c = false /\
  Tutorial.mountType c <> None /\
  (n <= List.length (Tutorial.passes c))%nat.

(** What holds of the context in each state. *)
Definition invariant (s : Tutorial.Snapshot) : Prop :=
  let c := Tutorial.context s in
  match Tutorial.value s with
  | Tutorial.home | Tutorial.permission => finals_unset c
  | Tutorial.mountSelection =>
      finals_unset c /\ Tutorial.cameraPermissionDenied c = false
  | Tutorial.pass1 => finals_unset c /\ measuring 0 c
  | Tutorial.pass1Review | Tutorial.pass2 => finals_unset c /\ measuring 1 c
  | Tutorial.pass2Review | Tutorial.pass3 => finals_unset c /\ measuring 2 c
  | Tutorial.completion | Tutorial.details => finals_current c /\ measuring 2 c
  | Tutorial.settings =>
      finals_unset c \/ (finals_current c /\ measuring 2 c)
  end.

(** The events that capture [n] more passes from the first capture screen,
    going back after each. *)
Fixpoint recapture (p : PassResult) (n : nat) : list Tutorial.TutorialEvent :=
  match n with
  | O => []
  | S n' => Tutorial.CAPTURE_COMPLETE p :: Tutorial.BACK :: recapture p n'
  end.

(** The binary magnitude of a number: [|x| < 2^(magnitude x)]. *)
Definition magnitude (x : number) : Z :=
  match x with
  | S754_finite _ m e => digits m + e
  | _ => -1074
  end.

(** The number of opposite sign. *)
Definition opposite (x : number) : number := SFopp x.

(** What [Math.random()] may return: a number with positive sign, at least
    0 and less than 1. *)
Definition random_value (r : number) : Prop :=
  valid r /\ is_finite r = true /\ r <> neg_zero /\ (0 <= val r < 1)%Q.

(** A finite, well-formed number far below the overflow threshold. *)
Definition small (b : number) : bool :=
  is_finite b && valid_binary prec emax b && (magnitude b <=? 1021).

(** [x] is well formed, finite, and between [lo] and [hi]. *)
Definition within (lo hi x : number) : Prop :=
  valid x /\ is_finite x = true /\ sc lo <= sc x <= sc hi.

(** A positive number with a full mantissa. *)
Definition normal_positive (y : number) : bool :=
  match y with
  | S754_finite false m e => (digits m =? 53) && bounded prec emax m e
  | _ => false
  end.

(** A pass the web provider captured from a detection of its detector. *)
Definition web_pass (p : PassResult) : Prop :=
  exists (this that that' : WebMeasurementProvider.State)
         (r1 r2 r3 r4 r5 q1 q2 now : number)
         (d : Detection.DetectionResult),
    random_value r5 /\
    WebMeasurementProvider.runDetector this r1 r2 r3 r4 r5 = Some d /\
    WebMeasurementProvider.currentDetection that = Some d /\
    WebMeasurementProvider.capture that q1 q2 now = (returned p, that').

(** A pass the mock provider captured with random numbers. *)
Definition mock_pass (p : PassResult) : Prop :=
  exists (this : MockProvider.State) (r1 r2 r3 now : number),
    random_value r1 /\ random_value r2 /\ random_value r3 /\
    p = fst (MockProvider.capture this r1 r2 r3 now).

(** A video element of 1280 by 720 pixels and a provider that holds it. *)
Definition sample_video : WebMeasurementProvider.Video :=
  {| WebMeasurementProvider.videoWidth := of_int 1280;
     WebMeasurementProvider.videoHeight := of_int 720 |}.

Definition sample_provider (detection : option Detection.DetectionResult)
  : WebMeasurementProvider.State :=
  {| WebMeasurementProvider.videoElement := Some sample_video;
     WebMeasurementProvider.isActive := true;
     WebMeasurementProvider.currentDetection := detection;
     WebMeasurementProvider.cornerHistory := [];
     WebMeasurementProvider.frameCount := of_int 0;
     WebMeasurementProvider.captureCount := of_int 0 |}.

(** The detection and the pass the sample provider yields when every random
    number is one half. *)
Definition sample_detection : Detection.DetectionResult :=
  match WebMeasurementProvider.runDetector (sample_provider None)
          (decimal 5 1) (decimal 5 1) (decimal 5 1) (decimal 5 1) (decimal 5 1)
  with
  | Some d => d
  | None =>
      {| Detection.x := NaN; Detection.y := NaN; Detection.width := NaN;
         Detection.height := NaN; Detection.confidence := NaN |}
  end.

Definition sample_web_pass : PassResult :=
  match fst (WebMeasurementProvider.capture (sample_provider (Some sample_detection))
               (decimal 5 1) (decimal 5 1) (of_int 0))
  with
  | returned p => p
  | thrown _ => createPassResult NaN NaN NaN NaN
  end.

(** The first pass of a new mock provider when every random number is one
    half. *)
Definition sample_mock_pass : PassResult :=
  fst (MockProvider.capture MockProvider.new
         (decimal 5 1) (decimal 5 1) (decimal 5 1) (of_int 0)).

(** The current detection of a web provider, if any, came out of its
    detector. *)
Definition detected (this : WebMeasurementProvider.State) : Prop :=
  match WebMeasurementProvider.currentDetection this with
  | Some d =>
      exists (that : WebMeasurementProvider.State) (r1 r2 r3 r4 r5 : number),
        random_value r5 /\
        WebMeasurementProvider.runDetector that r1 r2 r3 r4 r5 = Some d
  | None => True
  end.

(** A dimension that [roundUpToSixteenth] can round: finite and below
    [2^1020] in magnitude. *)
Definition measurable (x : number) : Prop :=
  valid x /\ is_finite x = true /\ (Qabs (val x) < inject_Z (2 ^ 1020))%Q.

(** * Proofs *)

(** ** Binary64 arithmetic *)

(** *** Digits and shifts *)

Lemma digits_log2 (m : positive) : digits m = Z.log2 (Zpos m) + 1.
Proof.
  unfold digits.
  assert (H : forall p, digits2_pos p = Pos.size p) by (induction p; simpl; congruence).
  destruct m as [p|p|]; simpl; rewrite ?H; lia.
Qed.

Lemma digits_bounds (m : positive) :
  2 ^ (digits m - 1) <= Zpos m < 2 ^ digits m.
Proof.
  rewrite digits_log2.
  pose proof (Z.log2_spec (Zpos m) ltac:(lia)) as H.
  replace (Z.log2 (Z.pos m) + 1 - 1) with (Z.log2 (Zpos m)) by lia.
  replace (Z.log2 (Z.pos m) + 1) with (Z.succ (Z.log2 (Zpos m))) by lia.
  exact H.
Qed.

Lemma digits_pos (m : positive) : 0 < digits m.
Proof. unfold digits; lia. Qed.

Lemma digits_unique (m : positive) (d : Z) :
  2 ^ (d - 1) <= Zpos m < 2 ^ d -> digits m = d.
Proof.
  intros H. rewrite digits_log2.
  assert (0 < d).
  { destruct (Z_lt_le_dec 0 d) as [|Hd]; [assumption|].
    assert (2 ^ d <= 1); [|lia].
    destruct (Z.eq_dec d 0) as [->|]; [simpl; lia|].
    rewrite Z.pow_neg_r by lia. lia. }
  assert (Z.log2 (Zpos m) = d - 1); [|lia].
  apply Z.log2_unique; [lia|].
  replace (Z.succ (d - 1)) with d by lia. exact H.
Qed.

Lemma digits_shift (m : positive) (k : Z) :
  0 <= k -> digits (Z.to_pos (Zpos m * 2 ^ k)) = digits m + k.
Proof.
  intros Hk. apply digits_unique.
  pose proof (digits_bounds m) as [Hl Hu].
  pose proof (digits_pos m).
  assert (0 < 2 ^ k) by (apply Z.pow_pos_nonneg; lia).
  rewrite Z2Pos.id by lia.
  replace (digits m + k - 1) with (digits m - 1 + k) by lia.
  rewrite !Z.pow_add_r by lia.
  split; [apply Z.mul_le_mono_nonneg_r; lia | apply Z.mul_lt_mono_pos_r; lia].
Qed.

Lemma shr_1_even (z : Z) :
  shr_1 {| shr_m := 2 * z; shr_r := false; shr_s := false |}
  = {| shr_m := z; shr_r := false; shr_s := false |}.
Proof. destruct z; reflexivity. Qed.

Lemma iter_pos_shr_exact (p : positive) : forall z : Z,
  iter_pos shr_1 p {| shr_m := z * 2 ^ Zpos p; shr_r := false; shr_s := false |}
  = {| shr_m := z; shr_r := false; shr_s := false |}.
Proof.
  induction p as [p IH|p IH|]; intros z; cbn [iter_pos].
  - replace (z * 2 ^ Zpos p~1) with (2 * ((z * 2 ^ Zpos p) * 2 ^ Zpos p)).
    + rewrite shr_1_even, !IH. reflexivity.
    + replace (Zpos p~1) with (Zpos p + Zpos p + 1) by lia.
      rewrite !Z.pow_add_r by lia. ring.
  - replace (z * 2 ^ Zpos p~0) with ((z * 2 ^ Zpos p) * 2 ^ Zpos p).
    + rewrite !IH. reflexivity.
    + replace (Zpos p~0) with (Zpos p + Zpos p) by lia.
      rewrite !Z.pow_add_r by lia. ring.
  - replace (z * 2 ^ 1) with (2 * z) by lia. apply shr_1_even.
Qed.

Lemma shr_exact (z e n : Z) :
  0 <= n ->
  shr {| shr_m := z * 2 ^ n; shr_r := false; shr_s := false |} e n
  = ({| shr_m := z; shr_r := false; shr_s := false |}, e + n).
Proof.
  intros Hn. destruct n as [|p|p]; [| |lia].
  - simpl. rewrite Z.mul_1_r, Z.add_0_r. reflexivity.
  - unfold shr. rewrite iter_pos_shr_exact. reflexivity.
Qed.

Lemma fexp64_eq (e : Z) : fexp64 e = Z.max (e - 53) (-1074).
Proof. reflexivity. Qed.

(** *** Exact rounding *)

(** Rounding a mantissa whose excess low bits are all zero is exact. *)
Lemma binary_round_aux_exact (s : bool) (m : positive) (n e : Z) :
  0 <= n ->
  fexp64 (digits m + n + e) = e + n ->
  binary_round_aux prec emax s (Zpos m * 2 ^ n) e loc_Exact
  = if e + n <=? emax - prec then S754_finite s m (e + n) else S754_infinity s.
Proof.
  intros Hn Hf.
  assert (Hpos : 0 < 2 ^ n) by (apply Z.pow_pos_nonneg; lia).
  unfold binary_round_aux, shr_fexp.
  assert (Hd : Zdigits2 (Zpos m * 2 ^ n) = digits m + n).
  { rewrite <- digits_shift by lia. 
    destruct (Zpos m * 2 ^ n) eqn:E; try lia. reflexivity. }
  rewrite Hd. fold (fexp64 (digits m + n + e)). rewrite Hf.
  replace (e + n - e) with n by lia.
  cbn [shr_record_of_loc]. rewrite shr_exact by lia.
  cbn [loc_of_shr_record round_nearest_even shr_m].
  change (Zdigits2 (Zpos m)) with (digits m).
  replace (digits m + (e + n)) with (digits m + n + e) by lia.
  fold (fexp64 (digits m + n + e)). rewrite Hf.
  replace (e + n - (e + n)) with 0 by lia.
  simpl. reflexivity.
Qed.

Lemma bounded_inv (m : positive) (e : Z) :
  bounded prec emax m e = true ->
  fexp64 (digits m + e) = e /\ e <= 971.
Proof.
  unfold bounded, canonical_mantissa. intros H.
  apply andb_true_iff in H as [H1 H2].
  apply Z.eqb_eq in H1. apply Z.leb_le in H2.
  split; [exact H1 | exact H2].
Qed.

Lemma bounded_intro (m : positive) (e : Z) :
  fexp64 (digits m + e) = e -> e <= 971 -> bounded prec emax m e = true.
Proof.
  intros H1 H2. unfold bounded, canonical_mantissa.
  apply andb_true_iff. split; [apply Z.eqb_eq; exact H1 | apply Z.leb_le; exact H2].
Qed.

Lemma bounded_range (m : positive) (e : Z) :
  bounded prec emax m e = true ->
  -1074 <= e <= 971 /\ digits m <= 53 /\ (-1074 < e -> digits m = 53).
Proof.
  intros H. apply bounded_inv in H as [H1 H2].
  rewrite fexp64_eq in H1. pose proof (digits_pos m). lia.
Qed.

Lemma shl_align_iter (m : positive) (d : positive) :
  Zpos (Pos.iter xO m d) = Zpos m * 2 ^ Zpos d.
Proof.
  change (Pos.iter xO m d) with (shift_pos d m).
  rewrite shift_pos_correct. change (Z.pow_pos 2 d) with (2 ^ Zpos d). ring.
Qed.

(** [binary_round] returns the canonical number of the same value whenever
    there is one. *)
Lemma binary_round_repr (s : bool) (M : positive) (E : Z) (m : positive) (e : Z) :
  bounded prec emax m e = true ->
  (E <= e /\ Zpos M = Zpos m * 2 ^ (e - E)) \/
  (e < E /\ Zpos M * 2 ^ (E - e) = Zpos m) ->
  binary_round prec emax s M E = S754_finite s m e.
Proof.
  intros Hb Hv. apply bounded_inv in Hb as [Hc He].
  unfold binary_round.
  change (Zpos (digits2_pos M)) with (digits M).
  fold (fexp64 (digits M + E)).
  destruct Hv as [[Hle HM] | [Hlt HM]].
  - assert (Hd : digits M = digits m + (e - E)).
    { rewrite <- digits_shift by lia. rewrite <- HM. reflexivity. }
    rewrite Hd. replace (digits m + (e - E) + E) with (digits m + e) by lia.
    rewrite Hc. unfold shl_align.
    destruct (e - E) as [|p|p] eqn:Hp; try lia.
    + rewrite HM. change (2 ^ 0) with 1. 
      rewrite <- (Z.pow_0_r 2) at 1.
      rewrite binary_round_aux_exact; try lia.
      * replace (E + 0) with e by lia.
        replace (e <=? emax - prec) with true; [reflexivity|].
        symmetry. apply Z.leb_le. unfold emax, prec. lia.
      * replace (digits m + 0 + E) with (digits m + e) by lia. lia.
    + rewrite HM.
      rewrite binary_round_aux_exact; try lia.
      * replace (E + Zpos p) with e by lia.
        replace (e <=? emax - prec) with true; [reflexivity|].
        symmetry. apply Z.leb_le. unfold emax, prec. lia.
      * replace (digits m + Zpos p + E) with (digits m + e) by lia. lia.
  - assert (Hd : digits m = digits M + (E - e)).
    { rewrite <- digits_shift by lia. rewrite HM. reflexivity. }
    replace (digits M + E) with (digits m + e) by lia.
    rewrite Hc. unfold shl_align.
    destruct (e - E) as [|p|p] eqn:Hp; try lia.
    assert (Hm : Pos.iter xO M p = m).
    { apply Pos2Z.inj. rewrite shl_align_iter. rewrite <- HM. f_equal. f_equal. lia. }
    rewrite Hm.
    replace (Zpos m) with (Zpos m * 2 ^ 0) by (simpl; lia).
    rewrite binary_round_aux_exact; try lia.
    + replace (e + 0) with e by lia.
      replace (e <=? emax - prec) with true; [reflexivity|].
      symmetry. apply Z.leb_le. unfold emax, prec. lia.
    + replace (digits m + 0 + e) with (digits m + e) by lia. lia.
Qed.

Lemma pow2_pos (k : Z) : 0 <= k -> 0 < 2 ^ k.
Proof. intros. apply Z.pow_pos_nonneg; lia. Qed.

Lemma binary_normalize_sc (z E : Z) (s : bool) (m : positive) (e : Z) (sz : bool) :
  bounded prec emax m e = true ->
  -1074 <= E ->
  z * 2 ^ (E + 1074) = sc (S754_finite s m e) ->
  binary_normalize prec emax z E sz = S754_finite s m e.
Proof.
  intros Hb HE Hz. pose proof (bounded_range _ _ Hb) as (Hr & _ & _).
  unfold sc, signed in Hz.
  pose proof (pow2_pos (E + 1074) ltac:(lia)) as HpE.
  pose proof (pow2_pos (e + 1074) ltac:(lia)) as Hpe.
  assert (Hval : forall M : positive,
             Zpos M * 2 ^ (E + 1074) = Zpos m * 2 ^ (e + 1074) ->
             forall s', binary_round prec emax s' M E = S754_finite s' m e).
  { intros M HM s'. apply binary_round_repr; [exact Hb|].
    destruct (Z_le_gt_dec E e) as [Hle|Hgt]; [left|right]; (split; [lia|]).
    - replace (e + 1074) with ((e - E) + (E + 1074)) in HM by lia.
      rewrite (Z.pow_add_r 2 (e - E) (E + 1074)) in HM by lia.
      rewrite Z.mul_assoc in HM. apply Z.mul_cancel_r in HM; lia.
    - replace (E + 1074) with ((E - e) + (e + 1074)) in HM by lia.
      rewrite (Z.pow_add_r 2 (E - e) (e + 1074)) in HM by lia.
      rewrite Z.mul_assoc in HM. apply Z.mul_cancel_r in HM; lia. }
  destruct z as [|M|M]; destruct s; simpl cond_Zopp in Hz; simpl binary_normalize.
  - lia.
  - lia.
  - nia.
  - apply Hval. exact Hz.
  - apply Hval. lia.
  - nia.
Qed.

Lemma sixteen_eq : of_int 16 = S754_finite false 4503599627370496 (-48).
Proof. reflexivity. Qed.

(** *** Multiplication by sixteen *)

Lemma mul16_finite (s : bool) (m : positive) (e : Z) :
  bounded prec emax m e = true ->
  let e2 := fexp64 (digits m + e + 4) in
  mul (S754_finite s m e) (of_int 16)
  = if e2 <=? 971
    then S754_finite s (Z.to_pos (Zpos m * 2 ^ (e + 4 - e2))) e2
    else S754_infinity s.
Proof.
  intros Hb e2. pose proof (bounded_range _ _ Hb) as (Hr & Hd & Hn).
  pose proof (digits_pos m) as Hdp.
  assert (He2 : e2 = Z.max (digits m + e + 4 - 53) (-1074)) by reflexivity.
  rewrite sixteen_eq. unfold mul, SFmul.
  replace (xorb s false) with s by (destruct s; reflexivity).
  rewrite Pos2Z.inj_mul.
  set (k := e + 4 - e2).
  assert (Hk : 0 <= k <= 52) by lia.
  pose proof (pow2_pos k ltac:(lia)) as Hpk.
  replace (Zpos m * Zpos 4503599627370496)
    with (Zpos (Z.to_pos (Zpos m * 2 ^ k)) * 2 ^ (52 - k)).
  - rewrite binary_round_aux_exact.
    + replace (e + -48 + (52 - k)) with e2 by lia. reflexivity.
    + lia.
    + rewrite digits_shift by lia.
      replace (digits m + k + (52 - k) + (e + -48)) with (digits m + e + 4) by lia.
      fold e2. lia.
  - rewrite Z2Pos.id by lia. rewrite <- Z.mul_assoc, <- Z.pow_add_r by lia.
    replace (k + (52 - k)) with 52 by lia. reflexivity.
Qed.

Lemma mul16_normal (s : bool) (m : positive) (e : Z) :
  digits m = 53 -> -1078 <= e -> e + 4 <= 971 ->
  mul (S754_finite s m e) (of_int 16) = S754_finite s m (e + 4).
Proof.
  intros Hd Hl Hu. rewrite sixteen_eq. unfold mul, SFmul.
  replace (xorb s false) with s by (destruct s; reflexivity).
  rewrite Pos2Z.inj_mul. change (Zpos 4503599627370496) with (2 ^ 52).
  rewrite binary_round_aux_exact.
  - replace (e + -48 + 52) with (e + 4) by lia.
    replace (e + 4 <=? emax - prec) with true; [reflexivity|].
    symmetry. apply Z.leb_le. unfold emax, prec. lia.
  - lia.
  - rewrite fexp64_eq, Hd. lia.
Qed.

(** *** Division by sixteen *)

Lemma div16_normal (s : bool) (m : positive) (e : Z) :
  digits m = 53 -> -1069 <= e -> e <= 975 ->
  div (S754_finite s m e) (of_int 16) = S754_finite s m (e - 4).
Proof.
  intros Hd Hl Hu. rewrite sixteen_eq. unfold div, SFdiv, SFdiv_core_binary.
  replace (xorb s false) with s by (destruct s; reflexivity).
  change (Zdigits2 (Zpos m)) with (digits m). rewrite Hd.
  change (Zdigits2 (Zpos 4503599627370496)) with 53.
  fold (fexp64 (53 + e - (53 + -48))).
  rewrite fexp64_eq.
  replace (Z.min (Z.max (53 + e - (53 + -48) - 53) (-1074)) (e - -48)) with (e - 5) by lia.
  replace (e - -48 - (e - 5)) with 53 by lia.
  rewrite Z.shiftl_mul_pow2 by lia.
  change (Zpos 4503599627370496) with (2 ^ 52).
  assert (Hdiv : Z.div_eucl (Zpos m * 2 ^ 53) (2 ^ 52) = (Zpos m * 2 ^ 1, 0)).
  { pose proof (Z_div_mod (Zpos m * 2 ^ 53) (2 ^ 52) ltac:(reflexivity)) as H.
    destruct (Z.div_eucl (Zpos m * 2 ^ 53) (2 ^ 52)) as [q r].
    destruct H as [H1 H2]. change (2 ^ 53) with (2 ^ 52 * 2) in H1.
    change (2 ^ 1) with 2.
    assert (r = 0) by (change (2 ^ 52) with 4503599627370496 in *; lia).
    subst r. f_equal. change (2 ^ 52) with 4503599627370496 in *. lia. }
  rewrite Hdiv.
  change (new_location (2 ^ 52) 0) with loc_Exact.
  rewrite binary_round_aux_exact.
  - replace (e - 5 + 1) with (e - 4) by lia.
    replace (e - 4 <=? emax - prec) with true; [reflexivity|].
    symmetry. apply Z.leb_le. unfold emax, prec. lia.
  - lia.
  - rewrite fexp64_eq, Hd. lia.
Qed.

(** *** Integers as numbers *)

Lemma of_int_spec (n : Z) :
  n <> 0 -> Z.abs n < 2 ^ 53 ->
  exists (m : positive) (e : Z),
    of_int n = S754_finite (n <? 0) m e /\
    digits m = 53 /\ -52 <= e <= 0 /\ Zpos m = Z.abs n * 2 ^ (- e).
Proof.
  intros Hn Hlt.
  set (P := Z.to_pos (Z.abs n)).
  assert (HP : Zpos P = Z.abs n) by (unfold P; rewrite Z2Pos.id; lia).
  pose proof (digits_bounds P) as [Hl Hu]. pose proof (digits_pos P) as Hdp.
  assert (Hd : digits P <= 53).
  { destruct (Z_le_gt_dec (digits P) 53) as [|Hgt]; [assumption|exfalso].
    assert (2 ^ 53 <= 2 ^ (digits P - 1)) by (apply Z.pow_le_mono_r; lia). lia. }
  set (e := digits P - 53).
  pose proof (pow2_pos (- e) ltac:(lia)) as Hpe.
  set (m := Z.to_pos (Zpos P * 2 ^ (- e))).
  assert (Hm : Zpos m = Zpos P * 2 ^ (- e)) by (unfold m; rewrite Z2Pos.id; lia).
  assert (Hdm : digits m = 53) by (unfold m; rewrite digits_shift; lia).
  assert (Hb : bounded prec emax m e = true).
  { apply bounded_intro; [rewrite fexp64_eq, Hdm|]; lia. }
  exists m, e. repeat split; try lia.
  assert (Hr : forall s, binary_round prec emax s P 0 = S754_finite s m e).
  { intros s. apply binary_round_repr; [exact Hb|].
    destruct (Z.eq_dec e 0) as [E0|E0].
    - left. split; [lia|]. rewrite Hm.
      replace (- e) with 0 by lia. replace (e - 0) with 0 by lia.
      change (2 ^ 0) with 1. lia.
    - right. split; [lia|]. rewrite Hm. reflexivity. }
  unfold of_int, binary_normalize.
  destruct n as [|p|p]; [lia| |].
  - replace p with P by (apply Pos2Z.inj; rewrite HP; reflexivity). apply Hr.
  - replace p with P by (apply Pos2Z.inj; rewrite HP; reflexivity). apply Hr.
Qed.

Lemma integral_spec (s : bool) (n : Z) :
  Z.abs n < 2 ^ 53 ->
  (integral s n = S754_zero s /\ n = 0) \/
  (exists (m : positive) (e : Z),
     integral s n = S754_finite (n <? 0) m e /\ n <> 0 /\
     digits m = 53 /\ -52 <= e <= 0 /\ Zpos m = Z.abs n * 2 ^ (- e)).
Proof.
  intros Hlt. unfold integral. destruct (Z.eqb_spec n 0) as [->|Hn].
  - left. split; reflexivity.
  - right. destruct (of_int_spec n Hn Hlt) as (m & e & H1 & H2 & H3 & H4).
    exists m, e. repeat split; try assumption; lia.
Qed.

Lemma floorZ_bound (sm e : Z) : e < 0 -> Z.abs (floorZ sm e) <= Z.abs sm.
Proof.
  intros He. unfold floorZ. destruct (Z.leb_spec 0 e) as [|_]; [lia|].
  pose proof (pow2_pos (- e) ltac:(lia)) as Hp.
  assert (2 <= 2 ^ (- e)).
  { change 2 with (2 ^ 1) at 1. apply Z.pow_le_mono_r; lia. }
  pose proof (Z.div_mod sm (2 ^ (- e)) ltac:(lia)) as Hdm.
  pose proof (Z.mod_pos_bound sm (2 ^ (- e)) ltac:(lia)) as Hmb.
  nia.
Qed.

Lemma ceilZ_bound (sm e : Z) : e < 0 -> Z.abs (ceilZ sm e) <= Z.abs sm.
Proof.
  intros He. unfold ceilZ. pose proof (floorZ_bound (- sm) e He). lia.
Qed.

Lemma signed_abs (s : bool) (m : positive) : Z.abs (signed s m) = Zpos m.
Proof. destruct s; reflexivity. Qed.

Lemma signed_sign (s : bool) (m : positive) : (signed s m <? 0) = s.
Proof. destruct s; reflexivity. Qed.

Lemma digits_lt (m : positive) : digits m <= 53 -> Zpos m < 2 ^ 53.
Proof.
  intros H. pose proof (digits_bounds m) as [_ Hu]. pose proof (digits_pos m).
  assert (2 ^ digits m <= 2 ^ 53) by (apply Z.pow_le_mono_r; lia). lia.
Qed.

(** An integer-valued number read back as an integer. *)
Lemma floorZ_exact (n k : Z) : 0 <= k -> floorZ (n * 2 ^ k) (- k) = n.
Proof.
  intros Hk. unfold floorZ. pose proof (pow2_pos k Hk).
  destruct (Z.leb_spec 0 (- k)) as [H0|H0].
  - replace k with 0 by lia. simpl. lia.
  - replace (- - k) with k by lia. apply Z.div_mul. lia.
Qed.

Lemma ceilZ_exact (n k : Z) : 0 <= k -> ceilZ (n * 2 ^ k) (- k) = n.
Proof.
  intros Hk. unfold ceilZ.
  replace (- (n * 2 ^ k)) with ((- n) * 2 ^ k) by ring.
  rewrite floorZ_exact by lia. lia.
Qed.

Lemma signed_of_abs (n : Z) (m : positive) (k : Z) :
  n <> 0 -> Zpos m = Z.abs n * 2 ^ k -> signed (n <? 0) m = n * 2 ^ k.
Proof.
  intros Hn Hm. unfold signed. destruct (Z.ltb_spec n 0); simpl; nia.
Qed.

(** *** Rounding to an integer *)

Section ToIntegral.

Variable pick : Z -> Z -> Z.
Hypothesis pick_bound : forall sm e, e < 0 -> Z.abs (pick sm e) <= Z.abs sm.
Hypothesis pick_exact : forall n k, 0 <= k -> pick (n * 2 ^ k) (- k) = n.

(** What [to_integral] returns on a finite number. *)
Lemma to_integral_cases (s : bool) (m : positive) (e : Z) :
  bounded prec emax m e = true ->
  let c := to_integral pick (S754_finite s m e) in
  (0 <= e /\ c = S754_finite s m e /\ digits m = 53) \/
  (e < 0 /\ pick (signed s m) e = 0 /\ c = S754_zero s) \/
  (e < 0 /\ exists (m' : positive) (e' : Z),
     let n := pick (signed s m) e in
     c = S754_finite (n <? 0) m' e' /\ n <> 0 /\
     digits m' = 53 /\ -52 <= e' <= 0 /\ Zpos m' = Z.abs n * 2 ^ (- e')).
Proof.
  intros Hb c. pose proof (bounded_range _ _ Hb) as (Hr & Hd & Hn).
  unfold c, to_integral. destruct (Z.leb_spec 0 e) as [He|He].
  - left. repeat split; [lia | apply Hn; lia].
  - right.
    assert (Hlt : Z.abs (pick (signed s m) e) < 2 ^ 53).
    { pose proof (pick_bound (signed s m) e He) as Hpb.
      rewrite signed_abs in Hpb. pose proof (digits_lt m Hd). lia. }
    destruct (integral_spec s _ Hlt) as [[H1 H2] | (m' & e' & H1 & H2 & H3 & H4 & H5)].
    + left. repeat split; assumption.
    + right. split; [assumption|]. exists m', e'. repeat split; try assumption; lia.
Qed.

Lemma to_integral_fix (y : number) :
  valid y -> to_integral pick (to_integral pick y) = to_integral pick y.
Proof.
  intros Hv. destruct y as [s|s| |s m e]; try reflexivity.
  destruct (to_integral_cases s m e Hv) as
    [(He & Hc & Hd) | [(He & Hn & Hc) | (He & m' & e' & Hc & Hn & Hd & Hr & Hm)]];
    rewrite Hc.
  - unfold to_integral. destruct (Z.leb_spec 0 e); [reflexivity|lia].
  - reflexivity.
  - set (n := pick (signed s m) e) in *.
    unfold to_integral at 1. destruct (Z.leb_spec 0 e') as [|He']; [reflexivity|].
    rewrite (signed_of_abs n m' (- e') Hn Hm).
    replace e' with (- - e') at 2 by lia.
    rewrite pick_exact by lia.
    rewrite <- Hc. unfold to_integral.
    destruct (Z.leb_spec 0 e); [lia|]. fold n.
    unfold integral. destruct (Z.eqb_spec n 0); [contradiction|reflexivity].
Qed.

Lemma to_integral_valid (y : number) : valid y -> valid (to_integral pick y).
Proof.
  intros Hv. destruct y as [s|s| |s m e]; try exact Hv.
  destruct (to_integral_cases s m e Hv) as
    [(He & Hc & Hd) | [(He & Hn & Hc) | (He & m' & e' & Hc & Hn & Hd & Hr & Hm)]];
    rewrite Hc.
  - exact Hv.
  - reflexivity.
  - apply bounded_intro; [rewrite fexp64_eq, Hd|]; lia.
Qed.

Lemma to_integral_sc (s : bool) (m : positive) (e : Z) :
  bounded prec emax m e = true ->
  sc (to_integral pick (S754_finite s m e))
  = (if 0 <=? e then signed s m * 2 ^ e else pick (signed s m) e) * 2 ^ 1074.
Proof.
  intros Hb.
  destruct (to_integral_cases s m e Hb) as
    [(He & Hc & Hd) | [(He & Hn & Hc) | (He & m' & e' & Hc & Hn & Hd & Hr & Hm)]];
    rewrite Hc.
  - destruct (Z.leb_spec 0 e); [|lia]. unfold sc.
    rewrite Z.pow_add_r by lia. ring.
  - destruct (Z.leb_spec 0 e); [lia|]. rewrite Hn. reflexivity.
  - destruct (Z.leb_spec 0 e); [lia|]. cbv zeta in *.
    set (n := pick (signed s m) e) in *. unfold sc.
    rewrite (signed_of_abs n m' (- e') Hn Hm).
    rewrite <- Z.mul_assoc, <- Z.pow_add_r by lia.
    replace (- e' + (e' + 1074)) with 1074 by lia. reflexivity.
Qed.

End ToIntegral.

(** *** The rounding function on the grid of sixteenths *)

Lemma mul16_valid (s : bool) (m : positive) (e : Z) :
  bounded prec emax m e = true ->
  digits m + e <= 1020 ->
  exists (m2 : positive) (e2 : Z),
    mul (S754_finite s m e) (of_int 16) = S754_finite s m2 e2 /\
    bounded prec emax m2 e2 = true /\
    Zpos m2 * 2 ^ (e2 + 1074) = 16 * (Zpos m * 2 ^ (e + 1074)).
Proof.
  intros Hb Hno. pose proof (bounded_range _ _ Hb) as (Hr & Hd & Hn).
  pose proof (digits_pos m) as Hdp.
  rewrite (mul16_finite s m e Hb). cbv zeta.
  set (e2 := fexp64 (digits m + e + 4)).
  assert (He2 : e2 = Z.max (digits m + e + 4 - 53) (-1074)) by reflexivity.
  destruct (Z.leb_spec e2 971) as [_|Hgt]; [|lia].
  pose proof (pow2_pos (e + 4 - e2) ltac:(lia)) as Hpk.
  exists (Z.to_pos (Zpos m * 2 ^ (e + 4 - e2))), e2.
  split; [reflexivity|]. split.
  - apply bounded_intro; [|lia]. rewrite digits_shift by lia.
    replace (digits m + (e + 4 - e2) + e2) with (digits m + e + 4) by lia.
    reflexivity.
  - rewrite Z2Pos.id by lia.
    rewrite <- Z.mul_assoc, <- Z.pow_add_r by lia.
    replace (e + 4 - e2 + (e2 + 1074)) with (4 + (e + 1074)) by lia.
    rewrite Z.pow_add_r by lia. change (2 ^ 4) with 16. ring.
Qed.

Lemma mul16_overflow (s : bool) (m : positive) (e : Z) :
  bounded prec emax m e = true ->
  1020 < digits m + e ->
  mul (S754_finite s m e) (of_int 16) = S754_infinity s.
Proof.
  intros Hb Hov. rewrite (mul16_finite s m e Hb). cbv zeta.
  rewrite fexp64_eq. destruct (Z.leb_spec (Z.max (digits m + e + 4 - 53) (-1074)) 971);
    [lia|reflexivity].
Qed.

Lemma roundUp_zero (s : bool) : roundUpToSixteenth (S754_zero s) = S754_zero s.
Proof. destruct s; reflexivity. Qed.

Lemma roundUp_infinity (s : bool) :
  roundUpToSixteenth (S754_infinity s) = S754_infinity s.
Proof. destruct s; reflexivity. Qed.

Lemma div16_zero (s : bool) : div (S754_zero s) (of_int 16) = S754_zero s.
Proof. destruct s; reflexivity. Qed.

(** The shape of a rounded value: a zero, or a normal number from [1/16]
    upward in magnitude. *)
Lemma roundUp_cases (s : bool) (m : positive) (e : Z) :
  bounded prec emax m e = true ->
  digits m + e <= 1020 ->
  let r := roundUpToSixteenth (S754_finite s m e) in
  let k := ceil_div (signed s m * 2 ^ (e + 1074)) (2 ^ 1070) in
  (r = S754_zero s /\ k = 0) \/
  (exists (sr : bool) (mr : positive) (er : Z),
     r = S754_finite sr mr er /\ digits mr = 53 /\ -56 <= er <= 967 /\
     Math_ceil (S754_finite sr mr (er + 4)) = S754_finite sr mr (er + 4) /\
     signed sr mr * 2 ^ (er + 1074) = k * 2 ^ 1070).
Proof.
  intros Hb Hno r k.
  destruct (mul16_valid s m e Hb Hno) as (m2 & e2 & Hmul & Hb2 & Hsc2).
  pose proof (bounded_range _ _ Hb) as (Hr & Hd & Hn).
  pose proof (bounded_range _ _ Hb2) as (Hr2 & Hd2 & Hn2).
  assert (Hk : k = ceil_div (signed s m2 * 2 ^ (e2 + 1074)) (2 ^ 1074)).
  { unfold k, ceil_div. f_equal.
    replace (- (signed s m2 * 2 ^ (e2 + 1074)))
      with ((- (signed s m * 2 ^ (e + 1074))) * 16)
      by (unfold signed; destruct s; simpl cond_Zopp; lia).
    change (2 ^ 1074) with (2 ^ 1070 * 16).
    rewrite Z.div_mul_cancel_r by (try apply Z.pow_nonzero; lia). reflexivity. }
  assert (Hr' : r = div (Math_ceil (S754_finite s m2 e2)) (of_int 16)).
  { unfold r, roundUpToSixteenth. rewrite Hmul. reflexivity. }
  pose proof (to_integral_sc ceilZ ceilZ_bound s m2 e2 Hb2) as Hsc.
  fold Math_ceil in Hsc.
  assert (Hsck : sc (Math_ceil (S754_finite s m2 e2)) = k * 2 ^ 1074).
  { rewrite Hsc, Hk. f_equal. destruct (Z.leb_spec 0 e2) as [He|He].
    - unfold ceil_div. rewrite Z.pow_add_r by lia.
      replace (- (signed s m2 * (2 ^ e2 * 2 ^ 1074)))
        with ((- (signed s m2 * 2 ^ e2)) * 2 ^ 1074) by ring.
      rewrite Z.div_mul by (apply Z.pow_nonzero; lia). lia.
    - unfold ceil_div, ceilZ, floorZ. destruct (Z.leb_spec 0 e2); [lia|].
      f_equal.
      replace (2 ^ 1074) with (2 ^ (- e2) * 2 ^ (e2 + 1074)).
      + replace (- (signed s m2 * 2 ^ (e2 + 1074)))
          with ((- signed s m2) * 2 ^ (e2 + 1074)) by ring.
        rewrite Z.div_mul_cancel_r; try apply Z.pow_nonzero; try lia.
      + rewrite <- Z.pow_add_r by lia. f_equal. lia. }
  destruct (to_integral_cases ceilZ ceilZ_bound s m2 e2 Hb2) as
    [(He & Hc & Hd53) | [(He & Hz & Hc) | (He & m' & e' & Hc & Hnz & Hd' & Hr'' & Hm')]];
    fold Math_ceil in Hc.
  - right. exists s, m2, (e2 - 4). rewrite Hr', Hc.
    rewrite div16_normal by lia.
    replace (e2 - 4 + 4) with e2 by lia.
    repeat split; try lia.
    + rewrite <- Hc at 1. unfold Math_ceil.
      rewrite (to_integral_fix ceilZ ceilZ_bound ceilZ_exact) by exact Hb2.
      exact Hc.
    + rewrite Hc in Hsck. unfold sc in Hsck.
      change (2 ^ 1074) with (2 ^ 1070 * 16) in Hsck.
      replace (e2 + 1074) with ((e2 - 4 + 1074) + 4) in Hsck by lia.
      rewrite Z.pow_add_r in Hsck by lia. change (2 ^ 4) with 16 in Hsck. lia.
  - left. rewrite Hr', Hc, div16_zero. split; [reflexivity|].
    rewrite Hc in Hsck. simpl sc in Hsck.
    pose proof (pow2_pos 1074 ltac:(lia)). nia.
  - right. cbv zeta in Hc, Hnz, Hm'. set (n := ceilZ (signed s m2) e2) in *.
    exists (n <? 0), m', (e' - 4). rewrite Hr', Hc.
    rewrite div16_normal by lia.
    replace (e' - 4 + 4) with e' by lia.
    repeat split; try lia.
    + rewrite <- Hc at 1. unfold Math_ceil.
      rewrite (to_integral_fix ceilZ ceilZ_bound ceilZ_exact) by exact Hb2.
      exact Hc.
    + rewrite Hc in Hsck. unfold sc in Hsck.
      change (2 ^ 1074) with (2 ^ 1070 * 16) in Hsck.
      replace (e' + 1074) with ((e' - 4 + 1074) + 4) in Hsck by lia.
      rewrite Z.pow_add_r in Hsck by lia. change (2 ^ 4) with 16 in Hsck. lia.
Qed.

Lemma roundUp_idem (x : number) :
  valid x -> roundUpToSixteenth (roundUpToSixteenth x) = roundUpToSixteenth x.
Proof.
  intros Hv. destruct x as [s|s| |s m e].
  - rewrite !roundUp_zero. reflexivity.
  - rewrite !roundUp_infinity. reflexivity.
  - reflexivity.
  - destruct (Z_le_gt_dec (digits m + e) 1020) as [Hno|Hov].
    + destruct (roundUp_cases s m e Hv Hno) as
        [[Hz _] | (sr & mr & er & Hr & Hd & Hrange & Hceil & _)].
      * rewrite Hz. apply roundUp_zero.
      * rewrite Hr. unfold roundUpToSixteenth at 1.
        rewrite mul16_normal by lia. rewrite Hceil.
        rewrite div16_normal by lia. f_equal. lia.
    + assert (Hinf : roundUpToSixteenth (S754_finite s m e) = S754_infinity s).
      { unfold roundUpToSixteenth. rewrite mul16_overflow by (assumption || lia).
        destruct s; reflexivity. }
      rewrite Hinf. apply roundUp_infinity.
Qed.

(** *** The order of numbers *)

Lemma sc_mag (m : positive) (e : Z) :
  bounded prec emax m e = true ->
  0 < Zpos m * 2 ^ (e + 1074) < huge.
Proof.
  intros Hb. pose proof (bounded_range _ _ Hb) as (Hr & Hd & _).
  pose proof (digits_lt m Hd). pose proof (pow2_pos (e + 1074) ltac:(lia)).
  split; [lia|].
  apply Z.lt_le_trans with (2 ^ 53 * 2 ^ (e + 1074)).
  - apply Z.mul_lt_mono_pos_r; lia.
  - rewrite <- Z.pow_add_r by lia. unfold huge. apply Z.pow_le_mono_r; lia.
Qed.

Lemma sc_lt_exp (m1 : positive) (e1 : Z) (m2 : positive) (e2 : Z) :
  bounded prec emax m1 e1 = true -> bounded prec emax m2 e2 = true ->
  e1 < e2 -> Zpos m1 * 2 ^ (e1 + 1074) < Zpos m2 * 2 ^ (e2 + 1074).
Proof.
  intros Hb1 Hb2 Hlt.
  pose proof (bounded_range _ _ Hb1) as (Hr1 & Hd1 & _).
  pose proof (bounded_range _ _ Hb2) as (Hr2 & _ & Hn2).
  pose proof (digits_lt m1 Hd1) as Hm1.
  pose proof (digits_bounds m2) as [Hm2 _]. rewrite Hn2 in Hm2 by lia.
  change (2 ^ (53 - 1)) with (2 ^ 52) in Hm2.
  pose proof (pow2_pos (e1 + 1074) ltac:(lia)).
  pose proof (pow2_pos (e2 + 1074) ltac:(lia)).
  apply Z.lt_le_trans with (2 ^ 53 * 2 ^ (e1 + 1074)).
  - apply Z.mul_lt_mono_pos_r; lia.
  - apply Z.le_trans with (2 ^ 52 * 2 ^ (e2 + 1074)).
    + rewrite <- !Z.pow_add_r by lia. apply Z.pow_le_mono_r; lia.
    + apply Z.mul_le_mono_nonneg_r; lia.
Qed.

Lemma sc_cmp_pos (m1 : positive) (e1 : Z) (m2 : positive) (e2 : Z) :
  bounded prec emax m1 e1 = true -> bounded prec emax m2 e2 = true ->
  match e1 ?= e2 with
  | Lt => Lt
  | Gt => Gt
  | Eq => Pos.compare_cont Eq m1 m2
  end = (Zpos m1 * 2 ^ (e1 + 1074) ?= Zpos m2 * 2 ^ (e2 + 1074)).
Proof.
  intros Hb1 Hb2. destruct (Z.compare_spec e1 e2) as [->|Hlt|Hgt].
  - pose proof (bounded_range _ _ Hb2) as (Hr2 & _).
    pose proof (pow2_pos (e2 + 1074) ltac:(lia)).
    change (Pos.compare_cont Eq m1 m2) with (Zpos m1 ?= Zpos m2).
    symmetry. destruct (Z.compare_spec (Zpos m1) (Zpos m2)) as [Heq|Hl|Hg].
    + rewrite Heq. apply Z.compare_refl.
    + apply Z.compare_lt_iff. apply Z.mul_lt_mono_pos_r; lia.
    + apply Z.compare_gt_iff. apply Z.mul_lt_mono_pos_r; lia.
  - symmetry. apply Z.compare_lt_iff. apply sc_lt_exp; assumption.
  - symmetry. apply Z.compare_gt_iff. apply sc_lt_exp; assumption.
Qed.

Lemma SFcompare_key (x y : number) :
  valid x -> valid y -> is_nan x = false -> is_nan y = false ->
  SFcompare x y = Some (key x ?= key y).
Proof.
  intros Hx Hy Nx Ny.
  assert (H3000 : 0 < huge) by (apply pow2_pos; lia).
  destruct x as [sx|sx| |sx mx ex]; try discriminate;
  destruct y as [sy|sy| |sy my ey]; try discriminate;
  try (destruct sx; destruct sy; reflexivity);
  try pose proof (sc_mag mx ex Hx); try pose proof (sc_mag my ey Hy).
  1-4: destruct sx, sy; cbn [SFcompare key sc signed cond_Zopp Z.opp];
       f_equal; symmetry;
       (apply Z.compare_lt_iff || apply Z.compare_gt_iff); lia.
  pose proof (sc_cmp_pos mx ex my ey Hx Hy) as Hc.
  pose proof (sc_cmp_pos my ey mx ex Hy Hx) as Hc'.
  destruct sx, sy; cbn [SFcompare key sc signed cond_Zopp Z.opp]; f_equal.
  - replace (Z.neg mx * 2 ^ (ex + 1074) ?= Z.neg my * 2 ^ (ey + 1074))
      with (Zpos my * 2 ^ (ey + 1074) ?= Zpos mx * 2 ^ (ex + 1074)).
    + rewrite <- Hc'. rewrite (Z.compare_antisym ey ex), (Pos.compare_cont_antisym).
      destruct (ey ?= ex); reflexivity.
    + rewrite <- !Pos2Z.opp_pos, !Z.mul_opp_l. rewrite Z.compare_opp. reflexivity.
  - symmetry. apply Z.compare_lt_iff. lia.
  - symmetry. apply Z.compare_gt_iff. lia.
  - exact Hc.
Qed.

(** *** Exact subtraction *)

Lemma shl_align_sc (m : positive) (e ez : Z) :
  -1074 <= ez <= e ->
  Zpos (fst (shl_align m e ez)) * 2 ^ (ez + 1074) = Zpos m * 2 ^ (e + 1074).
Proof.
  intros H. unfold shl_align. destruct (ez - e) as [|p|p] eqn:Hp.
  - simpl fst. f_equal. f_equal. lia.
  - lia.
  - simpl fst. rewrite shl_align_iter.
    rewrite <- Z.mul_assoc, <- Z.pow_add_r by lia. f_equal. f_equal. lia.
Qed.

Lemma sub_finite_sc (sx : bool) (mx : positive) (ex : Z)
      (sy : bool) (my : positive) (ey : Z) :
  bounded prec emax mx ex = true -> bounded prec emax my ey = true ->
  exists z : Z,
    sub (S754_finite sx mx ex) (S754_finite sy my ey)
    = binary_normalize prec emax z (Z.min ex ey) false /\
    z * 2 ^ (Z.min ex ey + 1074)
    = sc (S754_finite sx mx ex) - sc (S754_finite sy my ey).
Proof.
  intros Hx Hy.
  pose proof (bounded_range _ _ Hx) as (Hrx & _).
  pose proof (bounded_range _ _ Hy) as (Hry & _).
  eexists. split; [reflexivity|].
  pose proof (shl_align_sc mx ex (Z.min ex ey) ltac:(lia)) as H1.
  pose proof (shl_align_sc my ey (Z.min ex ey) ltac:(lia)) as H2.
  unfold sc, signed. rewrite Z.mul_sub_distr_r.
  destruct sx, sy; cbn [cond_Zopp]; rewrite ?Z.mul_opp_l, H1, H2; reflexivity.
Qed.

Lemma sub_exact (x y : number) (s : bool) (m : positive) (e : Z) :
  valid x -> valid y ->
  is_finite x = true -> is_zero x = false ->
  is_finite y = true -> is_zero y = false ->
  bounded prec emax m e = true ->
  sc (S754_finite s m e) = sc x - sc y ->
  sub x y = S754_finite s m e.
Proof.
  intros Hx Hy Fx Zx Fy Zy Hb Hsc.
  destruct x as [| | |sx mx ex]; try discriminate.
  destruct y as [| | |sy my ey]; try discriminate.
  destruct (sub_finite_sc sx mx ex sy my ey Hx Hy) as (z & Hsub & Hz).
  rewrite Hsub. apply binary_normalize_sc; [exact Hb| |].
  - pose proof (bounded_range _ _ Hx). pose proof (bounded_range _ _ Hy). lia.
  - rewrite Hz. symmetry. exact Hsc.
Qed.

Lemma sub_cancel (x y : number) :
  valid x -> valid y ->
  is_finite x = true -> is_zero x = false ->
  is_finite y = true -> is_zero y = false ->
  sc x = sc y ->
  sub x y = S754_zero false.
Proof.
  intros Hx Hy Fx Zx Fy Zy Hsc.
  destruct x as [| | |sx mx ex]; try discriminate.
  destruct y as [| | |sy my ey]; try discriminate.
  destruct (sub_finite_sc sx mx ex sy my ey Hx Hy) as (z & Hsub & Hz).
  rewrite Hsub.
  pose proof (bounded_range _ _ Hx). pose proof (bounded_range _ _ Hy).
  pose proof (pow2_pos (Z.min ex ey + 1074) ltac:(lia)).
  assert (z = 0) by nia. subst z. reflexivity.
Qed.

(** Well-formed finite numbers of equal value and sign are equal. *)
Lemma sc_inj (s1 : bool) (m1 : positive) (e1 : Z) (s2 : bool) (m2 : positive) (e2 : Z) :
  bounded prec emax m1 e1 = true -> bounded prec emax m2 e2 = true ->
  sc (S754_finite s1 m1 e1) = sc (S754_finite s2 m2 e2) ->
  S754_finite s1 m1 e1 = S754_finite s2 m2 e2.
Proof.
  intros H1 H2 Hsc.
  rewrite <- (binary_normalize_sc (sc (S754_finite s1 m1 e1)) (-1074) s1 m1 e1 false H1);
    [|lia|change (2 ^ (-1074 + 1074)) with 1; lia].
  apply binary_normalize_sc; [exact H2|lia|].
  change (2 ^ (-1074 + 1074)) with 1. lia.
Qed.

Lemma grid_spec (j : Z) :
  1 <= j <= 15 ->
  exists (m : positive) (e : Z),
    grid j = S754_finite false m e /\ bounded prec emax m e = true /\
    sc (grid j) = j * 2 ^ 1070.
Proof.
  intros H.
  assert (Hj : j = 1 \/ j = 2 \/ j = 3 \/ j = 4 \/ j = 5 \/ j = 6 \/ j = 7 \/ j = 8
               \/ j = 9 \/ j = 10 \/ j = 11 \/ j = 12 \/ j = 13 \/ j = 14 \/ j = 15)
    by lia.
  repeat (destruct Hj as [-> | Hj]); try subst j;
    (eexists; eexists; split; [reflexivity | split; vm_compute; reflexivity]).
Qed.

(** *** Whole part and remainder of a rounded value *)

Lemma floor_sc_grid (s : bool) (m : positive) (e : Z) (k : Z) :
  bounded prec emax m e = true ->
  signed s m * 2 ^ (e + 1074) = k * 2 ^ 1070 ->
  sc (Math_floor (S754_finite s m e)) = (k / 16) * 2 ^ 1074 /\
  (0 <= e -> k mod 16 = 0).
Proof.
  intros Hb Hk. pose proof (bounded_range _ _ Hb) as (Hr & _).
  unfold Math_floor. rewrite (to_integral_sc floorZ floorZ_bound s m e Hb).
  pose proof (pow2_pos 1070 ltac:(lia)) as HU.
  destruct (Z.leb_spec 0 e) as [He|He].
  - assert (Hk16 : k = signed s m * 2 ^ e * 16).
    { rewrite Z.pow_add_r in Hk by lia.
      change (2 ^ 1074) with (16 * 2 ^ 1070) in Hk.
      apply (Z.mul_cancel_r _ _ (2 ^ 1070)); [lia|]. rewrite <- Hk. ring. }
    split.
    + f_equal. rewrite Hk16. rewrite Z.div_mul by lia. reflexivity.
    + intros _. rewrite Hk16. apply Z.mod_mul. lia.
  - split; [|lia]. f_equal. unfold floorZ.
    destruct (Z.leb_spec 0 e); [lia|].
    pose proof (pow2_pos (e + 1074) ltac:(lia)).
    pose proof (pow2_pos (- e) ltac:(lia)).
    rewrite <- (Z.div_mul_cancel_r (signed s m) (2 ^ (- e)) (2 ^ (e + 1074))) by lia.
    rewrite <- (Z.div_mul_cancel_r k 16 (2 ^ 1070)) by lia.
    rewrite Hk. f_equal.
    rewrite <- Z.pow_add_r by lia. replace (- e + (e + 1074)) with 1074 by lia.
    reflexivity.
Qed.

Lemma sub_self_zero (s : bool) : sub (S754_zero s) (S754_zero s) = S754_zero false.
Proof. destruct s; reflexivity. Qed.

Lemma fraction_parts (s : bool) (m : positive) (e : Z) :
  bounded prec emax m e = true ->
  digits m + e <= 1020 ->
  let rounded := roundUpToSixteenth (S754_finite s m e) in
  let whole := Math_floor rounded in
  let remainder := sub rounded whole in
  let k := ceil_div (signed s m * 2 ^ (e + 1074)) (2 ^ 1070) in
  valid rounded /\ is_finite rounded = true /\ sc rounded = k * 2 ^ 1070 /\
  valid whole /\ is_finite whole = true /\ sc whole = (k / 16) * 2 ^ 1074 /\
  ((k mod 16 = 0 /\ remainder = S754_zero false) \/
   (k mod 16 <> 0 /\ remainder = grid (k mod 16))).
Proof.
  intros Hb Hno rounded whole remainder k.
  pose proof (pow2_pos 1070 ltac:(lia)) as HU.
  destruct (roundUp_cases s m e Hb Hno) as
    [[Hz Hk0] | (sr & mr & er & Hr & Hd & Hrange & _ & Hsc)];
    fold rounded in Hz || fold rounded in Hr; fold k in Hk0 || fold k in Hsc.
  - unfold remainder, whole. rewrite Hz, Hk0.
    repeat split; try reflexivity.
    left. split; [reflexivity|]. apply sub_self_zero.
  - assert (Hbr : bounded prec emax mr er = true).
    { apply bounded_intro; [rewrite fexp64_eq, Hd|]; lia. }
    destruct (floor_sc_grid sr mr er k Hbr Hsc) as [Hfl Hint].
    assert (Hvw : valid whole).
    { unfold whole. rewrite Hr. apply (to_integral_valid floorZ floorZ_bound). exact Hbr. }
    assert (Hfw : is_finite whole = true).
    { unfold whole. rewrite Hr.
      destruct (to_integral_cases floorZ floorZ_bound sr mr er Hbr) as
        [(_ & Hc & _) | [(_ & _ & Hc) | (_ & m' & e' & Hc & _)]];
        fold Math_floor in Hc; rewrite Hc; reflexivity. }
    rewrite Hr. split; [exact Hbr|]. split; [reflexivity|].
    split; [exact Hsc|]. split; [exact Hvw|]. split; [exact Hfw|].
    unfold whole at 1. rewrite Hr. split; [exact Hfl|].
    pose proof (Z.div_mod k 16 ltac:(lia)) as Hdm.
    pose proof (Z.mod_pos_bound k 16 ltac:(lia)) as Hmb.
    assert (Hscw : sc whole = (k / 16) * 2 ^ 1074) by (unfold whole; rewrite Hr; exact Hfl).
    assert (Hdiff : sc (S754_finite sr mr er) - sc whole = (k mod 16) * 2 ^ 1070).
    { rewrite Hscw. cbn [sc]. rewrite Hsc.
      change (2 ^ 1074) with (16 * 2 ^ 1070). nia. }
    unfold remainder. rewrite Hr.
    destruct (Z.eq_dec (k mod 16) 0) as [H0|H0].
    + left. split; [exact H0|].
      destruct whole as [sw|sw| |sw mw ew] eqn:Hw; try discriminate.
      * exfalso. cbn [sc] in Hdiff. rewrite H0 in Hdiff.
        pose proof (sc_mag mr er Hbr). unfold signed in Hdiff.
        destruct sr; cbn [cond_Zopp] in Hdiff; lia.
      * apply sub_cancel; try reflexivity; try assumption. lia.
    + right. split; [exact H0|].
      destruct (grid_spec (k mod 16) ltac:(lia)) as (mg & eg & Hg & Hbg & Hscg).
      destruct whole as [sw|sw| |sw mw ew] eqn:Hw; try discriminate.
      * cbn [sub SFsub]. unfold sub, SFsub. rewrite Hg.
        apply sc_inj; try assumption.
        rewrite <- Hg, Hscg, <- Hdiff. cbn [sc]. lia.
      * rewrite Hg. apply sub_exact; try reflexivity; try assumption.
        rewrite <- Hg, Hscg. symmetry. exact Hdiff.
Qed.

(** ** Real values *)

Lemma val_sc (x : number) : valid x -> (val x == sc x # P1074)%Q.
Proof.
  intros Hv. destruct x as [s|s| |s m e]; try reflexivity.
  pose proof (bounded_range _ _ Hv) as (Hr & _).
  unfold val, sc, Qeq. destruct (Z.leb_spec 0 e) as [He|He]; cbn [Qnum Qden inject_Z].
  - unfold P1074. rewrite Z2Pos.id by (apply pow2_pos; lia).
    rewrite Z.pow_add_r by lia. ring.
  - pose proof (pow2_pos (- e) ltac:(lia)). pose proof (pow2_pos 1074 ltac:(lia)).
    unfold P1074. rewrite !Z2Pos.id by lia.
    rewrite <- Z.mul_assoc, <- Z.pow_add_r by lia.
    replace (e + 1074 + - e) with 1074 by lia. reflexivity.
Qed.

Lemma Qceiling_frac (a : Z) (p : positive) : Qceiling (a # p) = ceil_div a (Zpos p).
Proof. reflexivity. Qed.

Lemma val16_ceiling (x : number) :
  valid x -> Qceiling (val x * 16) = ceil_div (sc x) (2 ^ 1070).
Proof.
  intros Hv. rewrite (Qceiling_comp _ _ (Qmult_comp _ _ (val_sc x Hv) _ _ (Qeq_refl 16))).
  unfold Qmult. cbn [Qnum Qden]. rewrite Qceiling_frac.
  unfold ceil_div. f_equal.
  replace (Zpos (P1074 * 1)) with (2 ^ 1070 * 16).
  - replace (- (sc x * 16)) with ((- sc x) * 16) by ring.
    apply Z.div_mul_cancel_r; [apply Z.pow_nonzero|]; lia.
  - rewrite Pos.mul_1_r. unfold P1074. rewrite Z2Pos.id by (apply pow2_pos; lia).
    reflexivity.
Qed.

Lemma val_grid (x : number) (k : Z) :
  valid x -> sc x = k * 2 ^ 1070 -> (val x == inject_Z k / 16)%Q.
Proof.
  intros Hv Hk. rewrite (val_sc x Hv), Hk.
  unfold Qeq, Qdiv, Qmult, Qinv. cbn [Qnum Qden inject_Z].
  unfold P1074. rewrite Z2Pos.id by (apply pow2_pos; lia).
  change (2 ^ 1074) with (2 ^ 1070 * 16). rewrite Pos.mul_1_l. 
  change (Zpos 16) with 16. ring.
Qed.

Lemma val_le (x y : number) : valid x -> valid y -> sc x <= sc y -> (val x <= val y)%Q.
Proof.
  intros Hx Hy H. rewrite (val_sc x Hx), (val_sc y Hy).
  unfold Qle. cbn [Qnum Qden]. apply Z.mul_le_mono_nonneg_r; lia.
Qed.

Lemma val_sub_lt (x y : number) :
  valid x -> valid y -> sc y - sc x < 2 ^ 1070 -> (val y - val x < 1 # 16)%Q.
Proof.
  intros Hx Hy H. rewrite (val_sc x Hx), (val_sc y Hy).
  unfold Qlt, Qminus, Qplus, Qopp. cbn [Qnum Qden].
  rewrite Pos2Z.inj_mul.
  assert (HP : Zpos P1074 = 2 ^ 1070 * 16).
  { unfold P1074. rewrite Z2Pos.id by (apply pow2_pos; lia). reflexivity. }
  pose proof (pow2_pos 1070 ltac:(lia)).
  rewrite HP. nia.
Qed.

Lemma val_mag (s : bool) (m : positive) (e : Z) :
  bounded prec emax m e = true ->
  (Qabs (val (S754_finite s m e)) < inject_Z (2 ^ 1020))%Q ->
  digits m + e <= 1020.
Proof.
  intros Hb Hlt. pose proof (bounded_range _ _ Hb) as (Hr & Hd & _).
  rewrite (Qabs_wd _ _ (val_sc (S754_finite s m e) Hb)) in Hlt.
  unfold Qabs, Qlt in Hlt. cbn [Qnum Qden inject_Z sc] in Hlt.
  rewrite Z.abs_mul, signed_abs in Hlt.
  assert (HP : Zpos P1074 = 2 ^ 1074).
  { unfold P1074. rewrite Z2Pos.id by (apply pow2_pos; lia). reflexivity. }
  rewrite HP, Z.mul_1_r in Hlt.
  pose proof (pow2_pos (e + 1074) ltac:(lia)) as Hp.
  rewrite (Z.abs_eq (2 ^ (e + 1074))) in Hlt by lia.
  destruct (Z_le_gt_dec (digits m + e) 1020) as [|Hgt]; [assumption|exfalso].
  pose proof (digits_bounds m) as [Hl _]. pose proof (digits_pos m).
  assert (2 ^ 1020 * 2 ^ 1074 <= Zpos m * 2 ^ (e + 1074)); [|lia].
  apply Z.le_trans with (2 ^ (digits m - 1) * 2 ^ (e + 1074)).
  - rewrite <- !Z.pow_add_r by lia. apply Z.pow_le_mono_r; lia.
  - apply Z.mul_le_mono_nonneg_r; lia.
Qed.

Lemma ceil_div_spec (a u : Z) :
  0 < u ->
  a <= ceil_div a u * u < a + u /\ (forall j, a <= j * u -> ceil_div a u <= j).
Proof.
  intros Hu. unfold ceil_div.
  pose proof (Z.div_mod (- a) u ltac:(lia)) as Hdm.
  pose proof (Z.mod_pos_bound (- a) u Hu) as Hmb.
  split; [nia|]. intros j Hj. nia.
Qed.

Lemma ceil_div_mul (j u : Z) : 0 < u -> ceil_div (j * u) u = j.
Proof.
  intros Hu. unfold ceil_div. replace (- (j * u)) with ((- j) * u) by ring.
  rewrite Z.div_mul by lia. lia.
Qed.

Lemma ge_of_key (x y : number) :
  valid x -> valid y -> is_nan x = false -> is_nan y = false ->
  key y <= key x -> ge x y = true.
Proof.
  intros Hx Hy Nx Ny H. unfold ge, SFleb.
  rewrite (SFcompare_key y x Hy Hx Ny Nx).
  destruct (Z.compare_spec (key y) (key x)); try reflexivity. lia.
Qed.

Lemma finite_not_nan (x : number) : is_finite x = true -> is_nan x = false.
Proof. destruct x; simpl; congruence. Qed.

Lemma key_finite (x : number) : is_finite x = true -> key x = sc x.
Proof. destruct x; simpl; try congruence; reflexivity. Qed.

(** The rounded value in units of [2^-1074]. *)
Lemma roundUp_sc (x : number) :
  valid x -> is_finite x = true ->
  (Qabs (val x) < inject_Z (2 ^ 1020))%Q ->
  let r := roundUpToSixteenth x in
  valid r /\ is_finite r = true /\
  sc r = ceil_div (sc x) (2 ^ 1070) * 2 ^ 1070 /\
  (is_zero r = true -> is_zero x = false -> sc x <> sc r).
Proof.
  intros Hv Hf Hlt r. destruct x as [s|s| |s m e]; try discriminate.
  - unfold r. rewrite roundUp_zero. repeat split; try reflexivity. discriminate.
  - pose proof (val_mag s m e Hv Hlt) as Hno.
    destruct (fraction_parts s m e Hv Hno) as (H1 & H2 & H3 & _).
    fold r in H1, H2, H3. repeat split; try assumption.
    intros Hz _. destruct r; try discriminate. cbn [sc].
    pose proof (sc_mag m e Hv). unfold signed. destruct s; cbn [cond_Zopp]; lia.
Qed.

Lemma val_mag_conv (s : bool) (m : positive) (e : Z) :
  bounded prec emax m e = true ->
  digits m + e <= 1020 ->
  (Qabs (val (S754_finite s m e)) < inject_Z (2 ^ 1020))%Q.
Proof.
  intros Hb Hno. pose proof (bounded_range _ _ Hb) as (Hr & Hd & _).
  rewrite (Qabs_wd _ _ (val_sc (S754_finite s m e) Hb)).
  unfold Qabs, Qlt. cbn [Qnum Qden inject_Z sc].
  rewrite Z.abs_mul, signed_abs.
  assert (HP : Zpos P1074 = 2 ^ 1074).
  { unfold P1074. rewrite Z2Pos.id by (apply pow2_pos; lia). reflexivity. }
  rewrite HP, Z.mul_1_r.
  pose proof (pow2_pos (e + 1074) ltac:(lia)) as Hp.
  rewrite (Z.abs_eq (2 ^ (e + 1074))) by lia.
  pose proof (digits_bounds m) as [_ Hu]. pose proof (digits_pos m).
  apply Z.lt_le_trans with (2 ^ digits m * 2 ^ (e + 1074)).
  - apply Z.mul_lt_mono_pos_r; lia.
  - rewrite <- !Z.pow_add_r by lia. apply Z.pow_le_mono_r; lia.
Qed.

Lemma sc_of_val_grid (x : number) (j : Z) :
  valid x -> (val x == inject_Z j / 16)%Q -> sc x = j * 2 ^ 1070.
Proof.
  intros Hv H. rewrite (val_sc x Hv) in H.
  unfold Qeq, Qdiv, Qmult, Qinv in H. cbn [Qnum Qden inject_Z] in H.
  unfold P1074 in H. rewrite Z2Pos.id in H by (apply pow2_pos; lia).
  change (2 ^ 1074) with (2 ^ 1070 * 16) in H.
  rewrite Pos.mul_1_l in H. change (Zpos 16) with 16 in H.
  pose proof (pow2_pos 1070 ltac:(lia)). nia.
Qed.

(** ** The reduction of the fraction *)

Lemma findGCD_mono (fuel : nat) : forall (a b g : number) (extra : nat),
  findGCD fuel a b = Some g -> findGCD (fuel + extra) a b = Some g.
Proof.
  induction fuel as [|fuel IH]; intros a b g extra H; [discriminate|].
  cbn [findGCD Nat.add] in *. destruct (strict_eq b (of_int 0)); [exact H|].
  apply IH. exact H.
Qed.

Lemma findGCD_nan (fuel : nat) : forall a : number, findGCD fuel a NaN = None.
Proof.
  induction fuel as [|fuel IH]; intros a; [reflexivity|].
  cbn [findGCD]. change (strict_eq NaN (of_int 0)) with false. cbv iota.
  replace (rem a NaN) with NaN by (destruct a; reflexivity). apply IH.
Qed.

Lemma simplifyFraction_mono (fuel extra : nat) (a b : number) (f : Fraction) :
  simplifyFraction fuel a b = Some f -> simplifyFraction (fuel + extra) a b = Some f.
Proof.
  unfold simplifyFraction. destruct (findGCD fuel a b) as [g|] eqn:Hg; [|discriminate].
  rewrite (findGCD_mono fuel a b g extra Hg). trivial.
Qed.

Lemma grid_facts (j : Z) :
  1 <= j <= 15 ->
  strict_eq (grid j) (of_int 0) = false /\
  Math_round (mul (grid j) (of_int 16)) = of_int j /\
  simplifyFraction 6 (of_int j) (of_int 16)
  = Some {| numerator := of_int (j / Z.gcd j 16);
            denominator := of_int (16 / Z.gcd j 16) |} /\
  Z.gcd (j / Z.gcd j 16) (16 / Z.gcd j 16) = 1 /\
  (val (grid j) == j # 16)%Q.
Proof.
  intros H.
  assert (Hj : j = 1 \/ j = 2 \/ j = 3 \/ j = 4 \/ j = 5 \/ j = 6 \/ j = 7 \/ j = 8
               \/ j = 9 \/ j = 10 \/ j = 11 \/ j = 12 \/ j = 13 \/ j = 14 \/ j = 15)
    by lia.
  repeat (destruct Hj as [-> | Hj]); try subst j; vm_compute; repeat split; reflexivity.
Qed.

(** The fraction is written with plain decimal numerals and does not begin
    with a zero. *)
Lemma fraction_text_numerals (j : Z) :
  1 <= j <= 15 ->
  fraction_text j
  = (digits_of (j / Z.gcd j 16) ++ "/" ++ digits_of (16 / Z.gcd j 16)
     ++ inch_mark)%string /\
  String.prefix "0" (fraction_text j) = false.
Proof.
  intros H.
  assert (Hj : j = 1 \/ j = 2 \/ j = 3 \/ j = 4 \/ j = 5 \/ j = 6 \/ j = 7 \/ j = 8
               \/ j = 9 \/ j = 10 \/ j = 11 \/ j = 12 \/ j = 13 \/ j = 14 \/ j = 15)
    by lia.
  repeat (destruct Hj as [-> | Hj]); try subst j; vm_compute; split; reflexivity.
Qed.

Lemma strict_eq_zero (w : number) :
  is_finite w = true -> strict_eq w (of_int 0) = is_zero w.
Proof. destruct w as [s|s| |s m e]; try discriminate; destruct s; reflexivity. Qed.

Lemma is_zero_sc (w : number) :
  valid w -> is_finite w = true -> (is_zero w = true <-> sc w = 0).
Proof.
  intros Hv Hf. destruct w as [s|s| |s m e]; try discriminate.
  - split; reflexivity.
  - pose proof (sc_mag m e Hv). cbn [is_zero sc]. unfold signed.
    split; [discriminate|]. destruct s; cbn [cond_Zopp]; lia.
Qed.

Lemma val_int (w : number) (n : Z) :
  valid w -> sc w = n * 2 ^ 1074 -> (val w == inject_Z n)%Q.
Proof.
  intros Hv H. rewrite (val_sc w Hv), H. unfold Qeq. cbn [Qnum Qden inject_Z].
  unfold P1074. rewrite Z2Pos.id by (apply pow2_pos; lia). ring.
Qed.

(** ** The greatest of a list *)

Lemma key_bounds (x : number) :
  valid x -> is_nan x = false ->
  - huge <= key x <= huge /\
  (key x = - huge -> x = S754_infinity true).
Proof.
  intros Hv Hn. assert (H3 : 0 < huge) by (apply pow2_pos; lia).
  destruct x as [s|s| |s m e]; try discriminate.
  - cbn [key sc]. split; [lia|]. intros H; exfalso; lia.
  - destruct s; cbn [key]; (split; [lia|]); intros H; [reflexivity|exfalso; lia].
  - pose proof (sc_mag m e Hv). cbn [key sc]. unfold signed.
    destruct s; cbn [cond_Zopp]; (split; [lia|]); intros H'; exfalso; lia.
Qed.

Lemma gt_key (x h : number) :
  valid x -> valid h -> is_nan x = false -> is_nan h = false ->
  gt x h = (key h <? key x).
Proof.
  intros Hx Hh Nx Nh. unfold gt, SFltb.
  rewrite (SFcompare_key h x Hh Hx Nh Nx). unfold Z.ltb.
  destruct (key h ?= key x); reflexivity.
Qed.

Lemma max_step_spec (h x : number) :
  valid h -> valid x -> is_nan h = false -> is_nan x = false ->
  (max_step h x = x /\ key h <= key x) \/ (max_step h x = h /\ key x <= key h).
Proof.
  intros Hh Hx Nh Nx.
  assert (Hgen : (if gt x h then x else h) = x /\ key h <= key x \/
                 (if gt x h then x else h) = h /\ key x <= key h).
  { rewrite (gt_key x h Hx Hh Nx Nh).
    destruct (Z.ltb_spec (key h) (key x)); [left|right]; split; (reflexivity || lia). }
  destruct h as [[|]| | |]; destruct x as [[|]| | |]; try exact Hgen.
  left. split; [reflexivity|]. cbn [key sc]. lia.
Qed.

Lemma fold_max_spec (xs : list number) : forall acc : number,
  valid acc -> is_nan acc = false ->
  (forall x, In x xs -> valid x /\ is_nan x = false) ->
  let r := fold_left max_step xs acc in
  valid r /\ is_nan r = false /\ (r = acc \/ In r xs) /\
  key acc <= key r /\ (forall x, In x xs -> key x <= key r).
Proof.
  induction xs as [|x xs IH]; intros acc Hv Hn Hall; cbn [fold_left].
  - repeat split; try assumption; try lia; [left; reflexivity|intros x []].
  - destruct (Hall x (or_introl eq_refl)) as [Hvx Hnx].
    assert (Hv' : valid (max_step acc x) /\ is_nan (max_step acc x) = false).
    { destruct (max_step_spec acc x Hv Hvx Hn Hnx) as [[-> _]|[-> _]]; split; assumption. }
    destruct Hv' as [Hv' Hn'].
    destruct (IH (max_step acc x) Hv' Hn' (fun y Hy => Hall y (or_intror Hy)))
      as (H1 & H2 & H3 & H4 & H5).
    cbv zeta in *. split; [exact H1|]. split; [exact H2|].
    destruct (max_step_spec acc x Hv Hvx Hn Hnx) as [[Hm Hk]|[Hm Hk]];
      rewrite Hm in *.
    + split; [destruct H3 as [->|H3]; right; [left; reflexivity | right; exact H3]|].
      split; [lia|]. intros y [<-|Hy]; [lia|apply H5; exact Hy].
    + split; [destruct H3 as [->|H3]; [left; reflexivity | right; right; exact H3]|].
      split; [lia|]. intros y [<-|Hy]; [lia|apply H5; exact Hy].
Qed.

Lemma existsb_nan_false (xs : list number) :
  (forall x, In x xs -> valid x /\ is_nan x = false) -> existsb is_nan xs = false.
Proof.
  induction xs as [|x xs IH]; intros H; [reflexivity|].
  cbn [existsb]. destruct (H x (or_introl eq_refl)) as [_ ->].
  apply IH. intros y Hy. apply H. right. exact Hy.
Qed.

(** Without NaN, [Math.max] returns an element that is at least every
    element. *)
Lemma Math_max_greatest (xs : list number) :
  xs <> [] ->
  (forall x, In x xs -> valid x /\ is_nan x = false) ->
  In (Math_max xs) xs /\ (forall x, In x xs -> ge (Math_max xs) x = true).
Proof.
  intros Hne Hall. unfold Math_max. rewrite (existsb_nan_false xs Hall).
  destruct (fold_max_spec xs neg_Infinity eq_refl eq_refl Hall) as (H1 & H2 & H3 & H4 & H5).
  cbv zeta in *. set (r := fold_left max_step xs neg_Infinity) in *.
  split.
  - destruct H3 as [Hr|Hr]; [|exact Hr].
    destruct xs as [|x xs']; [contradiction|].
    destruct (Hall x (or_introl eq_refl)) as [Hvx Hnx].
    pose proof (H5 x (or_introl eq_refl)) as Hk. rewrite Hr in Hk.
    destruct (key_bounds x Hvx Hnx) as [Hb Hinf].
    rewrite Hr. left. apply Hinf. cbn [key neg_Infinity] in Hk. lia.
  - intros x Hx. destruct (Hall x Hx) as [Hvx Hnx].
    apply ge_of_key; try assumption. apply H5. exact Hx.
Qed.

Lemma reduce_sum_map {A : Type} (f : A -> number) (xs : list A) :
  reduce_sum f xs = fold_left add (map f xs) (of_int 0).
Proof.
  unfold reduce_sum. generalize (of_int 0).
  induction xs as [|x xs IH]; intros acc; [reflexivity|]. cbn. apply IH.
Qed.

(** ** The store

    Reading through references returns the passes they stand for, and the
    store only grows. *)

Lemma nth_error_extend (h new : heap) (a : addr) (o : object) :
  nth_error h a = Some o -> nth_error (h ++ new) a = Some o.
Proof.
  intros H. rewrite nth_error_app1; [exact H|].
  apply nth_error_Some. congruence.
Qed.

Lemma read_passes_extend (elems : list addr) : forall (h new : heap) ps h',
  read_passes elems h = Some (ps, h') ->
  h' = h /\ read_passes elems (h ++ new) = Some (ps, h ++ new).
Proof.
  induction elems as [|a rest IH]; intros h new ps h' H.
  - cbn in H. injection H as <- <-. split; reflexivity.
  - cbn [read_passes] in *. unfold bind, read_pass in *.
    destruct (nth_error h a) as [[p| |]|] eqn:Ha; try discriminate.
    rewrite (nth_error_extend h new a _ Ha).
    destruct (read_passes rest h) as [[ps0 h0]|] eqn:Hr; try discriminate.
    destruct (IH h new ps0 h0 Hr) as [-> Hx]. rewrite Hx.
    cbn in H. injection H as <- <-. split; reflexivity.
Qed.

Lemma deref_extend (a : addr) (h new : heap) ps h' :
  deref a h = Some (ps, h') ->
  h' = h /\ deref a (h ++ new) = Some (ps, h ++ new).
Proof.
  unfold deref, bind, read_pass_array. intros H.
  destruct (nth_error h a) as [[|l|]|] eqn:Ha; try discriminate.
  rewrite (nth_error_extend h new a _ Ha).
  apply read_passes_extend. exact H.
Qed.

Lemma read_passes_length (elems : list addr) : forall h ps h',
  read_passes elems h = Some (ps, h') -> List.length ps = List.length elems.
Proof.
  induction elems as [|a rest IH]; intros h ps h' H.
  - cbn in H. injection H as <- _. reflexivity.
  - cbn [read_passes] in H. unfold bind, read_pass in H.
    destruct (nth_error h a) as [[p| |]|]; try discriminate.
    destruct (read_passes rest h) as [[ps0 h0]|] eqn:Hr; try discriminate.
    cbn in H. injection H as <- _. cbn. f_equal. eapply IH. exact Hr.
Qed.

Lemma array_length_deref (a : addr) (h : heap) ps :
  deref a h = Some (ps, h) -> array_length a h = Some (List.length ps, h).
Proof.
  unfold deref, array_length, bind, read_pass_array, ret. intros H.
  destruct (nth_error h a) as [[|l|]|]; try discriminate.
  rewrite (read_passes_length l h ps h H). reflexivity.
Qed.

Lemma array_map_deref (f : PassResult -> number) (a : addr) (h : heap) ps :
  deref a h = Some (ps, h) ->
  array_map f a h = Some (List.length h, h ++ [NumberArray (map f ps)]).
Proof. unfold array_map, bind. intros ->. reflexivity. Qed.

Lemma nth_error_last (h : heap) (o : object) : nth_error (h ++ [o]) (List.length h) = Some o.
Proof. rewrite nth_error_app2 by lia. rewrite Nat.sub_diag. reflexivity. Qed.

Lemma spread_max_at (h : heap) (a : addr) (xs : list number) :
  nth_error h a = Some (NumberArray xs) -> spread_max a h = Some (Math_max xs, h).
Proof. unfold spread_max, bind, read_number_array. intros ->. reflexivity. Qed.

Lemma spread_min_at (h : heap) (a : addr) (xs : list number) :
  nth_error h a = Some (NumberArray xs) -> spread_min a h = Some (Math_min xs, h).
Proof. unfold spread_min, bind, read_number_array. intros ->. reflexivity. Qed.

Lemma array_reduce_sum_deref (f : PassResult -> number) (a : addr) (h : heap) ps :
  deref a h = Some (ps, h) -> array_reduce_sum f a h = Some (reduce_sum f ps, h).
Proof. unfold array_reduce_sum, bind. intros ->. reflexivity. Qed.

Lemma extends_lookup (h h' : heap) (a : addr) (o : object) :
  extends h h' -> nth_error h a = Some o -> nth_error h' a = Some o.
Proof. intros [new ->]. apply nth_error_extend. Qed.

Lemma deref_same (a : addr) (h : heap) ps h' :
  deref a h = Some (ps, h') -> deref a h = Some (ps, h).
Proof. intros H. destruct (deref_extend a h [] ps h' H) as [-> _]. exact H. Qed.

Lemma aggregateResults_st_spec (passes : addr) (h : heap) (ps : list PassResult) :
  deref passes h = Some (ps, h) ->
  exists (o : AggregatedObject) (h' : heap),
    aggregateResults_st passes h = Some (o, h') /\
    extends h h' /\
    deref passes h' = Some (ps, h') /\
    view o h' = Some (aggregateResults ps, h') /\
    (ps <> [] -> obj_passes o = passes).
Proof.
  intros Hd. unfold aggregateResults_st. unfold bind at 1.
  rewrite (array_length_deref passes h ps Hd).
  destruct ps as [|p ps'] eqn:Eps.
  - cbn [List.length Nat.eqb]. unfold bind, alloc, ret.
    eexists. eexists. split; [reflexivity|].
    split; [exists [PassArray []]; reflexivity|].
    split; [apply deref_extend with (h' := h); exact Hd|].
    split; [|congruence].
    unfold view, deref, bind, read_pass_array. cbn [obj_passes].
    rewrite nth_error_last. reflexivity.
  - rewrite <- Eps in *. 
    assert (Hlen : (List.length ps =? 0)%nat = false) by (rewrite Eps; reflexivity).
    rewrite Hlen.
    set (h1 := h ++ [NumberArray (map widthInInches ps)]).
    assert (Hd1 : deref passes h1 = Some (ps, h1)) by (apply deref_extend with (h' := h); exact Hd).
    set (h2 := h1 ++ [NumberArray (map heightInInches ps)]).
    assert (Hd2 : deref passes h2 = Some (ps, h2)) by (apply deref_extend with (h' := h1); exact Hd1).
    assert (Hw : nth_error h1 (List.length h) = Some (NumberArray (map widthInInches ps)))
      by apply nth_error_last.
    assert (Hh : nth_error h2 (List.length h1) = Some (NumberArray (map heightInInches ps)))
      by apply nth_error_last.
    unfold bind at 1. rewrite (array_map_deref _ passes h ps Hd). fold h1.
    unfold bind at 1. rewrite (spread_max_at h1 _ _ Hw).
    unfold bind at 1. rewrite (array_map_deref _ passes h1 ps Hd1). fold h2.
    unfold bind at 1. rewrite (spread_max_at h2 _ _ Hh).
    unfold bind at 1. rewrite (array_reduce_sum_deref _ passes h2 ps Hd2).
    unfold bind at 1. rewrite (array_length_deref passes h2 ps Hd2).
    unfold bind at 1. rewrite (array_length_deref passes h2 ps Hd2).
    unfold ret. eexists. eexists. split; [reflexivity|].
    split; [exists [NumberArray (map widthInInches ps); NumberArray (map heightInInches ps)];
            unfold h2, h1; rewrite <- app_assoc; reflexivity|].
    split; [exact Hd2|]. split; [|reflexivity].
    unfold view, bind. cbn [obj_passes]. rewrite Hd2. unfold ret.
    unfold aggregateResults. rewrite Hlen. reflexivity.
Qed.

Lemma bind_eq {A B : Type} (c : M A) (k : A -> M B) (h h' : heap) (a : A) :
  c h = Some (a, h') -> bind c k h = k a h'.
Proof. unfold bind. intros ->. reflexivity. Qed.

Lemma extends_refl (h : heap) : extends h h.
Proof. exists []. symmetry. apply app_nil_r. Qed.

Lemma shouldRecommendAdditionalPass_st_spec
        (passes : addr) (h : heap) (ps : list PassResult) :
  deref passes h = Some (ps, h) ->
  exists h' : heap,
    shouldRecommendAdditionalPass_st passes h
    = Some (shouldRecommendAdditionalPass ps, h') /\
    extends h h' /\
    deref passes h' = Some (ps, h').
Proof.
  intros Hd. unfold shouldRecommendAdditionalPass_st, shouldRecommendAdditionalPass.
  unfold bind at 1. rewrite (array_length_deref passes h ps Hd).
  destruct (List.length ps =? 0)%nat.
  { exists h. split; [reflexivity|]. split; [apply extends_refl|exact Hd]. }
  destruct (3 <=? List.length ps)%nat.
  { exists h. split; [reflexivity|]. split; [apply extends_refl|exact Hd]. }
  unfold bind at 1. rewrite (array_reduce_sum_deref _ passes h ps Hd).
  unfold bind at 1. rewrite (array_length_deref passes h ps Hd).
  change (number_of_nat (List.length ps)) with (length_of ps).
  destruct (lt (div (reduce_sum confidence ps) (length_of ps)) (decimal 65 2)).
  { exists h. split; [reflexivity|]. split; [apply extends_refl|exact Hd]. }
  unfold bind at 1. rewrite (array_length_deref passes h ps Hd).
  destruct (2 <=? List.length ps)%nat.
  - set (h1 := h ++ [NumberArray (map widthInInches ps)]).
    assert (Hd1 : deref passes h1 = Some (ps, h1))
      by (apply deref_extend with (h' := h); exact Hd).
    set (h2 := h1 ++ [NumberArray (map heightInInches ps)]).
    assert (Hd2 : deref passes h2 = Some (ps, h2))
      by (apply deref_extend with (h' := h1); exact Hd1).
    assert (Hw : nth_error h2 (List.length h) = Some (NumberArray (map widthInInches ps))).
    { apply nth_error_extend. apply nth_error_last. }
    assert (Hh : nth_error h2 (List.length h1) = Some (NumberArray (map heightInInches ps)))
      by apply nth_error_last.
    exists h2. split.
    + erewrite bind_eq.
      2:{ erewrite bind_eq by (apply array_map_deref; exact Hd). fold h1.
          erewrite bind_eq by (apply array_map_deref; exact Hd1). fold h2.
          erewrite bind_eq by (apply spread_max_at; exact Hw).
          erewrite bind_eq by (apply spread_min_at; exact Hw).
          erewrite bind_eq by (apply spread_max_at; exact Hh).
          erewrite bind_eq by (apply spread_min_at; exact Hh).
          reflexivity. }
      destruct (gt _ _ || gt _ _); reflexivity.
    + split; [|exact Hd2].
      exists [NumberArray (map widthInInches ps); NumberArray (map heightInInches ps)].
      unfold h2, h1. rewrite <- app_assoc. reflexivity.
  - exists h. split; [reflexivity|]. split; [apply extends_refl|exact Hd].
Qed.

(** ** Further facts used by the claims *)

Lemma findGCD_nan_16 (fuel : nat) : findGCD fuel NaN (of_int 16) = None.
Proof.
  destruct fuel as [|fuel]; [reflexivity|]. cbn [findGCD].
  change (strict_eq (of_int 16) (of_int 0)) with false. cbv iota.
  change (rem NaN (of_int 16)) with NaN. apply findGCD_nan.
Qed.

(** When the rounded value is not finite the remainder is NaN and the
    reduction of the fraction never returns. *)
Lemma formatInchesFraction_not_finite (fuel : nat) (x : number) :
  is_finite (roundUpToSixteenth x) = false ->
  is_nan (sub (roundUpToSixteenth x) (Math_floor (roundUpToSixteenth x))) = true /\
  formatInchesFraction fuel x = None.
Proof.
  intros H. unfold formatInchesFraction.
  destruct (roundUpToSixteenth x) as [s|s| |s m e]; try discriminate.
  - assert (Hr : sub (S754_infinity s) (Math_floor (S754_infinity s)) = NaN)
      by (destruct s; reflexivity).
    rewrite Hr. split; [reflexivity|].
    change (strict_eq NaN (of_int 0)) with false. cbv iota.
    change (Math_round (mul NaN (of_int 16))) with NaN.
    unfold simplifyFraction. rewrite findGCD_nan_16. reflexivity.
  - split; [reflexivity|].
    change (sub S754_nan (Math_floor S754_nan)) with NaN.
    change (strict_eq NaN (of_int 0)) with false. cbv iota.
    change (Math_round (mul NaN (of_int 16))) with NaN.
    unfold simplifyFraction. rewrite findGCD_nan_16. reflexivity.
Qed.

Lemma roundUp_overflow (s : bool) (m : positive) (e : Z) :
  bounded prec emax m e = true -> 1020 < digits m + e ->
  roundUpToSixteenth (S754_finite s m e) = S754_infinity s.
Proof.
  intros Hb Hov. unfold roundUpToSixteenth.
  rewrite mul16_overflow by assumption. destruct s; reflexivity.
Qed.

(** [formatInchesFraction] returns on no other input than the finite numbers
    below [2^1020] in magnitude. *)
Lemma formatInchesFraction_diverges (fuel : nat) (x : number) :
  valid x ->
  is_finite x = false \/ (inject_Z (2 ^ 1020) <= Qabs (val x))%Q ->
  formatInchesFraction fuel x = None.
Proof.
  intros Hv H. apply formatInchesFraction_not_finite.
  destruct x as [s|s| |s m e].
  - destruct H as [H|H]; [discriminate|]. exfalso. revert H. apply Qlt_not_le. reflexivity.
  - rewrite roundUp_infinity. reflexivity.
  - reflexivity.
  - destruct H as [H|H]; [discriminate|].
    rewrite roundUp_overflow; [reflexivity|exact Hv|].
    destruct (Z_le_gt_dec (digits m + e) 1020) as [Hno|Hov]; [exfalso|lia].
    revert H. apply Qlt_not_le. apply val_mag_conv; assumption.
Qed.

Lemma strict_eq_refl (x : number) : valid x -> is_nan x = false -> strict_eq x x = true.
Proof.
  intros Hv Hn. unfold strict_eq, SFeqb. rewrite (SFcompare_key x x Hv Hv Hn Hn).
  rewrite Z.compare_refl. reflexivity.
Qed.

Lemma later_app (ps more : list PassResult) : later ps (ps ++ more).
Proof.
  induction more as [|p more IH] using rev_ind.
  - rewrite app_nil_r. constructor.
  - rewrite app_assoc. constructor. exact IH.
Qed.

Lemma later_length (ps qs : list PassResult) :
  later ps qs -> (List.length ps <= List.length qs)%nat.
Proof.
  induction 1 as [|qs p _ IH]; [lia|]. rewrite length_app. cbn. lia.
Qed.

(** ** The cases of the test suite *)

Example val_tests :
  (val (decimal 365 1) == 73 # 2)%Q /\
  (val (of_int (-3)) == -3 # 1)%Q /\
  (val (div (of_int 1) (of_int 16)) == 1 # 16)%Q /\
  (val MAX_VALUE == inject_Z ((2 ^ 53 - 1) * 2 ^ 971))%Q.
Proof. vm_compute. repeat split; reflexivity. Qed.

(** Number to string: the nearest shortest digits, also where a power of
    ten lies between the candidates, as for twice the least positive
    number. *)
Example Number_toString_tests :
  map Number_toString
      [S754_finite false 1 (-1074); S754_finite false 2 (-1074);
       S754_finite false 3 (-1074); S754_finite false 9 (-1074);
       S754_finite false 10 (-1074); decimal 1 1; decimal 365 1;
       div (of_int 1) (of_int 3); of_int (10 ^ 21); decimal 5 7;
       of_int (-48); MAX_VALUE]
  = ["5e-324"; "1e-323"; "1.5e-323"; "4.4e-323"; "5e-323"; "0.1"; "36.5";
     "0.3333333333333333"; "1e+21"; "5e-7"; "-48";
     "1.7976931348623157e+308"]%string.
Proof. vm_compute. reflexivity. Qed.

Example roundUpToSixteenth_tests :
  map roundUpToSixteenth
      [of_int 36; decimal 3601 2; decimal 3605 2; decimal 360625 4;
       decimal 3607 2; decimal 36001 3; decimal 36063 3; decimal 365 1;
       decimal 36501 3; of_int 48; of_int 0; decimal 5 1; decimal 3125 5;
       decimal 1 2]
  = [of_int 36; decimal 360625 4; decimal 360625 4; decimal 360625 4;
     decimal 36125 3; decimal 360625 4; decimal 36125 3; decimal 365 1;
     decimal 365625 4; of_int 48; of_int 0; decimal 5 1; decimal 625 4;
     decimal 625 4].
Proof. vm_compute. reflexivity. Qed.

Example formatInchesFraction_tests :
  map (formatInchesFraction 6)
      [of_int 36; of_int 0; decimal 365 1; decimal 3625 2; decimal 3675 2;
       decimal 360625 4; decimal 36125 3; decimal 361875 4; decimal 363125 4;
       decimal 5 1; decimal 625 4; decimal 3601 2; decimal 3651 2]
  = map (fun text => Some (text ++ inch_mark)%string)
      ["36"; "0"; "36 1/2"; "36 1/4"; "36 3/4"; "36 1/16"; "36 1/8";
       "36 3/16"; "36 5/16"; "1/2"; "1/16"; "36 1/16"; "36 9/16"]%string.
Proof. vm_compute. reflexivity. Qed.

(** Below zero the whole part is the floor and the remainder counts upward
    from it; a value in (-1/16, 0) is rounded to minus zero, printed "0". *)
Example formatInchesFraction_negative :
  map (formatInchesFraction 6) [decimal (-5) 1; decimal (-3) 2; decimal (-3625) 2]
  = map (fun text => Some (text ++ inch_mark)%string)
      ["-1 1/2"; "0"; "-37 3/4"]%string.
Proof. vm_compute. reflexivity. Qed.

(** Neither NaN nor an infinity can be formatted, whatever the stack. *)
Example formatInchesFraction_NaN (fuel : nat) :
  formatInchesFraction fuel NaN = None /\
  formatInchesFraction fuel Infinity = None /\
  formatInchesFraction fuel neg_Infinity = None.
Proof. repeat split; apply formatInchesFraction_not_finite; reflexivity. Qed.

Example formatDimensions_tests :
  formatDimensions 6 (decimal 365 1) (decimal 4825 2)
  = Some ("36 1/2" ++ inch_mark ++ " " ++ utf8 215 ++ " "
          ++ "48 1/4" ++ inch_mark)%string.
Proof. vm_compute. reflexivity. Qed.

Example formatConfidence_tests :
  map formatConfidence [decimal 85 2; decimal 855 3; of_int 1; decimal 4 3]
  = ["85%"; "86%"; "100%"; "0%"]%string.
Proof. vm_compute. reflexivity. Qed.

(** The greatest width and the greatest height of the sample come from
    different passes: the second and the third. *)
Example aggregateResults_tests :
  widthInches (aggregateResults sample_passes)
  = roundUpToSixteenth (decimal 362 1) /\
  heightInches (aggregateResults sample_passes)
  = roundUpToSixteenth (decimal 481 1) /\
  widthInches (aggregateResults sample_passes) = decimal 3625 2 /\
  heightInches (aggregateResults sample_passes) = decimal 48125 3 /\
  Number_toString (averageConfidence (aggregateResults sample_passes))
  = "0.7999999999999999"%string /\
  category (aggregateResults sample_passes) = OK /\
  passCount (aggregateResults sample_passes) = of_int 3.
Proof. vm_compute. repeat split; reflexivity. Qed.

Example shouldRecommendAdditionalPass_tests :
  let pass w h c := createPassResult w h c (of_int 0) in
  reason (shouldRecommendAdditionalPass [])
  = "No passes yet"%string /\
  reason (shouldRecommendAdditionalPass
            [pass (of_int 36) (of_int 48) (decimal 5 1);
             pass (of_int 36) (of_int 48) (decimal 6 1)])
  = "Low confidence - an additional pass may improve accuracy"%string /\
  reason (shouldRecommendAdditionalPass varying_passes)
  = "Measurements vary between passes - an additional pass may help"%string /\
  reason (shouldRecommendAdditionalPass
            [pass (of_int 36) (of_int 48) (decimal 8 1);
             pass (decimal 361 1) (decimal 481 1) (decimal 85 2)])
  = "Measurements look good"%string /\
  reason (shouldRecommendAdditionalPass
            [pass (of_int 36) (of_int 48) (decimal 5 1);
             pass (of_int 36) (of_int 48) (decimal 5 1);
             pass (of_int 36) (of_int 48) (decimal 5 1)])
  = "Maximum passes reached"%string.
Proof. vm_compute. repeat split; reflexivity. Qed.

(** The difference [roundUpToSixteenth x - x] is below 1/16 as a real
    number, but its binary64 value can be 1/16 itself: at [x = 2^-60] the
    subtraction rounds to 1/16, and the comparison with 1/16 is false. *)
Example roundUp_difference_rounds :
  let x := S754_finite false (2 ^ 52) (-112) in
  valid x /\
  sub (roundUpToSixteenth x) x = decimal 625 4 /\
  lt (sub (roundUpToSixteenth x) x) (decimal 625 4) = false /\
  (val (roundUpToSixteenth x) - val x < 1 # 16)%Q.
Proof. vm_compute. repeat split; reflexivity. Qed.

(** At the largest finite number the rounding overflows upward. *)
Example roundUp_MAX_VALUE :
  roundUpToSixteenth MAX_VALUE = Infinity /\
  lt (sub (roundUpToSixteenth MAX_VALUE) MAX_VALUE) (decimal 625 4) = false.
Proof. split; reflexivity. Qed.

(** ** The claims *)

(** C1. For every non-empty sequence of passes, [aggregateResults] returns
    the width and the height rounded up to a sixteenth from the greatest
    width and the greatest height of the passes (each taken on its own
    list, so that the two may come from different passes), the mean of the
    confidences, the category that the thresholds 0.85 and 0.65 give that
    mean in this order, and the length of the sequence as pass count.
    The greatest value is that of [Math.max]: when no value is NaN it is an
    element of the list that is at least every element. *)
Theorem aggregateResults_nonempty (ps : list PassResult) :
  ps <> [] ->
  let r := aggregateResults ps in
  let widths := map widthInInches ps in
  let heights := map heightInInches ps in
  widthInches r = roundUpToSixteenth (Math_max widths) /\
  heightInches r = roundUpToSixteenth (Math_max heights) /\
  ((forall x, In x widths -> valid x /\ is_nan x = false) ->
   In (Math_max widths) widths /\
   forall x, In x widths -> ge (Math_max widths) x = true) /\
  ((forall x, In x heights -> valid x /\ is_nan x = false) ->
   In (Math_max heights) heights /\
   forall x, In x heights -> ge (Math_max heights) x = true) /\
  averageConfidence r = mean (map confidence ps) /\
  (ge (averageConfidence r) (decimal 85 2) = true -> category r = Excellent) /\
  (ge (averageConfidence r) (decimal 85 2) = false ->
   ge (averageConfidence r) (decimal 65 2) = true -> category r = OK) /\
  (ge (averageConfidence r) (decimal 85 2) = false ->
   ge (averageConfidence r) (decimal 65 2) = false -> category r = Not_Great) /\
  passCount r = of_int (Z.of_nat (List.length ps)) /\
  passes r = ps.
Proof.
  intros Hne r widths heights.
  assert (Hlen : (List.length ps =? 0)%nat = false)
    by (destruct ps; [contradiction|reflexivity]).
  assert (Hw : widths <> []) by (unfold widths; destruct ps; [contradiction|discriminate]).
  assert (Hh : heights <> []) by (unfold heights; destruct ps; [contradiction|discriminate]).
  unfold r, aggregateResults. rewrite Hlen.
  cbn [widthInches heightInches averageConfidence category passCount passes].
  split; [reflexivity|]. split; [reflexivity|].
  split; [intros Hall; apply Math_max_greatest; assumption|].
  split; [intros Hall; apply Math_max_greatest; assumption|].
  split.
  { unfold mean. rewrite reduce_sum_map, length_map. reflexivity. }
  split; [intros ->; reflexivity|].
  split; [intros -> ->; reflexivity|].
  split; [intros -> ->; reflexivity|].
  split; reflexivity.
Qed.

Lemma aggregateResults_nonempty_witness :
  sample_passes <> [] /\
  widthInches (aggregateResults sample_passes) = decimal 3625 2 /\
  heightInches (aggregateResults sample_passes) = decimal 48125 3 /\
  category (aggregateResults sample_passes) = OK.
Proof.
  assert (Hne : sample_passes <> []) by discriminate.
  pose proof (aggregateResults_nonempty sample_passes Hne) as H.
  cbv zeta in H. destruct H as (Hw & Hh & _ & _ & _ & _ & Hc & _).
  split; [exact Hne|]. split; [rewrite Hw; reflexivity|].
  split; [rewrite Hh; reflexivity|]. apply Hc; reflexivity.
Defined.



(** C3 as the spec states it fails where [x * 16] overflows: the most
    negative finite number is rounded to minus infinity, which is below it
    and no multiple of a sixteenth. *)
Lemma roundUp_overflow_counterexample :
  let x := SFopp MAX_VALUE in
  valid x /\ is_finite x = true /\
  roundUpToSixteenth x = neg_Infinity /\
  ge (roundUpToSixteenth x) x = false /\
  is_finite (roundUpToSixteenth x) = false.
Proof. repeat split; reflexivity. Qed.

(** C3, amended.  For every finite [x] below [2^1020] in magnitude,
    [roundUpToSixteenth x] is [ceil(x * 16) / 16], a finite number whose
    value is exactly the smallest multiple of 1/16 that is at least the
    value of [x]; hence it is at least [x], exceeds it by less than 1/16,
    and is [x] itself when [x] is a multiple of 1/16 (zero of either sign
    and negative values included). *)
Theorem roundUp_smallest_sixteenth (x : number) :
  valid x -> is_finite x = true ->
  (Qabs (val x) < inject_Z (2 ^ 1020))%Q ->
  let r := roundUpToSixteenth x in
  r = div (Math_ceil (mul x (of_int 16))) (of_int 16) /\
  valid r /\ is_finite r = true /\
  (val r == inject_Z (Qceiling (val x * 16)) / 16)%Q /\
  (forall j : Z, (val x <= inject_Z j / 16)%Q -> (val r <= inject_Z j / 16)%Q) /\
  (val x <= val r)%Q /\
  (val r - val x < 1 # 16)%Q /\
  ge r x = true /\
  (forall j : Z, (val x == inject_Z j / 16)%Q -> r = x).
Proof.
  intros Hv Hf Hlt r.
  destruct (roundUp_sc x Hv Hf Hlt) as (Hvr & Hfr & Hsc & Hnz).
  fold r in Hvr, Hfr, Hsc, Hnz.
  pose proof (pow2_pos 1070 ltac:(lia)) as HU.
  destruct (ceil_div_spec (sc x) (2 ^ 1070) HU) as [[Hle Hlt'] Hmin].
  assert (Hgrid : (val r == inject_Z (Qceiling (val x * 16)) / 16)%Q).
  { rewrite val16_ceiling by exact Hv. apply val_grid; assumption. }
  split; [reflexivity|]. split; [exact Hvr|]. split; [exact Hfr|].
  split; [exact Hgrid|]. split.
  { intros j Hj. rewrite Hgrid, val16_ceiling by exact Hv.
    assert (Hxj : sc x <= j * 2 ^ 1070).
    { rewrite (val_sc x Hv) in Hj. unfold Qle, Qdiv, Qmult, Qinv in Hj.
      cbn [Qnum Qden inject_Z] in Hj. unfold P1074 in Hj.
      rewrite Z2Pos.id in Hj by (apply pow2_pos; lia).
      change (2 ^ 1074) with (2 ^ 1070 * 16) in Hj.
      rewrite Pos.mul_1_l in Hj. change (Zpos 16) with 16 in Hj. nia. }
    specialize (Hmin j Hxj).
    unfold Qle, Qdiv, Qmult, Qinv. cbn [Qnum Qden inject_Z]. lia. }
  split; [apply val_le; try assumption; lia|].
  split; [apply val_sub_lt; try assumption; lia|].
  split.
  { apply ge_of_key; try assumption; try (apply finite_not_nan; assumption).
    rewrite !key_finite by assumption. lia. }
  intros j Hj. pose proof (sc_of_val_grid x j Hv Hj) as Hxj.
  assert (Heq : sc r = sc x).
  { rewrite Hsc, Hxj, ceil_div_mul by lia. reflexivity. }
  destruct x as [s|s| |s m e]; try discriminate.
  - apply roundUp_zero.
  - destruct r as [sr|sr| |sr mr er] eqn:Er; try discriminate.
    + exfalso. apply Hnz; try reflexivity. symmetry. exact Heq.
    + apply sc_inj; assumption.
Qed.

Lemma roundUp_smallest_sixteenth_witness :
  valid (decimal 3601 2) /\ is_finite (decimal 3601 2) = true /\
  (Qabs (val (decimal 3601 2)) < inject_Z (2 ^ 1020))%Q /\
  ge (roundUpToSixteenth (decimal 3601 2)) (decimal 3601 2) = true.
Proof.
  assert (Hv : valid (decimal 3601 2)) by reflexivity.
  assert (Hf : is_finite (decimal 3601 2) = true) by reflexivity.
  assert (Hm : (Qabs (val (decimal 3601 2)) < inject_Z (2 ^ 1020))%Q)
    by (vm_compute; reflexivity).
  pose proof (roundUp_smallest_sixteenth (decimal 3601 2) Hv Hf Hm) as H.
  cbv zeta in H. destruct H as (_ & _ & _ & _ & _ & _ & _ & Hge & _).
  split; [exact Hv|]. split; [exact Hf|]. split; [exact Hm|]. exact Hge.
Defined.

(** C4. On the empty sequence [aggregateResults] returns, as an ordinary
    result, zero width, height, confidence and pass count with the category
    Not Great. *)
Theorem aggregateResults_empty :
  aggregateResults []
  = {| widthInches := pos_zero;
       heightInches := pos_zero;
       averageConfidence := pos_zero;
       category := Not_Great;
       passCount := pos_zero;
       passes := [] |}.
Proof. reflexivity. Qed.

(** C5. With three passes or more [shouldRecommendAdditionalPass] answers
    [recommend = false] with a reason containing "Maximum passes", whatever
    the confidences and dimensions are; and since a session only appends
    passes, the answer stays so in every later state of the session. *)
Theorem max_passes_cap (ps : list PassResult) :
  (3 <= List.length ps)%nat ->
  recommend (shouldRecommendAdditionalPass ps) = false /\
  reason (shouldRecommendAdditionalPass ps) = "Maximum passes reached"%string /\
  includes "Maximum passes" (reason (shouldRecommendAdditionalPass ps)) = true /\
  (forall qs, later ps qs ->
     recommend (shouldRecommendAdditionalPass qs) = false /\
     includes "Maximum passes" (reason (shouldRecommendAdditionalPass qs)) = true).
Proof.
  assert (Hcap : forall qs : list PassResult, (3 <= List.length qs)%nat ->
            shouldRecommendAdditionalPass qs
            = {| recommend := false; reason := "Maximum passes reached" |}).
  { intros qs H. unfold shouldRecommendAdditionalPass.
    destruct qs as [|q qs']; [cbn in H; lia|].
    cbn [List.length Nat.eqb]. cbn [List.length] in H.
    apply Nat.leb_le in H. rewrite H. reflexivity. }
  intros H3. rewrite (Hcap ps H3). repeat split.
  all: pose proof (later_length ps qs H) as Hl; rewrite (Hcap qs ltac:(lia)); reflexivity.
Qed.

Lemma max_passes_cap_witness :
  (3 <= List.length sample_passes)%nat /\
  recommend (shouldRecommendAdditionalPass sample_passes) = false.
Proof.
  assert (H3 : (3 <= List.length sample_passes)%nat) by (cbn; lia).
  split; [exact H3|]. exact (proj1 (max_passes_cap sample_passes H3)).
Defined.

(** C6 as the spec states it fails outside the range where the rounding is
    finite: at the largest finite number the rounded value is infinite, the
    remainder is NaN rather than a value in [0, 1), and the reduction of the
    fraction recurses without end, so that nothing is returned. *)
Lemma formatInchesFraction_overflow_counterexample :
  valid MAX_VALUE /\ is_finite MAX_VALUE = true /\
  roundUpToSixteenth MAX_VALUE = Infinity /\
  is_nan (sub (roundUpToSixteenth MAX_VALUE)
              (Math_floor (roundUpToSixteenth MAX_VALUE))) = true /\
  forall fuel : nat, formatInchesFraction fuel MAX_VALUE = None.
Proof.
  split; [reflexivity|]. split; [reflexivity|]. split; [reflexivity|].
  split; [reflexivity|]. intros fuel.
  apply formatInchesFraction_not_finite. reflexivity.
Qed.

(** C6, amended.  For every finite input below [2^1020] in magnitude (and
    with stack for six nested calls), [formatInchesFraction] rounds up to a
    sixteenth, splits the rounded value [k/16] into its whole part
    [floor(k/16)] and a remainder [(k mod 16)/16] in [0, 1); a zero
    remainder gives the whole part followed by the inch mark; otherwise the
    remainder is turned into the integer [k mod 16] of sixteenths, between 1
    and 15, reduced over 16 to lowest terms by the greatest common divisor,
    and the text is the fraction alone when the whole part is zero and the
    whole part, a space and the fraction when it is not. *)
Theorem formatInchesFraction_finite (fuel : nat) (x : number) :
  valid x -> is_finite x = true ->
  (Qabs (val x) < inject_Z (2 ^ 1020))%Q ->
  (6 <= fuel)%nat ->
  let rounded := roundUpToSixteenth x in
  let whole := Math_floor rounded in
  let remainder := sub rounded whole in
  let k := Qceiling (val x * 16) in
  (val rounded == inject_Z k / 16)%Q /\
  (val whole == inject_Z (k / 16))%Q /\
  (val remainder == inject_Z (k mod 16) / 16)%Q /\
  (0 <= val remainder)%Q /\ (val remainder < 1)%Q /\
  (k mod 16 = 0 ->
     strict_eq remainder (of_int 0) = true /\
     formatInchesFraction fuel x = Some (Number_toString whole ++ inch_mark)%string) /\
  (k mod 16 <> 0 ->
     let n := k mod 16 in
     strict_eq remainder (of_int 0) = false /\
     1 <= n <= 15 /\
     Math_round (mul remainder (of_int 16)) = of_int n /\
     simplifyFraction fuel (of_int n) (of_int 16)
     = Some {| numerator := of_int (n / Z.gcd n 16);
               denominator := of_int (16 / Z.gcd n 16) |} /\
     Z.gcd (n / Z.gcd n 16) (16 / Z.gcd n 16) = 1 /\
     fraction_text n
     = (digits_of (n / Z.gcd n 16) ++ "/" ++ digits_of (16 / Z.gcd n 16)
        ++ inch_mark)%string /\
     String.prefix "0" (fraction_text n) = false /\
     (k / 16 = 0 ->
        strict_eq whole (of_int 0) = true /\
        formatInchesFraction fuel x = Some (fraction_text n)) /\
     (k / 16 <> 0 ->
        strict_eq whole (of_int 0) = false /\
        formatInchesFraction fuel x
        = Some (Number_toString whole ++ " " ++ fraction_text n)%string)).
Proof.
  intros Hv Hf Hlt Hfuel rounded whole remainder k.
  assert (Hparts :
    valid rounded /\ is_finite rounded = true /\ sc rounded = k * 2 ^ 1070 /\
    valid whole /\ is_finite whole = true /\ sc whole = (k / 16) * 2 ^ 1074 /\
    ((k mod 16 = 0 /\ remainder = S754_zero false) \/
     (k mod 16 <> 0 /\ remainder = grid (k mod 16)))).
  { unfold k. rewrite val16_ceiling by exact Hv.
    destruct x as [s|s| |s m e]; try discriminate.
    - unfold remainder, whole, rounded. rewrite roundUp_zero.
      repeat split; try reflexivity. left. split; [reflexivity|].
      apply sub_self_zero.
    - apply fraction_parts; [exact Hv|]. apply val_mag with (s := s); assumption. }
  destruct Hparts as (Hvr & Hfr & Hscr & Hvw & Hfw & Hscw & Hrem).
  pose proof (Z.mod_pos_bound k 16 ltac:(lia)) as Hmb.
  assert (Hwz : strict_eq whole (of_int 0) = true <-> k / 16 = 0).
  { rewrite strict_eq_zero by exact Hfw. rewrite (is_zero_sc whole Hvw Hfw), Hscw.
    pose proof (pow2_pos 1074 ltac:(lia)). split; intros; nia. }
  assert (Hfmt : forall body : string,
    (if strict_eq remainder (of_int 0) then Some (Number_toString whole ++ inch_mark)%string
     else
       match simplifyFraction fuel (Math_round (mul remainder (of_int 16))) (of_int 16) with
       | None => None
       | Some f =>
           if strict_eq whole (of_int 0) then
             Some (Number_toString (numerator f) ++ "/"
                   ++ Number_toString (denominator f) ++ inch_mark)%string
           else
             Some (Number_toString whole ++ " "
                   ++ Number_toString (numerator f) ++ "/"
                   ++ Number_toString (denominator f) ++ inch_mark)%string
       end) = Some body ->
    formatInchesFraction fuel x = Some body).
  { intros body Hb. exact Hb. }
  split; [apply val_grid; assumption|].
  split; [apply val_int; assumption|].
  destruct Hrem as [[Hk0 Hrem] | [Hk0 Hrem]]; rewrite Hrem.
  - split; [rewrite Hk0; reflexivity|].
    split; [apply Qle_refl|]. split; [reflexivity|].
    split; [|intros H; contradiction].
    intros _. split; [reflexivity|]. apply Hfmt. rewrite Hrem. reflexivity.
  - destruct (grid_facts (k mod 16) ltac:(lia)) as (Hg1 & Hg2 & Hg3 & Hg4 & Hg5).
    assert (Hsimp : simplifyFraction fuel (of_int (k mod 16)) (of_int 16)
                    = Some {| numerator := of_int (k mod 16 / Z.gcd (k mod 16) 16);
                              denominator := of_int (16 / Z.gcd (k mod 16) 16) |}).
    { replace fuel with (6 + (fuel - 6))%nat by lia.
      apply simplifyFraction_mono. exact Hg3. }
    split.
    { rewrite Hg5. unfold Qeq, Qdiv, Qmult, Qinv. cbn [Qnum Qden inject_Z]. lia. }
    split.
    { rewrite Hg5. unfold Qle. cbn [Qnum Qden]. lia. }
    split.
    { rewrite Hg5. unfold Qlt. cbn [Qnum Qden]. lia. }
    split; [intros H0; contradiction|].
    intros _ n. split; [exact Hg1|]. split; [lia|]. split; [exact Hg2|].
    split; [exact Hsimp|]. split; [exact Hg4|].
    destruct (fraction_text_numerals (k mod 16) ltac:(lia)) as [Hnum Hlead].
    split; [exact Hnum|]. split; [exact Hlead|].
    split.
    + intros Hw0. apply Hwz in Hw0. split; [exact Hw0|].
      apply Hfmt. rewrite Hrem, Hg1, Hg2, Hsimp, Hw0. reflexivity.
    + intros Hw0.
      assert (Hwf : strict_eq whole (of_int 0) = false).
      { destruct (strict_eq whole (of_int 0)) eqn:E; [|reflexivity].
        exfalso. apply Hw0. apply Hwz. reflexivity. }
      split; [exact Hwf|].
      apply Hfmt. rewrite Hrem, Hg1, Hg2, Hsimp, Hwf. reflexivity.
Qed.

Lemma formatInchesFraction_finite_witness :
  valid (decimal 3651 2) /\ is_finite (decimal 3651 2) = true /\
  (Qabs (val (decimal 3651 2)) < inject_Z (2 ^ 1020))%Q /\
  (6 <= 6)%nat /\
  formatInchesFraction 6 (decimal 3651 2)
  = Some (Number_toString (of_int 36) ++ " " ++ fraction_text 9)%string.
Proof.
  assert (Hv : valid (decimal 3651 2)) by reflexivity.
  assert (Hf : is_finite (decimal 3651 2) = true) by reflexivity.
  assert (Hm : (Qabs (val (decimal 3651 2)) < inject_Z (2 ^ 1020))%Q)
    by (vm_compute; reflexivity).
  assert (H6 : (6 <= 6)%nat) by lia.
  pose proof (formatInchesFraction_finite 6 (decimal 3651 2) Hv Hf Hm H6) as H.
  cbv zeta in H. destruct H as (_ & _ & _ & _ & _ & _ & H).
  assert (Hk : Qceiling (val (decimal 3651 2) * 16) = 585) by (vm_compute; reflexivity).
  rewrite Hk in H.
  destruct (H ltac:(discriminate)) as (_ & _ & _ & _ & _ & _ & _ & _ & Hfmt).
  destruct (Hfmt ltac:(discriminate)) as [_ Hres].
  split; [exact Hv|]. split; [exact Hf|]. split; [exact Hm|]. split; [exact H6|].
  exact Hres.
Defined.

(** C7. [roundUpToSixteenth] is idempotent on every finite input: rounding
    a rounded value returns it bit for bit, and the two compare equal. *)
Theorem roundUp_idempotent (x : number) :
  valid x -> is_finite x = true ->
  roundUpToSixteenth (roundUpToSixteenth x) = roundUpToSixteenth x /\
  strict_eq (roundUpToSixteenth (roundUpToSixteenth x)) (roundUpToSixteenth x) = true.
Proof.
  intros Hv Hf.
  assert (Hidem : roundUpToSixteenth (roundUpToSixteenth x) = roundUpToSixteenth x)
    by (apply roundUp_idem; exact Hv).
  split; [exact Hidem|]. rewrite Hidem.
  destruct x as [s|s| |s m e]; try discriminate.
  - rewrite roundUp_zero. destruct s; reflexivity.
  - destruct (Z_le_gt_dec (digits m + e) 1020) as [Hno|Hov].
    + destruct (roundUp_cases s m e Hv Hno) as
        [[Hz _] | (sr & mr & er & Hr & Hd & Hrange & _)].
      * rewrite Hz. destruct s; reflexivity.
      * rewrite Hr. apply strict_eq_refl; [|reflexivity].
        apply bounded_intro; [rewrite fexp64_eq, Hd|]; lia.
    + rewrite roundUp_overflow by (exact Hv || lia). destruct s; reflexivity.
Qed.

Lemma roundUp_idempotent_witness :
  valid (decimal 3607 2) /\ is_finite (decimal 3607 2) = true /\
  roundUpToSixteenth (roundUpToSixteenth (decimal 3607 2))
  = roundUpToSixteenth (decimal 3607 2).
Proof.
  assert (Hv : valid (decimal 3607 2)) by reflexivity.
  assert (Hf : is_finite (decimal 3607 2) = true) by reflexivity.
  split; [exact Hv|]. split; [exact Hf|].
  exact (proj1 (roundUp_idempotent (decimal 3607 2) Hv Hf)).
Defined.

(** On a finite input below [2^1020] in magnitude, and with stack for six
    nested calls, [formatInchesFraction] returns a text. *)
Lemma formatInchesFraction_returns (fuel : nat) (x : number) :
  valid x -> is_finite x = true ->
  (Qabs (val x) < inject_Z (2 ^ 1020))%Q ->
  (6 <= fuel)%nat ->
  exists text : string, formatInchesFraction fuel x = Some text.
Proof.
  intros Hv Hf Hlt Hfuel.
  set (rounded := roundUpToSixteenth x).
  set (whole := Math_floor rounded).
  set (remainder := sub rounded whole).
  set (k := Qceiling (val x * 16)).
  assert (Hparts :
    valid rounded /\ is_finite rounded = true /\ sc rounded = k * 2 ^ 1070 /\
    valid whole /\ is_finite whole = true /\ sc whole = (k / 16) * 2 ^ 1074 /\
    ((k mod 16 = 0 /\ remainder = S754_zero false) \/
     (k mod 16 <> 0 /\ remainder = grid (k mod 16)))).
  { unfold k. rewrite val16_ceiling by exact Hv.
    destruct x as [s|s| |s m e]; try discriminate.
    - unfold remainder, whole, rounded. rewrite roundUp_zero.
      repeat split; try reflexivity. left. split; [reflexivity|].
      apply sub_self_zero.
    - apply fraction_parts; [exact Hv|]. apply val_mag with (s := s); assumption. }
  destruct Hparts as (_ & _ & _ & _ & _ & _ & Hparts).
  pose proof (Z.mod_pos_bound k 16 ltac:(lia)) as Hmb.
  assert (Hfmt : forall body : string,
    (if strict_eq remainder (of_int 0) then Some (Number_toString whole ++ inch_mark)%string
     else
       match simplifyFraction fuel (Math_round (mul remainder (of_int 16))) (of_int 16) with
       | None => None
       | Some f =>
           if strict_eq whole (of_int 0) then
             Some (Number_toString (numerator f) ++ "/"
                   ++ Number_toString (denominator f) ++ inch_mark)%string
           else
             Some (Number_toString whole ++ " "
                   ++ Number_toString (numerator f) ++ "/"
                   ++ Number_toString (denominator f) ++ inch_mark)%string
       end) = Some body ->
    formatInchesFraction fuel x = Some body).
  { intros body Hb. exact Hb. }
  destruct Hparts as [[Hk0 Hrem] | [Hk0 Hrem]].
  - eexists. apply Hfmt. rewrite Hrem. reflexivity.
  - destruct (grid_facts (k mod 16) ltac:(lia)) as (Hg1 & Hg2 & Hg3 & _).
    assert (Hsimp : simplifyFraction fuel (of_int (k mod 16)) (of_int 16)
                    = Some {| numerator := of_int (k mod 16 / Z.gcd (k mod 16) 16);
                              denominator := of_int (16 / Z.gcd (k mod 16) 16) |}).
    { replace fuel with (6 + (fuel - 6))%nat by lia.
      apply simplifyFraction_mono. exact Hg3. }
    destruct (Bool.bool_dec (strict_eq whole (of_int 0)) true) as [Hw|Hw];
      [|apply Bool.not_true_is_false in Hw];
      eexists; apply Hfmt; rewrite Hrem, Hg1, Hg2, Hsimp, Hw; reflexivity.
Qed.

(** The two separators differ whatever text stands before them. *)
Lemma separator_not_x (width height : string) :
  (width ++ " " ++ utf8 215 ++ " " ++ height)%string
  <> (width ++ " x " ++ height)%string.
Proof.
  induction width as [|c width IH]; cbn [append].
  - discriminate.
  - intros H. apply IH. injection H as H. exact H.
Qed.

(** [formatDimensions] returns on no other dimensions than the finite ones
    below [2^1020] in magnitude: when either is outside, the call for it
    never returns, whatever the stack. *)
Lemma formatDimensions_diverges (fuel : nat) (widthInches heightInches : number) :
  valid widthInches -> valid heightInches ->
  (is_finite widthInches = false \/
   (inject_Z (2 ^ 1020) <= Qabs (val widthInches))%Q) \/
  (is_finite heightInches = false \/
   (inject_Z (2 ^ 1020) <= Qabs (val heightInches))%Q) ->
  formatDimensions fuel widthInches heightInches = None.
Proof.
  intros Hvw Hvh [H|H]; unfold formatDimensions.
  - rewrite (formatInchesFraction_diverges fuel widthInches Hvw H). reflexivity.
  - rewrite (formatInchesFraction_diverges fuel heightInches Hvh H).
    destruct (formatInchesFraction fuel widthInches); reflexivity.
Qed.

(** C8 as the spec states it fails for a dimension outside the range where
    the rounding is finite: with the largest finite number as height or as
    width, or with NaN, the text of that dimension is never returned, and
    so [formatDimensions] returns nothing, although the other dimension
    has its text. *)
Lemma formatDimensions_overflow_counterexample :
  valid MAX_VALUE /\ is_finite MAX_VALUE = true /\
  formatInchesFraction 6 (of_int 36) = Some ("36" ++ inch_mark)%string /\
  formatInchesFraction 6 (of_int 48) = Some ("48" ++ inch_mark)%string /\
  (forall fuel : nat, formatDimensions fuel (of_int 36) MAX_VALUE = None) /\
  (forall fuel : nat, formatDimensions fuel MAX_VALUE (of_int 48) = None) /\
  (forall fuel : nat, formatDimensions fuel NaN (of_int 48) = None).
Proof.
  split; [reflexivity|]. split; [reflexivity|].
  split; [vm_compute; reflexivity|]. split; [vm_compute; reflexivity|].
  assert (Hmax : forall fuel, formatInchesFraction fuel MAX_VALUE = None)
    by (intros fuel; apply formatInchesFraction_not_finite; reflexivity).
  assert (Hnan : forall fuel, formatInchesFraction fuel NaN = None)
    by (intros fuel; apply formatInchesFraction_not_finite; reflexivity).
  split; [|split]; intros fuel; unfold formatDimensions.
  - rewrite Hmax. destruct (formatInchesFraction fuel (of_int 36)); reflexivity.
  - rewrite Hmax. reflexivity.
  - rewrite Hnan. reflexivity.
Qed.

(** C8, amended.  For every finite width and height below [2^1020] in
    magnitude (and with stack for six nested calls), both dimensions have a
    text and [formatDimensions] returns the text of the width, a space, the
    multiplication sign U+00D7 (in UTF-8, the bytes C3 97), a space and the
    text of the height; the separator is not the letter x. *)
Theorem formatDimensions_separator (fuel : nat) (widthInches heightInches : number) :
  valid widthInches -> is_finite widthInches = true ->
  (Qabs (val widthInches) < inject_Z (2 ^ 1020))%Q ->
  valid heightInches -> is_finite heightInches = true ->
  (Qabs (val heightInches) < inject_Z (2 ^ 1020))%Q ->
  (6 <= fuel)%nat ->
  exists width height : string,
    formatInchesFraction fuel widthInches = Some width /\
    formatInchesFraction fuel heightInches = Some height /\
    formatDimensions fuel widthInches heightInches
    = Some (width ++ " " ++ utf8 215 ++ " " ++ height)%string /\
    formatDimensions fuel widthInches heightInches
    <> Some (width ++ " x " ++ height)%string /\
    utf8 215 <> "x"%string /\
    utf8 215 <> "X"%string.
Proof.
  intros Hvw Hfw Hmw Hvh Hfh Hmh Hfuel.
  destruct (formatInchesFraction_returns fuel widthInches Hvw Hfw Hmw Hfuel)
    as [width Hw].
  destruct (formatInchesFraction_returns fuel heightInches Hvh Hfh Hmh Hfuel)
    as [height Hh].
  exists width, height.
  assert (Hd : formatDimensions fuel widthInches heightInches
               = Some (width ++ " " ++ utf8 215 ++ " " ++ height)%string)
    by (unfold formatDimensions; rewrite Hw, Hh; reflexivity).
  split; [exact Hw|]. split; [exact Hh|]. split; [exact Hd|].
  split; [|split; discriminate].
  rewrite Hd. intros H. injection H as H.
  exact (separator_not_x width height H).
Qed.

Lemma formatDimensions_separator_witness :
  valid (of_int 36) /\ is_finite (of_int 36) = true /\
  (Qabs (val (of_int 36)) < inject_Z (2 ^ 1020))%Q /\
  valid (of_int 48) /\ is_finite (of_int 48) = true /\
  (Qabs (val (of_int 48)) < inject_Z (2 ^ 1020))%Q /\
  (6 <= 6)%nat /\
  formatDimensions 6 (of_int 36) (of_int 48)
  = Some ("36" ++ inch_mark ++ " " ++ utf8 215 ++ " " ++ "48" ++ inch_mark)%string.
Proof.
  assert (Hvw : valid (of_int 36)) by reflexivity.
  assert (Hfw : is_finite (of_int 36) = true) by reflexivity.
  assert (Hmw : (Qabs (val (of_int 36)) < inject_Z (2 ^ 1020))%Q)
    by (vm_compute; reflexivity).
  assert (Hvh : valid (of_int 48)) by reflexivity.
  assert (Hfh : is_finite (of_int 48) = true) by reflexivity.
  assert (Hmh : (Qabs (val (of_int 48)) < inject_Z (2 ^ 1020))%Q)
    by (vm_compute; reflexivity).
  assert (H6 : (6 <= 6)%nat) by lia.
  destruct (formatDimensions_separator 6 (of_int 36) (of_int 48)
              Hvw Hfw Hmw Hvh Hfh Hmh H6)
    as (width & height & Hw & Hh & Hd & _).
  assert (Ew : formatInchesFraction 6 (of_int 36) = Some ("36" ++ inch_mark)%string)
    by (vm_compute; reflexivity).
  assert (Eh : formatInchesFraction 6 (of_int 48) = Some ("48" ++ inch_mark)%string)
    by (vm_compute; reflexivity).
  rewrite Ew in Hw. rewrite Eh in Hh.
  injection Hw as <-. injection Hh as <-.
  split; [exact Hvw|]. split; [exact Hfw|]. split; [exact Hmw|].
  split; [exact Hvh|]. split; [exact Hfh|]. split; [exact Hmh|].
  split; [exact H6|]. exact Hd.
Defined.

(** C9. [aggregateResults] and [shouldRecommendAdditionalPass] read the
    store and never write what was in it: after either call every object
    that existed is unchanged, the array still stands for the same passes,
    the result is the value of the function on those passes, and a second
    call returns the same result. *)
Theorem aggregate_and_policy_pure (passes : addr) (h : heap) (ps : list PassResult) :
  deref passes h = Some (ps, h) ->
  exists (o : AggregatedObject) (h1 h2 : heap),
    aggregateResults_st passes h = Some (o, h1) /\
    shouldRecommendAdditionalPass_st passes h
    = Some (shouldRecommendAdditionalPass ps, h2) /\
    view o h1 = Some (aggregateResults ps, h1) /\
    (forall (a : addr) (ob : object),
        nth_error h a = Some ob ->
        nth_error h1 a = Some ob /\ nth_error h2 a = Some ob) /\
    deref passes h1 = Some (ps, h1) /\
    deref passes h2 = Some (ps, h2) /\
    (exists (o' : AggregatedObject) (h1' : heap),
        aggregateResults_st passes h1 = Some (o', h1') /\
        view o' h1' = Some (aggregateResults ps, h1')) /\
    (exists h2' : heap,
        shouldRecommendAdditionalPass_st passes h2
        = Some (shouldRecommendAdditionalPass ps, h2')).
Proof.
  intros Hd.
  destruct (aggregateResults_st_spec passes h ps Hd) as (o & h1 & Ha & He1 & Hd1 & Hv1 & _).
  destruct (shouldRecommendAdditionalPass_st_spec passes h ps Hd) as (h2 & Hs & He2 & Hd2).
  exists o, h1, h2.
  split; [exact Ha|]. split; [exact Hs|]. split; [exact Hv1|].
  split.
  { intros a ob Hob. split; eapply extends_lookup; eassumption. }
  split; [exact Hd1|]. split; [exact Hd2|].
  split.
  - destruct (aggregateResults_st_spec passes h1 ps Hd1) as (o' & h1' & Ha' & _ & _ & Hv' & _).
    exists o', h1'. split; assumption.
  - destruct (shouldRecommendAdditionalPass_st_spec passes h2 ps Hd2) as (h2' & Hs' & _).
    exists h2'. exact Hs'.
Qed.

Lemma aggregate_and_policy_pure_witness :
  deref 3%nat sample_store = Some (sample_passes, sample_store) /\
  exists h2 : heap,
    shouldRecommendAdditionalPass_st 3%nat sample_store
    = Some (shouldRecommendAdditionalPass sample_passes, h2).
Proof.
  assert (Hd : deref 3%nat sample_store = Some (sample_passes, sample_store)) by reflexivity.
  split; [exact Hd|].
  destruct (aggregate_and_policy_pure 3%nat sample_store sample_passes Hd)
    as (o & h1 & h2 & _ & Hs & _).
  exists h2. exact Hs.
Defined.

(** C10. On every non-empty sequence the inline [aggregate] of the page
    component returns the width, height, confidence, category and pass count
    that [aggregateResults] returns on the same passes; on the empty
    sequence it returns [null] where [aggregateResults] returns the zero
    result. *)
Theorem inline_aggregate_agrees (ps : list PassResult) :
  ps <> [] ->
  (exists a : Page.Aggregate,
     Page.aggregate (map page_pass ps) = Some a /\
     Page.width a = widthInches (aggregateResults ps) /\
     Page.height a = heightInches (aggregateResults ps) /\
     Page.agg_confidence a = averageConfidence (aggregateResults ps) /\
     Page.agg_category a = category (aggregateResults ps) /\
     Page.passCount a = passCount (aggregateResults ps)) /\
  Page.aggregate (map page_pass []) = None /\
  passCount (aggregateResults []) = pos_zero.
Proof.
  intros Hne. split; [|split; reflexivity].
  assert (Hlen : (List.length ps =? 0)%nat = false)
    by (destruct ps; [contradiction|reflexivity]).
  assert (Hw : map Page.widthInInches (map page_pass ps) = map widthInInches ps)
    by (rewrite map_map; reflexivity).
  assert (Hh : map Page.heightInInches (map page_pass ps) = map heightInInches ps)
    by (rewrite map_map; reflexivity).
  assert (Hc : reduce_sum Page.confidence (map page_pass ps) = reduce_sum confidence ps).
  { rewrite !reduce_sum_map, map_map. reflexivity. }
  assert (Hl : length_of (map page_pass ps) = length_of ps)
    by (unfold length_of; rewrite length_map; reflexivity).
  unfold Page.aggregate, aggregateResults.
  rewrite length_map, Hlen, Hw, Hh, Hc, Hl.
  eexists. split; [reflexivity|]. repeat split; reflexivity.
Qed.

Lemma inline_aggregate_agrees_witness :
  sample_passes <> [] /\
  exists a : Page.Aggregate,
    Page.aggregate (map page_pass sample_passes) = Some a /\
    Page.width a = widthInches (aggregateResults sample_passes).
Proof.
  assert (Hne : sample_passes <> []) by discriminate.
  split; [exact Hne|].
  destruct (inline_aggregate_agrees sample_passes Hne) as [(a & Ha & Hw & _) _].
  exists a. split; assumption.
Defined.

(** * Further properties of the code *)

Lemma gcd_findGCD (fuel : nat) : forall a b : number,
  Page.gcd fuel a b = findGCD fuel a b.
Proof.
  induction fuel as [|fuel IH]; intros a b; simpl; [reflexivity|].
  now rewrite IH.
Qed.

Lemma Math_max_valid (xs : list number) :
  (forall x, In x xs -> valid x) -> valid (Math_max xs).
Proof.
  intros Hall. unfold Math_max.
  destruct (existsb is_nan xs) eqn:Hnan; [reflexivity|].
  assert (Hxs : forall x, In x xs -> valid x /\ is_nan x = false).
  { intros x Hx. split; [apply Hall; exact Hx|].
    destruct (is_nan x) eqn:E; [|reflexivity].
    assert (existsb is_nan xs = true) by (apply existsb_exists; eauto).
    congruence. }
  apply (fold_max_spec xs neg_Infinity); [reflexivity|reflexivity|exact Hxs].
Qed.

Lemma formatInchesFraction_rounded (fuel : nat) (x : number) :
  valid x ->
  formatInchesFraction fuel (roundUpToSixteenth x) = formatInchesFraction fuel x.
Proof.
  intros Hv. unfold formatInchesFraction. rewrite (roundUp_idem x Hv). reflexivity.
Qed.

Lemma lt_065_075 (x : number) :
  lt x (decimal 65 2) = true -> lt x (decimal 75 2) = true.
Proof.
  assert (H65 : decimal 65 2 = S754_finite false 5854679515581645 (-53))
    by (vm_compute; reflexivity).
  assert (H75 : decimal 75 2 = S754_finite false 6755399441055744 (-53))
    by (vm_compute; reflexivity).
  rewrite H65, H75. unfold lt, SFltb.
  destruct x as [s|s| |s m e]; cbn [SFcompare]; try (intros; assumption).
  destruct s; [intros; reflexivity|].
  destruct (e ?= -53) eqn:He; try (intros; assumption).
  rewrite !Pos.compare_cont_spec. cbn [Pos.switch_Eq].
  destruct (Pos.compare_spec m 5854679515581645) as [H|H|H]; try discriminate.
  intros _.
  assert (Hlt : (m < 6755399441055744)%positive)
    by (apply Pos.lt_trans with (1 := H); reflexivity).
  rewrite (proj2 (Pos.compare_lt_iff _ _) Hlt). reflexivity.
Qed.

Lemma run_app (es fs : list Tutorial.TutorialEvent) (s : Tutorial.Snapshot) :
  Tutorial.run (es ++ fs) s = Tutorial.run fs (Tutorial.run es s).
Proof. apply fold_left_app. Qed.

Lemma reachable_run (es : list Tutorial.TutorialEvent) : forall s,
  Tutorial.reachable s -> Tutorial.reachable (Tutorial.run es s).
Proof.
  induction es as [|e es IH]; intros s Hs; [exact Hs|].
  apply IH. apply Tutorial.reachable_step. exact Hs.
Qed.

Lemma measuring_weaken (n k : nat) (c : Tutorial.TutorialContext) :
  (k <= n)%nat -> measuring n c -> measuring k c.
Proof. intros Hk (Hd & Hm & Hl). repeat split; try assumption. lia. Qed.

Lemma invariant_step (s : Tutorial.Snapshot) (e : Tutorial.TutorialEvent) :
  invariant s -> invariant (Tutorial.transition s e).
Proof.
  destruct s as [v c]. unfold invariant, Tutorial.transition.
  cbn [Tutorial.value Tutorial.context].
  destruct v; destruct e; cbn [Tutorial.value Tutorial.context];
    try (intros H; exact H);
    unfold finals_unset, finals_current, measuring;
    cbn [Tutorial.calculateFinal Tutorial.addPassResult Tutorial.setMountType
         Tutorial.clearPermissionDenied Tutorial.setPermissionDenied
         Tutorial.resetContext Tutorial.initialContext
         Tutorial.finalWidth Tutorial.finalHeight Tutorial.finalConfidence
         Tutorial.finalCategory Tutorial.passes Tutorial.mountType
         Tutorial.cameraPermissionDenied];
    try rewrite length_app; cbn [List.length];
    try (intros H; intuition (try congruence; try lia); fail).
  - (* settings, BACK *)
    intros [H | H].
    + destruct H as (Hw & H). rewrite Hw. cbn. unfold finals_unset. intuition.
    + destruct H as ((Hw & H) & Hm). rewrite Hw. cbn. unfold finals_current, measuring.
      intuition.
Qed.

Lemma invariant_reachable (s : Tutorial.Snapshot) :
  Tutorial.reachable s -> invariant s.
Proof.
  induction 1 as [|s e _ IH].
  - cbn. unfold finals_unset. cbn. repeat split.
  - apply invariant_step. exact IH.
Qed.

Lemma recapture_run (p : PassResult) (n : nat) : forall s : Tutorial.Snapshot,
  Tutorial.value s = Tutorial.pass1 ->
  let t := Tutorial.run (recapture p n) s in
  Tutorial.value t = Tutorial.pass1 /\
  Tutorial.mountType (Tutorial.context t) = Tutorial.mountType (Tutorial.context s) /\
  Tutorial.passes (Tutorial.context t)
  = Tutorial.passes (Tutorial.context s) ++ repeat p n.
Proof.
  induction n as [|n IH]; intros s Hv.
  - cbn. rewrite app_nil_r. auto.
  - destruct s as [v c]. cbn [Tutorial.value Tutorial.context] in Hv. subst v.
    cbn [recapture Tutorial.run fold_left].
    set (s' := Tutorial.transition (Tutorial.transition _ _) _).
    destruct (IH s' eq_refl) as (Hv & Hm & Hp).
    split; [exact Hv|]. split; [exact Hm|].
    unfold Tutorial.run in Hp. rewrite Hp. cbn. rewrite <- app_assoc. reflexivity.
Qed.

(** *** Remainder and quotient of integers *)

Lemma of_int_zero : of_int 0 = S754_zero false.
Proof. reflexivity. Qed.

Lemma of_int_bounded (n : Z) :
  0 < n < 2 ^ 53 ->
  exists (m : positive) (e : Z),
    of_int n = S754_finite false m e /\ bounded prec emax m e = true /\
    digits m = 53 /\ -52 <= e <= 0 /\ Zpos m = n * 2 ^ (- e).
Proof.
  intros Hn.
  destruct (of_int_spec n) as (m & e & Ho & Hd & He & Hm); [lia|lia|].
  replace (n <? 0) with false in Ho by (symmetry; apply Z.ltb_ge; lia).
  rewrite Z.abs_eq in Hm by lia.
  exists m, e. repeat split; try assumption; try lia.
  apply bounded_intro; [rewrite fexp64_eq, Hd|]; lia.
Qed.

Lemma strict_eq_of_int_zero (b : Z) :
  0 <= b < 2 ^ 53 -> strict_eq (of_int b) (of_int 0) = (b =? 0).
Proof.
  intros Hb. destruct (Z.eq_dec b 0) as [->|Hne]; [reflexivity|].
  destruct (of_int_bounded b) as (m & e & Ho & _); [lia|].
  rewrite Ho. replace (b =? 0) with false by (symmetry; apply Z.eqb_neq; exact Hne).
  reflexivity.
Qed.

Lemma rem_of_int (a b : Z) :
  0 <= a < 2 ^ 53 -> 0 < b < 2 ^ 53 ->
  rem (of_int a) (of_int b) = of_int (a mod b).
Proof.
  intros Ha Hb.
  destruct (of_int_bounded b Hb) as (mb & eb & Hob & Hbb & Hdb & Heb & Hmb).
  destruct (Z.eq_dec a 0) as [->|Hane].
  { rewrite Hob, Z.mod_0_l by lia. reflexivity. }
  destruct (of_int_bounded a) as (ma & ea & Hoa & Hba & Hda & Hea & Hma); [lia|].
  rewrite Hoa, Hob. cbn [rem].
  set (ez := Z.min ea eb).
  assert (Hk : 0 < 2 ^ (- ez)) by (apply pow2_pos; lia).
  assert (HA : Zpos ma * 2 ^ (ea - ez) = a * 2 ^ (- ez)).
  { rewrite Hma, <- Z.mul_assoc, <- Z.pow_add_r by lia. f_equal. f_equal. lia. }
  assert (HB : Zpos mb * 2 ^ (eb - ez) = b * 2 ^ (- ez)).
  { rewrite Hmb, <- Z.mul_assoc, <- Z.pow_add_r by lia. f_equal. f_equal. lia. }
  rewrite HA, HB, Z.mul_mod_distr_r by lia.
  pose proof (Z.mod_pos_bound a b ltac:(lia)) as Hc.
  destruct (Z.eqb_spec (a mod b * 2 ^ (- ez)) 0) as [Hz|Hnz].
  - assert (a mod b = 0) by nia. rewrite H. reflexivity.
  - assert (Hcpos : 0 < a mod b) by nia.
    destruct (of_int_bounded (a mod b)) as (mc & ec & Hoc & Hbc & Hdc & Hec & Hmc); [lia|].
    rewrite Hoc. cbn [cond_Zopp].
    apply binary_normalize_sc; [exact Hbc|lia|].
    cbn [sc signed cond_Zopp]. rewrite Hmc.
    rewrite <- !Z.mul_assoc, <- !Z.pow_add_r by lia.
    f_equal. f_equal. lia.
Qed.

Lemma findGCD_of_int (fuel : nat) : forall a b : Z,
  0 <= a < 2 ^ 53 -> 0 <= b < 2 ^ 53 -> b < Z.of_nat fuel ->
  findGCD fuel (of_int a) (of_int b) = Some (of_int (Z.gcd a b)).
Proof.
  induction fuel as [|fuel IH]; intros a b Ha Hb Hf; [lia|].
  cbn [findGCD]. rewrite strict_eq_of_int_zero by lia.
  destruct (Z.eqb_spec b 0) as [->|Hne].
  - rewrite Z.gcd_0_r, Z.abs_eq by lia. reflexivity.
  - rewrite rem_of_int by lia.
    pose proof (Z.mod_pos_bound a b ltac:(lia)) as Hc.
    rewrite IH by lia.
    rewrite (Z.gcd_comm b (a mod b)), Z.gcd_mod, (Z.gcd_comm b a) by lia.
    reflexivity.
Qed.

Lemma div_of_int_exact (c g : Z) :
  0 < g -> 0 < c -> c * g < 2 ^ 53 ->
  div (of_int (c * g)) (of_int g) = of_int c.
Proof.
  intros Hg Hc Hlt.
  assert (Hgl : g < 2 ^ 53) by nia.
  assert (Hcl : c < 2 ^ 53) by nia.
  destruct (of_int_bounded (c * g)) as (ma & ea & Hoa & Hba & Hda & Hea & Hma); [nia|].
  destruct (of_int_bounded g) as (mg & eg & Hog & Hbg & Hdg & Heg & Hmg); [lia|].
  destruct (of_int_bounded c) as (mc & ec & Hoc & Hbc & Hdc & Hec & Hmc); [lia|].
  rewrite Hoa, Hog, Hoc. unfold div, SFdiv, SFdiv_core_binary.
  change (Zdigits2 (Zpos ma)) with (digits ma).
  change (Zdigits2 (Zpos mg)) with (digits mg).
  rewrite Hda, Hdg. cbn [xorb].
  fold (fexp64 (53 + ea - (53 + eg))). rewrite fexp64_eq.
  replace (Z.min (Z.max (53 + ea - (53 + eg) - 53) (-1074)) (ea - eg))
    with (ea - eg - 53) by lia.
  replace (ea - eg - (ea - eg - 53)) with 53 by lia.
  rewrite Z.shiftl_mul_pow2 by lia.
  set (k := 53 - ea + eg).
  assert (Hk0 : 0 <= k) by (unfold k; lia).
  assert (Hpk : 0 < 2 ^ k) by (apply pow2_pos; exact Hk0).
  assert (Hpea : 0 < 2 ^ (- ea)) by (apply pow2_pos; lia).
  assert (Hpeg : 0 < 2 ^ (- eg)) by (apply pow2_pos; lia).
  assert (Hpec : 0 < 2 ^ (- ec)) by (apply pow2_pos; lia).
  assert (Hnum : Zpos ma * 2 ^ 53 = c * 2 ^ k * Zpos mg).
  { rewrite Hma, Hmg.
    transitivity (c * g * (2 ^ (- ea) * 2 ^ 53)); [ring|].
    transitivity (c * g * (2 ^ k * 2 ^ (- eg))); [|ring].
    rewrite <- !Z.pow_add_r by lia. f_equal. f_equal. unfold k. lia. }
  assert (Hdiv : Z.div_eucl (Zpos ma * 2 ^ 53) (Zpos mg) = (c * 2 ^ k, 0)).
  { pose proof (Z_div_mod (Zpos ma * 2 ^ 53) (Zpos mg) ltac:(reflexivity)) as H.
    destruct (Z.div_eucl (Zpos ma * 2 ^ 53) (Zpos mg)) as [q r].
    destruct H as [H1 H2]. rewrite Hnum in H1.
    assert (q = c * 2 ^ k) by nia. subst q. f_equal. lia. }
  rewrite Hdiv.
  assert (Hloc : new_location (Zpos mg) 0 = loc_Exact).
  { unfold new_location. destruct (Z.even (Zpos mg)); reflexivity. }
  rewrite Hloc.
  pose proof (digits_bounds ma) as Hra. rewrite Hda in Hra.
  pose proof (digits_bounds mg) as Hrg. rewrite Hdg in Hrg.
  pose proof (digits_bounds mc) as Hrc. rewrite Hdc in Hrc.
  change (2 ^ (53 - 1)) with (2 ^ 52) in *.
  assert (Hq : 2 ^ 52 <= c * 2 ^ k).
  { assert (Zpos mg * 2 ^ 52 <= c * 2 ^ k * Zpos mg).
    { rewrite <- Hnum. change (2 ^ 53) with (2 ^ 52 * 2). nia. }
    nia. }
  set (n := k + ec).
  assert (Hn0 : 0 <= n).
  { destruct (Z_le_gt_dec 0 n) as [|Hneg]; [assumption|exfalso].
    assert (Hsplit : 2 ^ (- ec) = 2 ^ k * 2 ^ (- ec - k)).
    { rewrite <- Z.pow_add_r by (unfold n in *; lia). f_equal. lia. }
    assert (2 <= 2 ^ (- ec - k)).
    { change 2 with (2 ^ 1) at 1. apply Z.pow_le_mono_r; unfold n in *; lia. }
    rewrite Hmc, Hsplit in Hrc.
    assert (2 * (c * 2 ^ k) <= c * (2 ^ k * 2 ^ (- ec - k))) by nia.
    change (2 ^ 53) with (2 * 2 ^ 52) in Hrc. lia. }
  assert (Hmant : c * 2 ^ k = Zpos mc * 2 ^ n).
  { rewrite Hmc, <- Z.mul_assoc, <- Z.pow_add_r by lia.
    f_equal. f_equal. unfold n. lia. }
  rewrite Hmant, binary_round_aux_exact.
  - replace (ea - eg - 53 + n) with ec by (unfold n, k; lia).
    replace (ec <=? emax - prec) with true; [reflexivity|].
    symmetry. apply Z.leb_le. unfold emax, prec. lia.
  - exact Hn0.
  - rewrite fexp64_eq, Hdc. unfold n, k. lia.
Qed.

(** *** Rounding to nearest *)

Lemma shr_1_m (r : shr_record) : 0 <= shr_m r -> shr_m (shr_1 r) = shr_m r / 2.
Proof.
  destruct r as [[|p|p] b c]; cbn [shr_m]; intros H; try lia.
  - reflexivity.
  - destruct p as [p|p|]; cbn [shr_1 shr_m].
    + apply Z.div_unique with (r := 1); lia.
    + apply Z.div_unique with (r := 0); lia.
    + reflexivity.
Qed.

Lemma iter_shr_m (p : positive) : forall r : shr_record,
  0 <= shr_m r -> shr_m (iter_pos shr_1 p r) = shr_m r / 2 ^ Zpos p.
Proof.
  induction p as [p IH|p IH|]; intros r Hr; cbn [iter_pos].
  - assert (H1 : 0 <= shr_m (shr_1 r)) by (rewrite shr_1_m by lia; apply Z.div_pos; lia).
    pose proof (pow2_pos (Zpos p) ltac:(lia)) as Hp.
    assert (H2 : 0 <= shr_m (iter_pos shr_1 p (shr_1 r)))
      by (rewrite IH by lia; apply Z.div_pos; lia).
    rewrite IH, IH, shr_1_m by lia.
    rewrite !Z.div_div by lia. f_equal.
    replace (Zpos p~1) with (1 + Zpos p + Zpos p) by lia.
    rewrite !Z.pow_add_r by lia. change (2 ^ 1) with 2. ring.
  - pose proof (pow2_pos (Zpos p) ltac:(lia)) as Hp.
    assert (H2 : 0 <= shr_m (iter_pos shr_1 p r))
      by (rewrite IH by lia; apply Z.div_pos; lia).
    rewrite IH, IH by lia.
    rewrite !Z.div_div by lia. f_equal.
    replace (Zpos p~0) with (Zpos p + Zpos p) by lia.
    rewrite !Z.pow_add_r by lia. ring.
  - rewrite shr_1_m by lia. reflexivity.
Qed.

(** A right shift of an integer mantissa: the quotient, and nothing lost
    when the division is exact. *)
Lemma shr_quotient (z e n : Z) :
  0 <= z -> 0 <= n ->
  exists r : shr_record,
    shr {| shr_m := z; shr_r := false; shr_s := false |} e n = (r, e + n) /\
    shr_m r = z / 2 ^ n /\
    (z mod 2 ^ n = 0 -> r = {| shr_m := z / 2 ^ n; shr_r := false; shr_s := false |}).
Proof.
  intros Hz Hn. destruct n as [|p|p]; [| |lia].
  - eexists. split; [cbn; rewrite Z.add_0_r; reflexivity|].
    cbn [shr_m]. change (2 ^ 0) with 1. rewrite Z.div_1_r. auto.
  - eexists. split; [reflexivity|]. split.
    + rewrite iter_shr_m by (cbn; lia). reflexivity.
    + intros Hmod.
      pose proof (Z.div_mod z (2 ^ Zpos p) ltac:(apply Z.pow_nonzero; lia)) as Hd.
      rewrite Hmod, Z.add_0_r in Hd.
      rewrite Hd at 1. rewrite (Z.mul_comm (2 ^ Zpos p)).
      apply iter_pos_shr_exact.
Qed.

Lemma round_nearest_even_range (q : Z) (l : location) :
  q <= round_nearest_even q l <= q + 1.
Proof.
  unfold round_nearest_even. destruct l as [|[| |]]; try lia.
  destruct (Z.even q); lia.
Qed.

Lemma Zdigits2_pos (m : positive) : Zdigits2 (Zpos m) = digits m.
Proof. reflexivity. Qed.

(** Rounding a positive mantissa [M] at exponent [E]: the result is [q] or
    [q + 1] units of the spacing at the magnitude of the value, where [q]
    is the quotient that drops the digits in excess; it is [q] when none of
    the dropped digits is set. *)
Lemma binary_round_aux_grid (s : bool) (M : positive) (E : Z) :
  E <= fexp64 (digits M + E) -> digits M + E <= 1023 ->
  let e' := fexp64 (digits M + E) in
  let q := Zpos M / 2 ^ (e' - E) in
  exists q' : Z,
    q <= q' <= q + 1 /\
    (Zpos M mod 2 ^ (e' - E) = 0 -> q' = q) /\
    ((q' = 0 /\ binary_round_aux prec emax s (Zpos M) E loc_Exact = S754_zero s) \/
     (exists (m : positive) (e : Z),
        binary_round_aux prec emax s (Zpos M) E loc_Exact = S754_finite s m e /\
        bounded prec emax m e = true /\
        Zpos m * 2 ^ (e + 1074) = q' * 2 ^ (e' + 1074))).
Proof.
  intros Hshift Hmax e' q.
  set (n := e' - E). assert (Hn : 0 <= n) by (unfold n, e'; lia).
  pose proof (digits_bounds M) as [HMl HMu]. pose proof (digits_pos M) as Hdp.
  pose proof (pow2_pos n Hn) as Hpn.
  assert (He' : e' = Z.max (digits M + E - 53) (-1074)) by (unfold e'; apply fexp64_eq).
  assert (Hqdef : Zpos M = q * 2 ^ n + Zpos M mod 2 ^ n).
  { unfold q. fold n. rewrite (Z.mul_comm _ (2 ^ n)). apply Z.div_mod. lia. }
  pose proof (Z.mod_pos_bound (Zpos M) (2 ^ n) Hpn) as Hrem.
  assert (Hq0 : 0 <= q) by (unfold q; apply Z.div_pos; lia).
  (* the quotient has at most 53 digits *)
  assert (Hqu : q < 2 ^ 53).
  { destruct (Z_lt_ge_dec q (2 ^ 53)) as [|Hge]; [assumption|exfalso].
    assert (2 ^ 53 * 2 ^ n <= Zpos M) by nia.
    rewrite <- Z.pow_add_r in H by lia.
    assert (53 + n < digits M).
    { apply (Z.pow_lt_mono_r_iff 2); lia. }
    unfold n in *. lia. }
  (* and exactly 53 above the subnormal range *)
  assert (Hql : -1074 < e' -> 2 ^ 52 <= q).
  { intros Hnorm. assert (Hnd : n = digits M - 53) by (unfold n; lia).
    assert (Hsplit : 2 ^ (digits M - 1) = 2 ^ 52 * 2 ^ n).
    { rewrite <- Z.pow_add_r by lia. f_equal. lia. }
    rewrite Hsplit in HMl.
    destruct (Z_lt_ge_dec q (2 ^ 52)) as [Hlt|]; [exfalso|lia].
    assert (q + 1 <= 2 ^ 52) by lia.
    assert ((q + 1) * 2 ^ n <= 2 ^ 52 * 2 ^ n) by (apply Z.mul_le_mono_nonneg_r; lia).
    lia. }
  unfold binary_round_aux, shr_fexp.
  rewrite Zdigits2_pos. fold (fexp64 (digits M + E)). fold e'. fold n.
  cbn [shr_record_of_loc].
  destruct (shr_quotient (Zpos M) E n ltac:(lia) Hn) as (r & Hshr & Hrm & Hrex).
  rewrite Hshr. fold q in Hrm, Hrex.
  replace (E + n) with e' by (unfold n; lia).
  set (q' := round_nearest_even (shr_m r) (loc_of_shr_record r)).
  assert (Hq' : q <= q' <= q + 1)
    by (unfold q'; rewrite Hrm; apply round_nearest_even_range).
  assert (Hex : Zpos M mod 2 ^ n = 0 -> q' = q).
  { intros Hmod. unfold q'. rewrite (Hrex Hmod). reflexivity. }
  exists q'. split; [exact Hq'|]. split; [exact Hex|].
  destruct q' as [|P|P] eqn:EP; [left|right|lia].
  - split; [reflexivity|].
    cbn [shr_record_of_loc Zdigits2].
    destruct (shr_quotient 0 e' (fexp prec emax (0 + e') - e') ltac:(lia)) as
      (r0 & Hs0 & Hm0 & _).
    + fold (fexp64 (0 + e')). rewrite fexp64_eq. lia.
    + rewrite Hs0, Hm0. rewrite Z.div_0_l by (apply Z.pow_nonzero; [lia|]; 
        fold (fexp64 (0 + e')); rewrite fexp64_eq; lia).
      reflexivity.
  - rewrite Zdigits2_pos. fold (fexp64 (digits P + e')).
    cbn [shr_record_of_loc].
    pose proof (digits_bounds P) as [HPl HPu]. pose proof (digits_pos P) as HdP.
    destruct (Z.eq_dec (Zpos P) (2 ^ 53)) as [Htop|Hntop].
    + (* the mantissa has grown to 54 digits *)
      assert (HdP54 : digits P = 54).
      { apply digits_unique. rewrite Htop. change (54 - 1) with 53. split; [lia|].
        apply Z.pow_lt_mono_r; lia. }
      rewrite HdP54, fexp64_eq.
      replace (Z.max (54 + e' - 53) (-1074) - e') with 1 by lia.
      rewrite Htop. change (2 ^ 53) with (2 ^ 52 * 2 ^ 1).
      rewrite shr_exact by lia. cbn [shr_m].
      change (2 ^ 52) with (Zpos 4503599627370496).
      cbv iota beta.
      replace (e' + 1 <=? emax - prec) with true
        by (symmetry; apply Z.leb_le; unfold emax, prec; lia).
      exists 4503599627370496%positive, (e' + 1). split; [reflexivity|]. split.
      * apply bounded_intro; [rewrite fexp64_eq|]; 
          change (digits 4503599627370496) with 53; lia.
      * replace (e' + 1 + 1074) with (1 + (e' + 1074)) by lia.
        rewrite Z.pow_add_r by lia.
        change (Zpos 4503599627370496) with (2 ^ 52).
        change (2 ^ 52 * 2 ^ 1) with (2 ^ 52 * 2). change (2 ^ 1) with 2. ring.
    + assert (HP53 : Zpos P < 2 ^ 53) by lia.
      assert (HdPle : digits P <= 53).
      { destruct (Z_le_gt_dec (digits P) 53) as [|Hgt]; [assumption|exfalso].
        assert (2 ^ 53 <= 2 ^ (digits P - 1)) by (apply Z.pow_le_mono_r; lia). lia. }
      assert (Hcanon : fexp64 (digits P + e') = e').
      { rewrite fexp64_eq. destruct (Z.eq_dec e' (-1074)) as [Hsub|Hnorm]; [lia|].
        assert (2 ^ 52 <= Zpos P) by (pose proof (Hql ltac:(lia)); lia).
        assert (digits P = 53).
        { apply digits_unique. change (53 - 1) with 52. lia. }
        lia. }
      rewrite Hcanon. replace (e' - e') with 0 by lia.
      cbn [shr shr_m].
      replace (e' <=? emax - prec) with true
        by (symmetry; apply Z.leb_le; unfold emax, prec; lia).
      exists P, e'. split; [reflexivity|]. split; [|reflexivity].
      apply bounded_intro; [exact Hcanon|lia].
Qed.

Lemma fexp64_mono (a b : Z) : a <= b -> fexp64 a <= fexp64 b.
Proof. rewrite !fexp64_eq. lia. Qed.

(** A representable number at or above the exact value is at or above the
    rounded one. *)
Lemma round_upper (M : positive) (E K q' : Z) (mh : positive) (eh : Z) :
  let e' := fexp64 (digits M + E) in
  let q := Zpos M / 2 ^ (e' - E) in
  E <= e' -> 0 <= K -> 0 <= E + 1074 + K ->
  q <= q' <= q + 1 -> (Zpos M mod 2 ^ (e' - E) = 0 -> q' = q) ->
  bounded prec emax mh eh = true ->
  Zpos M * 2 ^ (E + 1074 + K) <= Zpos mh * 2 ^ (eh + 1074) * 2 ^ K ->
  q' * 2 ^ (e' + 1074) <= Zpos mh * 2 ^ (eh + 1074).
Proof.
  intros e' q Hshift HK HEK Hq' Hex Hb Hle.
  set (n := e' - E) in *. assert (Hn : 0 <= n) by (unfold n; lia).
  pose proof (bounded_inv _ _ Hb) as [Hcanon _].
  pose proof (bounded_range _ _ Hb) as (Hrange & _ & _).
  pose proof (digits_bounds M) as [HMl HMu]. pose proof (digits_pos M) as Hdp.
  pose proof (digits_bounds mh) as [Hhl Hhu]. pose proof (digits_pos mh) as Hdh.
  assert (He' : -1074 <= e') by (unfold e'; rewrite fexp64_eq; lia).
  set (w := 2 ^ (E + 1074 + K)) in *.
  assert (Hw : 0 < w) by (apply pow2_pos; lia).
  pose proof (pow2_pos n Hn) as Hpn.
  assert (Hge : e' <= eh).
  { destruct (Z_le_gt_dec e' eh) as [|Hlt]; [assumption|exfalso].
    assert (Hd : digits mh + eh < digits M + E).
    { destruct (Z_lt_ge_dec (digits mh + eh) (digits M + E)) as [|Hc]; [assumption|].
      pose proof (fexp64_mono (digits M + E) (digits mh + eh) ltac:(lia)).
      fold e' in H. lia. }
    assert (H1 : Zpos mh * 2 ^ (eh + 1074) * 2 ^ K < 2 ^ (digits mh + (eh + 1074 + K))).
    { rewrite <- Z.mul_assoc, <- Z.pow_add_r by lia.
      rewrite (Z.pow_add_r 2 (digits mh)) by lia.
      apply Z.mul_lt_mono_pos_r; [apply pow2_pos; lia|lia]. }
    assert (H2 : 2 ^ (digits mh + (eh + 1074 + K)) <= 2 ^ (digits M - 1 + (E + 1074 + K)))
      by (apply Z.pow_le_mono_r; lia).
    assert (H3 : 2 ^ (digits M - 1 + (E + 1074 + K)) <= Zpos M * w).
    { rewrite Z.pow_add_r by lia. fold w. apply Z.mul_le_mono_nonneg_r; lia. }
    lia. }
  set (T := Zpos mh * 2 ^ (eh - e')).
  assert (HT : Zpos mh * 2 ^ (eh + 1074) = T * 2 ^ (e' + 1074)).
  { unfold T. rewrite <- Z.mul_assoc, <- Z.pow_add_r by lia. f_equal. f_equal. lia. }
  assert (Hu : 2 ^ (e' + 1074) * 2 ^ K = 2 ^ n * w).
  { unfold w. rewrite <- !Z.pow_add_r by lia. f_equal. unfold n. lia. }
  rewrite HT in Hle |- *. rewrite <- Z.mul_assoc, Hu, Z.mul_assoc in Hle.
  assert (HM : Zpos M <= T * 2 ^ n).
  { apply Z.mul_le_mono_pos_r with (p := w); assumption. }
  assert (Hqdef : Zpos M = q * 2 ^ n + Zpos M mod 2 ^ n).
  { unfold q. rewrite (Z.mul_comm _ (2 ^ n)). apply Z.div_mod. lia. }
  pose proof (Z.mod_pos_bound (Zpos M) (2 ^ n) Hpn) as Hrem.
  assert (HqT : q' <= T).
  { destruct (Z.eq_dec (Zpos M mod 2 ^ n) 0) as [Hz|Hnz].
    - rewrite (Hex Hz). rewrite Hz, Z.add_0_r in Hqdef. nia.
    - assert (q < T) by nia. lia. }
  apply Z.mul_le_mono_nonneg_r; [apply Z.lt_le_incl, pow2_pos; lia|exact HqT].
Qed.

(** A representable number at or below the exact value is at or below the
    rounded one. *)
Lemma round_lower (M : positive) (E K : Z) (ml : positive) (el : Z) :
  let e' := fexp64 (digits M + E) in
  let q := Zpos M / 2 ^ (e' - E) in
  E <= e' -> 0 <= K -> 0 <= E + 1074 + K ->
  bounded prec emax ml el = true ->
  Zpos ml * 2 ^ (el + 1074) * 2 ^ K <= Zpos M * 2 ^ (E + 1074 + K) ->
  Zpos ml * 2 ^ (el + 1074) <= q * 2 ^ (e' + 1074).
Proof.
  intros e' q Hshift HK HEK Hb Hle.
  set (n := e' - E) in *. assert (Hn : 0 <= n) by (unfold n; lia).
  pose proof (bounded_range _ _ Hb) as (Hrange & Hdl & _).
  pose proof (digits_lt ml Hdl) as Hml.
  pose proof (digits_bounds M) as [HMl HMu]. pose proof (digits_pos M) as Hdp.
  assert (He' : e' = Z.max (digits M + E - 53) (-1074)) by (unfold e'; apply fexp64_eq).
  set (w := 2 ^ (E + 1074 + K)) in *.
  assert (Hw : 0 < w) by (apply pow2_pos; lia).
  pose proof (pow2_pos n Hn) as Hpn.
  assert (Hqdef : Zpos M = q * 2 ^ n + Zpos M mod 2 ^ n).
  { unfold q. rewrite (Z.mul_comm _ (2 ^ n)). apply Z.div_mod. lia. }
  pose proof (Z.mod_pos_bound (Zpos M) (2 ^ n) Hpn) as Hrem.
  destruct (Z_le_gt_dec e' el) as [Hge|Hlt].
  - set (T := Zpos ml * 2 ^ (el - e')).
    assert (HT : Zpos ml * 2 ^ (el + 1074) = T * 2 ^ (e' + 1074)).
    { unfold T. rewrite <- Z.mul_assoc, <- Z.pow_add_r by lia. f_equal. f_equal. lia. }
    assert (Hu : 2 ^ (e' + 1074) * 2 ^ K = 2 ^ n * w).
    { unfold w. rewrite <- !Z.pow_add_r by lia. f_equal. unfold n. lia. }
    rewrite HT in Hle |- *. rewrite <- Z.mul_assoc, Hu, Z.mul_assoc in Hle.
    assert (HM : T * 2 ^ n <= Zpos M).
    { apply Z.mul_le_mono_pos_r with (p := w); assumption. }
    assert (T <= q) by nia.
    apply Z.mul_le_mono_nonneg_r; [apply Z.lt_le_incl, pow2_pos; lia|assumption].
  - assert (Hnd : n = digits M - 53) by (unfold n; lia).
    assert (Hsplit : 2 ^ (digits M - 1) = 2 ^ 52 * 2 ^ n).
    { rewrite <- Z.pow_add_r by lia. f_equal. lia. }
    rewrite Hsplit in HMl.
    assert (Hq52 : 2 ^ 52 <= q).
    { destruct (Z_lt_ge_dec q (2 ^ 52)) as [Hq|]; [exfalso|lia].
      assert ((q + 1) * 2 ^ n <= 2 ^ 52 * 2 ^ n)
        by (apply Z.mul_le_mono_nonneg_r; lia).
      lia. }
    assert (H1 : 2 ^ (el + 1074) * 2 <= 2 ^ (e' + 1074)).
    { replace (2 ^ (el + 1074) * 2) with (2 ^ (el + 1074 + 1))
        by (rewrite Z.pow_add_r by lia; reflexivity).
      apply Z.pow_le_mono_r; lia. }
    pose proof (pow2_pos (el + 1074) ltac:(lia)) as Hpl.
    change (2 ^ 53) with (2 ^ 52 * 2) in Hml.
    assert (Zpos ml * 2 ^ (el + 1074) <= 2 ^ 52 * 2 * 2 ^ (el + 1074)) by nia.
    assert (2 ^ 52 * 2 ^ (e' + 1074) <= q * 2 ^ (e' + 1074))
      by (apply Z.mul_le_mono_nonneg_r; [apply Z.lt_le_incl, pow2_pos; lia|lia]).
    nia.
Qed.

(** Rounding a positive mantissa with sign [s]: the result is well formed
    and finite, and its magnitude lies between any two representable
    numbers that enclose the exact magnitude.  The exact magnitude is
    [M * 2^E], compared in units of [2^(-1074-K)]. *)
Lemma binary_round_aux_between (s : bool) (M : positive) (E K : Z) :
  E <= fexp64 (digits M + E) -> digits M + E <= 1023 ->
  0 <= K -> 0 <= E + 1074 + K ->
  let r := binary_round_aux prec emax s (Zpos M) E loc_Exact in
  valid r /\ is_finite r = true /\
  (r = S754_zero s \/ exists m e, r = S754_finite s m e) /\
  (forall hi, valid hi -> is_finite hi = true ->
     Zpos M * 2 ^ (E + 1074 + K) <= sc hi * 2 ^ K -> Z.abs (sc r) <= sc hi) /\
  (forall lo, valid lo -> is_finite lo = true ->
     sc lo * 2 ^ K <= Zpos M * 2 ^ (E + 1074 + K) -> sc lo <= Z.abs (sc r)).
Proof.
  intros Hshift Hov HK HEK r.
  destruct (binary_round_aux_grid s M E Hshift Hov) as (q' & Hq' & Hex & Hres).
  fold r in Hres.
  set (e' := fexp64 (digits M + E)) in *.
  set (q := Zpos M / 2 ^ (e' - E)) in *.
  assert (He' : -1074 <= e') by (unfold e'; rewrite fexp64_eq; lia).
  assert (Hq0 : 0 <= q) by (apply Z.div_pos; [lia|apply pow2_pos; lia]).
  pose proof (pow2_pos (e' + 1074) ltac:(lia)) as Hu.
  pose proof (pow2_pos K HK) as HpK.
  assert (HMpos : 0 < Zpos M * 2 ^ (E + 1074 + K))
    by (apply Z.mul_pos_pos; [lia|apply pow2_pos; lia]).
  assert (Hsc : Z.abs (sc r) = q' * 2 ^ (e' + 1074) /\ valid r /\ is_finite r = true /\
                (r = S754_zero s \/ exists m e, r = S754_finite s m e)).
  { destruct Hres as [[Hz Hres] | (m & e & Hres & Hb & Hval)]; rewrite Hres.
    - rewrite Hz. repeat split. left. reflexivity.
    - repeat split; [|exact Hb|right; eauto].
      cbn [sc]. rewrite Z.abs_mul, signed_abs, Z.abs_eq, Hval; [reflexivity|].
      apply Z.lt_le_incl, pow2_pos. pose proof (bounded_range _ _ Hb). lia. }
  destruct Hsc as (Hsc & Hv & Hf & Hsign).
  split; [exact Hv|]. split; [exact Hf|]. split; [exact Hsign|]. split.
  - intros hi Hvh Hfh Hle.
    destruct hi as [sh|sh| |sh mh eh]; try discriminate.
    + cbn [sc] in Hle. lia.
    + destruct sh; cbn [sc signed cond_Zopp] in Hle |- *.
      * pose proof (pow2_pos (eh + 1074)
          ltac:(pose proof (bounded_range _ _ Hvh); lia)). nia.
      * rewrite Hsc. apply (round_upper M E K q' mh eh); try assumption; lia.
  - intros lo Hvl Hfl Hle.
    assert (Hr0 : 0 <= Z.abs (sc r)) by apply Z.abs_nonneg.
    destruct lo as [sl|sl| |sl ml el]; try discriminate.
    + exact Hr0.
    + destruct sl; cbn [sc signed cond_Zopp] in Hle |- *.
      * pose proof (pow2_pos (el + 1074)
          ltac:(pose proof (bounded_range _ _ Hvl); lia)). nia.
      * rewrite Hsc.
        pose proof (round_lower M E K ml el Hshift HK HEK Hvl Hle) as Hlow.
        fold e' in Hlow. fold q in Hlow.
        assert (q * 2 ^ (e' + 1074) <= q' * 2 ^ (e' + 1074))
          by (apply Z.mul_le_mono_nonneg_r; lia).
        lia.
Qed.

Lemma digits_mul (mx my : positive) :
  digits my = 53 ->
  digits mx + 52 <= digits (mx * my) <= digits mx + 53.
Proof.
  intros Hdy.
  pose proof (digits_bounds mx) as [Hxl Hxu]. pose proof (digits_pos mx) as Hdxp.
  pose proof (digits_bounds my) as [Hyl Hyu]. rewrite Hdy in Hyl, Hyu.
  pose proof (digits_bounds (mx * my)) as [HMl HMu].
  pose proof (digits_pos (mx * my)).
  assert (HM : Zpos (mx * my) = Zpos mx * Zpos my) by reflexivity.
  change (2 ^ (53 - 1)) with (2 ^ 52) in Hyl.
  assert (H1 : 2 ^ (digits mx - 1 + 52) <= Zpos (mx * my)).
  { rewrite Z.pow_add_r, HM by lia. nia. }
  assert (H2 : Zpos (mx * my) < 2 ^ (digits mx + 53)).
  { rewrite Z.pow_add_r, HM by lia. nia. }
  split.
  - assert (digits mx - 1 + 52 < digits (mx * my))
      by (apply (Z.pow_lt_mono_r_iff 2); lia).
    lia.
  - assert (digits (mx * my) - 1 < digits mx + 53)
      by (apply (Z.pow_lt_mono_r_iff 2); lia).
    lia.
Qed.

Lemma opposite_facts (x : number) :
  valid x -> is_finite x = true ->
  valid (opposite x) /\ is_finite (opposite x) = true /\ sc (opposite x) = - sc x.
Proof.
  intros Hv Hf. destruct x as [s|s| |s m e]; try discriminate.
  - repeat split.
  - repeat split; [exact Hv|]. cbn [opposite SFopp sc].
    destruct s; cbn [negb signed cond_Zopp]; lia.
Qed.

Lemma magnitude_le (x y : number) :
  valid x -> valid y -> is_finite x = true -> is_finite y = true ->
  Z.abs (sc x) <= Z.abs (sc y) -> magnitude x <= magnitude y.
Proof.
  intros Hx Hy Fx Fy Hle.
  destruct x as [sx|sx| |sx mx ex]; try discriminate;
    destruct y as [sy|sy| |sy my ey]; try discriminate; cbn [magnitude].
  - pose proof (bounded_range _ _ Hy). pose proof (digits_pos my). lia.
  - exfalso. cbn [sc] in Hle. rewrite Z.abs_mul, signed_abs in Hle.
    pose proof (bounded_range _ _ Hx).
    pose proof (pow2_pos (ex + 1074) ltac:(lia)).
    rewrite (Z.abs_eq (2 ^ _)) in Hle by lia.
    change (Z.abs 0) with 0 in Hle. nia.
  - cbn [sc] in Hle. rewrite !Z.abs_mul, !signed_abs in Hle.
    pose proof (bounded_range _ _ Hx) as (Hrx & _).
    pose proof (bounded_range _ _ Hy) as (Hry & _).
    pose proof (pow2_pos (ex + 1074) ltac:(lia)) as Hpx.
    pose proof (pow2_pos (ey + 1074) ltac:(lia)) as Hpy.
    rewrite !Z.abs_eq in Hle by lia.
    pose proof (digits_bounds mx) as [Hxl _]. pose proof (digits_pos mx).
    pose proof (digits_bounds my) as [_ Hyu]. pose proof (digits_pos my).
    assert (H1 : 2 ^ (digits mx - 1 + (ex + 1074)) <= Zpos mx * 2 ^ (ex + 1074)).
    { rewrite Z.pow_add_r by lia. apply Z.mul_le_mono_nonneg_r; lia. }
    assert (H2 : Zpos my * 2 ^ (ey + 1074) < 2 ^ (digits my + (ey + 1074))).
    { rewrite (Z.pow_add_r 2 (digits my)) by lia. apply Z.mul_lt_mono_pos_r; lia. }
    assert (digits mx - 1 + (ex + 1074) < digits my + (ey + 1074))
      by (apply (Z.pow_lt_mono_r_iff 2); lia).
    lia.
Qed.

Lemma magnitude_digits (P : positive) (E k : Z) :
  -1074 <= E ->
  Zpos P * 2 ^ (E + 1074) <= 2 * 2 ^ (k + 1074) -> -1074 <= k ->
  digits P + E <= k + 2.
Proof.
  intros HE Hle Hk.
  pose proof (digits_bounds P) as [Hl _]. pose proof (digits_pos P).
  assert (H1 : 2 ^ (digits P - 1 + (E + 1074)) <= Zpos P * 2 ^ (E + 1074)).
  { rewrite Z.pow_add_r by lia. apply Z.mul_le_mono_nonneg_r; [|lia].
    apply Z.lt_le_incl, pow2_pos. lia. }
  assert (H2 : 2 * 2 ^ (k + 1074) = 2 ^ (k + 1074 + 1))
    by (rewrite (Z.pow_add_r 2 (k + 1074) 1) by lia; change (2 ^ 1) with 2; ring).
  assert (digits P - 1 + (E + 1074) < k + 1074 + 1 + 1).
  { apply (Z.pow_lt_mono_r_iff 2); [lia|lia|].
    rewrite (Z.pow_add_r 2 (k + 1074 + 1) 1) by lia. change (2 ^ 1) with 2.
    pose proof (pow2_pos (k + 1074 + 1) ltac:(lia)). lia. }
  lia.
Qed.

(** From bounds on a magnitude to bounds on the signed value; [c] is the
    unit the exact value is measured in. *)
Lemma signed_between (s : bool) (r : number) (V c : Z) :
  0 < V -> 0 < c ->
  (r = S754_zero s \/ exists m e, r = S754_finite s m e) ->
  valid r ->
  (forall hi, valid hi -> is_finite hi = true ->
     V <= sc hi * c -> Z.abs (sc r) <= sc hi) ->
  (forall lo, valid lo -> is_finite lo = true ->
     sc lo * c <= V -> sc lo <= Z.abs (sc r)) ->
  (forall hi, valid hi -> is_finite hi = true ->
     cond_Zopp s V <= sc hi * c -> sc r <= sc hi) /\
  (forall lo, valid lo -> is_finite lo = true ->
     sc lo * c <= cond_Zopp s V -> sc lo <= sc r).
Proof.
  intros HV Hc Hsign Hv Hup Hlo.
  assert (Hsc : sc r = cond_Zopp s (Z.abs (sc r))).
  { destruct Hsign as [-> | (m & e & ->)]; [destruct s; reflexivity|].
    cbn [sc]. rewrite Z.abs_mul, signed_abs.
    pose proof (pow2_pos (e + 1074) ltac:(pose proof (bounded_range _ _ Hv); lia)).
    rewrite (Z.abs_eq (2 ^ _)) by lia.
    destruct s; cbn [signed cond_Zopp]; lia. }
  pose proof (Z.abs_nonneg (sc r)) as Habs.
  destruct s; cbn [cond_Zopp] in *; split.
  - intros hi Hvh Hfh Hle.
    destruct (opposite_facts hi Hvh Hfh) as (Hvo & Hfo & Hso).
    pose proof (Hlo (opposite hi) Hvo Hfo ltac:(nia)). lia.
  - intros lo Hvl Hfl Hle.
    destruct (opposite_facts lo Hvl Hfl) as (Hvo & Hfo & Hso).
    pose proof (Hup (opposite lo) Hvo Hfo ltac:(nia)). lia.
  - intros hi Hvh Hfh Hle. pose proof (Hup hi Hvh Hfh Hle). lia.
  - intros lo Hvl Hfl Hle. pose proof (Hlo lo Hvl Hfl Hle). lia.
Qed.

Lemma binary_round_between (s : bool) (P : positive) (E : Z) :
  -1074 <= E -> digits P + E <= 1023 ->
  let r := binary_round prec emax s P E in
  valid r /\ is_finite r = true /\
  (r = S754_zero s \/ exists m e, r = S754_finite s m e) /\
  (forall hi, valid hi -> is_finite hi = true ->
     Zpos P * 2 ^ (E + 1074) <= sc hi -> Z.abs (sc r) <= sc hi) /\
  (forall lo, valid lo -> is_finite lo = true ->
     sc lo <= Zpos P * 2 ^ (E + 1074) -> sc lo <= Z.abs (sc r)).
Proof.
  intros HE Hov r. unfold r, binary_round.
  change (Zpos (digits2_pos P)) with (digits P).
  fold (fexp64 (digits P + E)).
  pose proof (digits_pos P) as Hdp.
  assert (Hal : exists (M : positive) (E' : Z),
             shl_align P E (fexp64 (digits P + E)) = (M, E') /\
             -1074 <= E' /\ E' <= fexp64 (digits M + E') /\
             digits M + E' = digits P + E /\
             Zpos M * 2 ^ (E' + 1074) = Zpos P * 2 ^ (E + 1074)).
  { unfold shl_align.
    destruct (fexp64 (digits P + E) - E) as [|p|p] eqn:Hp.
    - exists P, E. repeat split; lia.
    - exists P, E. repeat split; lia.
    - set (e2 := fexp64 (digits P + E)) in *.
      assert (He2 : -1074 <= e2) by (unfold e2; rewrite fexp64_eq; lia).
      exists (shift_pos p P), e2.
      assert (Hm : Zpos (shift_pos p P) = Zpos P * 2 ^ (E - e2)).
      { rewrite shift_pos_correct. change (Z.pow_pos 2 p) with (2 ^ Zpos p).
        replace (E - e2) with (Zpos p) by lia. ring. }
      assert (Hd : digits (shift_pos p P) = digits P + (E - e2)).
      { rewrite <- digits_shift by lia. f_equal. apply Pos2Z.inj.
        rewrite Hm, Z2Pos.id; [reflexivity|].
        apply Z.mul_pos_pos; [lia|apply pow2_pos; lia]. }
      split; [reflexivity|]. split; [exact He2|].
      rewrite Hd. replace (digits P + (E - e2) + e2) with (digits P + E) by lia.
      fold e2. split; [lia|]. split; [reflexivity|].
      rewrite Hm, <- Z.mul_assoc, <- Z.pow_add_r by lia. f_equal. f_equal. lia. }
  destruct Hal as (M & E' & Hsh & HE' & Hshift & Hd & Hval).
  rewrite Hsh.
  destruct (binary_round_aux_between s M E' 0 Hshift ltac:(lia) ltac:(lia) ltac:(lia))
    as (Hv & Hf & Hsign & Hup & Hlo).
  split; [exact Hv|]. split; [exact Hf|]. split; [exact Hsign|].
  rewrite Z.add_0_r, Hval in Hup, Hlo. change (2 ^ 0) with 1 in Hup, Hlo.
  split.
  - intros hi Hvh Hfh Hle. apply Hup; try assumption. lia.
  - intros lo Hvl Hfl Hle. apply Hlo; try assumption. lia.
Qed.

(** Normalising an integer mantissa rounds monotonically: the result lies
    between any two representable numbers that enclose the exact value. *)
Lemma binary_normalize_between (z E : Z) (sz : bool) :
  -1074 <= E -> Z.abs z * 2 ^ (E + 1074) <= 2 * 2 ^ 2095 ->
  let r := binary_normalize prec emax z E sz in
  valid r /\ is_finite r = true /\
  (forall hi, valid hi -> is_finite hi = true ->
     z * 2 ^ (E + 1074) <= sc hi -> sc r <= sc hi) /\
  (forall lo, valid lo -> is_finite lo = true ->
     sc lo <= z * 2 ^ (E + 1074) -> sc lo <= sc r).
Proof.
  intros HE Hmag r.
  pose proof (pow2_pos (E + 1074) ltac:(lia)) as HpE.
  assert (Hgen : forall (s : bool) (P : positive),
             Zpos P * 2 ^ (E + 1074) <= 2 * 2 ^ 2095 ->
             let r := binary_round prec emax s P E in
             valid r /\ is_finite r = true /\
             (forall hi, valid hi -> is_finite hi = true ->
                cond_Zopp s (Zpos P * 2 ^ (E + 1074)) <= sc hi -> sc r <= sc hi) /\
             (forall lo, valid lo -> is_finite lo = true ->
                sc lo <= cond_Zopp s (Zpos P * 2 ^ (E + 1074)) -> sc lo <= sc r)).
  { intros s P HP r'.
    assert (Hov : digits P + E <= 1023).
    { pose proof (magnitude_digits P E 1021 HE) as H.
      change (1021 + 1074) with 2095 in H. lia. }
    destruct (binary_round_between s P E HE Hov) as (Hv & Hf & Hsign & Hup & Hlo).
    split; [exact Hv|]. split; [exact Hf|].
    assert (Hup1 : forall hi, valid hi -> is_finite hi = true ->
              Zpos P * 2 ^ (E + 1074) <= sc hi * 1 -> Z.abs (sc r') <= sc hi).
    { intros hi Hvh Hfh Hle. apply Hup; try assumption. lia. }
    assert (Hlo1 : forall lo, valid lo -> is_finite lo = true ->
              sc lo * 1 <= Zpos P * 2 ^ (E + 1074) -> sc lo <= Z.abs (sc r')).
    { intros lo Hvl Hfl Hle. apply Hlo; try assumption. lia. }
    destruct (signed_between s r' (Zpos P * 2 ^ (E + 1074)) 1 ltac:(nia) ltac:(lia)
                Hsign Hv Hup1 Hlo1) as [H1 H2].
    split.
    - intros hi Hvh Hfh Hle. apply H1; try assumption. lia.
    - intros lo Hvl Hfl Hle. apply H2; try assumption. lia. }
  destruct z as [|P|P]; unfold r; cbn [binary_normalize].
  - repeat split; cbn [sc]; lia.
  - apply (Hgen false P). exact Hmag.
  - replace (Zneg P * 2 ^ (E + 1074)) with (cond_Zopp true (Zpos P * 2 ^ (E + 1074)))
      by (cbn [cond_Zopp]; lia).
    apply (Hgen true P). exact Hmag.
Qed.

Lemma sc_magnitude (x : number) :
  valid x -> is_finite x = true -> Z.abs (sc x) < 2 ^ (magnitude x + 1074).
Proof.
  intros Hv Hf. destruct x as [s|s| |s m e]; try discriminate.
  - reflexivity.
  - cbn [sc magnitude]. rewrite Z.abs_mul, signed_abs.
    pose proof (bounded_range _ _ Hv) as (Hr & _).
    pose proof (pow2_pos (e + 1074) ltac:(lia)).
    rewrite (Z.abs_eq (2 ^ _)) by lia.
    pose proof (digits_bounds m) as [_ Hu]. pose proof (digits_pos m).
    replace (digits m + e + 1074) with (digits m + (e + 1074)) by lia.
    rewrite (Z.pow_add_r 2 (digits m)) by lia.
    apply Z.mul_lt_mono_pos_r; lia.
Qed.

Lemma sc_small (x : number) :
  valid x -> is_finite x = true -> magnitude x <= 1021 -> Z.abs (sc x) < 2 ^ 2095.
Proof.
  intros Hv Hf Hm. pose proof (sc_magnitude x Hv Hf) as H.
  assert (-1074 <= magnitude x).
  { destruct x as [s|s| |s m e]; try discriminate. cbn [magnitude].
    pose proof (bounded_range _ _ Hv). pose proof (digits_pos m). lia. }
  assert (2 ^ (magnitude x + 1074) <= 2 ^ 2095) by (apply Z.pow_le_mono_r; lia).
  lia.
Qed.

Lemma add_finite_sc (sx : bool) (mx : positive) (ex : Z)
      (sy : bool) (my : positive) (ey : Z) :
  bounded prec emax mx ex = true -> bounded prec emax my ey = true ->
  exists z : Z,
    add (S754_finite sx mx ex) (S754_finite sy my ey)
    = binary_normalize prec emax z (Z.min ex ey) false /\
    z * 2 ^ (Z.min ex ey + 1074)
    = sc (S754_finite sx mx ex) + sc (S754_finite sy my ey).
Proof.
  intros Hx Hy.
  pose proof (bounded_range _ _ Hx) as (Hrx & _).
  pose proof (bounded_range _ _ Hy) as (Hry & _).
  eexists. split; [reflexivity|].
  pose proof (shl_align_sc mx ex (Z.min ex ey) ltac:(lia)) as H1.
  pose proof (shl_align_sc my ey (Z.min ex ey) ltac:(lia)) as H2.
  unfold sc, signed. rewrite Z.mul_add_distr_r.
  destruct sx, sy; cbn [cond_Zopp]; rewrite ?Z.mul_opp_l, H1, H2; reflexivity.
Qed.

(** Addition rounds monotonically: the sum lies between any two
    representable numbers that enclose the exact sum. *)
Lemma add_between (x y : number) :
  valid x -> valid y -> is_finite x = true -> is_finite y = true ->
  magnitude x <= 1021 -> magnitude y <= 1021 ->
  let r := add x y in
  valid r /\ is_finite r = true /\
  (forall hi, valid hi -> is_finite hi = true ->
     sc x + sc y <= sc hi -> sc r <= sc hi) /\
  (forall lo, valid lo -> is_finite lo = true ->
     sc lo <= sc x + sc y -> sc lo <= sc r).
Proof.
  intros Hx Hy Fx Fy Mx My r.
  pose proof (sc_small x Hx Fx Mx) as Sx. pose proof (sc_small y Hy Fy My) as Sy.
  destruct x as [sx|sx| |sx mx ex]; try discriminate;
    destruct y as [sy|sy| |sy my ey]; try discriminate.
  - unfold r, add, SFadd.
    destruct sx, sy; (split; [reflexivity|]); (split; [reflexivity|]);
      split; intros h _ _ Hle; cbn [sc] in *; lia.
  - unfold r. cbn [add SFadd]. split; [exact Hy|]. split; [reflexivity|].
    split; intros h _ _ Hle; cbn [sc] in *; lia.
  - unfold r. cbn [add SFadd]. split; [exact Hx|]. split; [reflexivity|].
    split; intros h _ _ Hle; cbn [sc] in *; lia.
  - destruct (add_finite_sc sx mx ex sy my ey Hx Hy) as (z & Hadd & Hz).
    unfold r. rewrite Hadd.
    pose proof (bounded_range _ _ Hx) as (Hrx & _).
    pose proof (bounded_range _ _ Hy) as (Hry & _).
    pose proof (pow2_pos (Z.min ex ey + 1074) ltac:(lia)) as Hp.
    assert (Hmag : Z.abs z * 2 ^ (Z.min ex ey + 1074) <= 2 * 2 ^ 2095).
    { rewrite <- (Z.abs_eq (2 ^ (Z.min ex ey + 1074))) by lia.
      rewrite <- Z.abs_mul, Hz. lia. }
    destruct (binary_normalize_between z (Z.min ex ey) false ltac:(lia) Hmag)
      as (Hv & Hf & Hup & Hlo).
    rewrite Hz in Hup, Hlo. repeat split; assumption.
Qed.

(** Subtraction rounds monotonically. *)
Lemma sub_between (x y : number) :
  valid x -> valid y -> is_finite x = true -> is_finite y = true ->
  magnitude x <= 1021 -> magnitude y <= 1021 ->
  let r := sub x y in
  valid r /\ is_finite r = true /\
  (forall hi, valid hi -> is_finite hi = true ->
     sc x - sc y <= sc hi -> sc r <= sc hi) /\
  (forall lo, valid lo -> is_finite lo = true ->
     sc lo <= sc x - sc y -> sc lo <= sc r).
Proof.
  intros Hx Hy Fx Fy Mx My r.
  pose proof (sc_small x Hx Fx Mx) as Sx. pose proof (sc_small y Hy Fy My) as Sy.
  destruct x as [sx|sx| |sx mx ex]; try discriminate;
    destruct y as [sy|sy| |sy my ey]; try discriminate.
  - unfold r, sub, SFsub.
    destruct sx, sy; (split; [reflexivity|]); (split; [reflexivity|]);
      split; intros h _ _ Hle; cbn [sc] in *; lia.
  - unfold r.
    change (sub (S754_zero sx) (S754_finite sy my ey))
      with (opposite (S754_finite sy my ey)).
    destruct (opposite_facts (S754_finite sy my ey) Hy Fy) as (Hvo & Hfo & Hso).
    split; [exact Hvo|]. split; [exact Hfo|].
    split; intros h _ _ Hle; rewrite Hso; cbn [sc] in *; lia.
  - unfold r. cbn [sub SFsub]. split; [exact Hx|]. split; [reflexivity|].
    split; intros h _ _ Hle; cbn [sc] in *; lia.
  - destruct (sub_finite_sc sx mx ex sy my ey Hx Hy) as (z & Hsub & Hz).
    unfold r. rewrite Hsub.
    pose proof (bounded_range _ _ Hx) as (Hrx & _).
    pose proof (bounded_range _ _ Hy) as (Hry & _).
    pose proof (pow2_pos (Z.min ex ey + 1074) ltac:(lia)) as Hp.
    assert (Hmag : Z.abs z * 2 ^ (Z.min ex ey + 1074) <= 2 * 2 ^ 2095).
    { rewrite <- (Z.abs_eq (2 ^ (Z.min ex ey + 1074))) by lia.
      rewrite <- Z.abs_mul, Hz. lia. }
    destruct (binary_normalize_between z (Z.min ex ey) false ltac:(lia) Hmag)
      as (Hv & Hf & Hup & Hlo).
    rewrite Hz in Hup, Hlo. repeat split; assumption.
Qed.

(** Multiplication by a normal number rounds monotonically, as long as the
    product stays below the overflow threshold. *)
Lemma mul_between (x : number) (sy : bool) (my : positive) (ey : Z) :
  valid x -> is_finite x = true ->
  bounded prec emax my ey = true -> digits my = 53 ->
  magnitude x + ey <= 969 ->
  let y := S754_finite sy my ey in
  let r := mul x y in
  valid r /\ is_finite r = true /\
  (forall hi, valid hi -> is_finite hi = true ->
     sc x * sc y <= sc hi * 2 ^ 1074 -> sc r <= sc hi) /\
  (forall lo, valid lo -> is_finite lo = true ->
     sc lo * 2 ^ 1074 <= sc x * sc y -> sc lo <= sc r).
Proof.
  intros Hx Fx Hby Hdy Hmax y r.
  pose proof (pow2_pos 1074 ltac:(lia)) as Hp.
  destruct x as [sx|sx| |sx mx ex]; try discriminate.
  - unfold r, y. cbn [mul SFmul]. split; [reflexivity|]. split; [reflexivity|].
    set (c := 2 ^ 1074) in *.
    split; intros h _ _ Hle; cbn [sc] in *; rewrite Z.mul_0_l in Hle; nia.
  - cbn [magnitude] in Hmax.
    pose proof (bounded_range _ _ Hx) as (Hrx & Hdx & _).
    pose proof (bounded_range _ _ Hby) as (Hry & _ & _).
    pose proof (digits_mul mx my Hdy) as HdM. pose proof (digits_pos mx) as Hdxp.
    set (M := (mx * my)%positive) in *. set (E := ex + ey).
    assert (Hshift : E <= fexp64 (digits M + E)) by (rewrite fexp64_eq; lia).
    assert (Hov : digits M + E <= 1023) by (unfold E; lia).
    destruct (binary_round_aux_between (xorb sx sy) M E 1074 Hshift Hov ltac:(lia)
                ltac:(unfold E; lia)) as (Hv & Hf & Hsign & Hup & Hlo).
    change (binary_round_aux prec emax (xorb sx sy) (Zpos M) E loc_Exact) with r in *.
    assert (Hprod : sc (S754_finite sx mx ex) * sc y
                    = cond_Zopp (xorb sx sy) (Zpos M * 2 ^ (E + 1074 + 1074))).
    { unfold y, sc, signed. unfold M. rewrite Pos2Z.inj_mul.
      replace (E + 1074 + 1074) with ((ex + 1074) + (ey + 1074)) by (unfold E; lia).
      rewrite (Z.pow_add_r 2 (ex + 1074) (ey + 1074)) by lia.
      destruct sx, sy; cbn [xorb cond_Zopp]; ring. }
    assert (HV : 0 < Zpos M * 2 ^ (E + 1074 + 1074))
      by (apply Z.mul_pos_pos; [lia|apply pow2_pos; unfold E; lia]).
    destruct (signed_between (xorb sx sy) r _ (2 ^ 1074) HV Hp Hsign Hv Hup Hlo)
      as [H1 H2].
    rewrite Hprod. repeat split; assumption.
Qed.

(** *** Percentages *)

Lemma roundZ_bound (sm e : Z) : e < 0 -> Z.abs (roundZ sm e) <= Z.abs sm.
Proof.
  intros He. unfold roundZ. destruct (Z.leb_spec 0 e); [lia|].
  set (k := - e). assert (Hk : 1 <= k) by (unfold k; lia).
  pose proof (pow2_pos k ltac:(lia)) as Hp.
  assert (Hk1 : 2 ^ (k + 1) = 2 * 2 ^ k)
    by (rewrite Z.pow_add_r by lia; change (2 ^ 1) with 2; ring).
  assert (H2 : 2 <= 2 ^ k).
  { change 2 with (2 ^ 1) at 1. apply Z.pow_le_mono_r; lia. }
  rewrite Hk1.
  set (q := (2 * sm + 2 ^ k) / (2 * 2 ^ k)).
  assert (Hq : 2 * 2 ^ k * q <= 2 * sm + 2 ^ k < 2 * 2 ^ k * (q + 1)).
  { unfold q. pose proof (Z.div_mod (2 * sm + 2 ^ k) (2 * 2 ^ k) ltac:(lia)) as Hd.
    pose proof (Z.mod_pos_bound (2 * sm + 2 ^ k) (2 * 2 ^ k) ltac:(lia)). lia. }
  destruct (Z_le_gt_dec 0 sm) as [Hpos|Hneg].
  - assert (0 <= q) by nia. assert (q <= sm) by nia. lia.
  - assert (q <= 0) by nia. assert (sm <= q) by nia. lia.
Qed.

Lemma toString_small (n : Z) :
  1 <= n <= 100 -> Number_toString (of_int n) = digits_of n.
Proof.
  intros Hn.
  assert (Hall : forallb (fun k => String.eqb (Number_toString (of_int (Z.of_nat k)))
                                     (digits_of (Z.of_nat k))) (seq 1 100) = true)
    by (vm_compute; reflexivity).
  rewrite forallb_forall in Hall.
  specialize (Hall (Z.to_nat n)). rewrite Z2Nat.id in Hall by lia.
  apply String.eqb_eq. apply Hall. apply in_seq. lia.
Qed.

Lemma hundred_eq : of_int 100 = S754_finite false 7036874417766400 (-46).
Proof. vm_compute. reflexivity. Qed.

Lemma sc_of_val_range (c : number) :
  valid c -> (0 <= val c)%Q -> (val c <= 1)%Q -> 0 <= sc c <= 2 ^ 1074.
Proof.
  intros Hv H0 H1. pose proof (val_sc c Hv) as Hval.
  rewrite Hval in H0, H1. unfold Qle in H0, H1. cbn [Qnum Qden] in H0, H1.
  assert (HP : Zpos P1074 = 2 ^ 1074).
  { unfold P1074. rewrite Z2Pos.id; [reflexivity|apply pow2_pos; lia]. }
  rewrite HP in H1. lia.
Qed.

Lemma roundZ_floor (m : positive) (e : Z) :
  e < 0 -> roundZ (Zpos m) e = Qfloor (val (S754_finite false m e) + (1 # 2)).
Proof.
  intros He. unfold roundZ, val, signed, cond_Zopp.
  destruct (Z.leb_spec 0 e); [lia|].
  pose proof (pow2_pos (- e) ltac:(lia)) as Hk.
  unfold Qplus, Qfloor. cbn [Qnum Qden].
  rewrite Pos2Z.inj_mul, Z2Pos.id by lia.
  rewrite Z.pow_add_r by lia. change (2 ^ 1) with 2.
  f_equal. ring.
Qed.

(** What [formatConfidence] prints for a confidence between 0 and 1. *)
Lemma formatConfidence_unit (c : number) :
  valid c -> is_finite c = true -> 0 <= sc c <= 2 ^ 1074 ->
  exists n : Z,
    0 <= n <= 100 /\
    n = Qfloor (val (mul c (of_int 100)) + (1 # 2)) /\
    formatConfidence c = (digits_of n ++ "%")%string.
Proof.
  intros Hv Hf Hsc. unfold formatConfidence. rewrite hundred_eq.
  assert (Hby : bounded prec emax 7036874417766400 (-46) = true) by reflexivity.
  assert (Hmag : magnitude c + -46 <= 969).
  { destruct c as [s|s| |s m e]; try discriminate. cbn [magnitude].
    cbn [sc] in Hsc. pose proof (bounded_range _ _ Hv) as (Hr & _).
    pose proof (pow2_pos (e + 1074) ltac:(lia)) as Hp.
    assert (Hs : signed s m = Zpos m) by (destruct s; cbn [signed cond_Zopp] in *; nia).
    rewrite Hs in Hsc.
    pose proof (magnitude_digits m e 0 ltac:(lia)) as H.
    change (0 + 1074) with 1074 in H.
    pose proof (pow2_pos 1074 ltac:(lia)). lia. }
  destruct (mul_between c false 7036874417766400 (-46) Hv Hf Hby eq_refl Hmag)
    as (Hvr & Hfr & Hup & Hlo).
  set (r := mul c (S754_finite false 7036874417766400 (-46))) in *.
  set (u := 2 ^ 1074) in *.
  assert (Hu : 0 < u) by (apply pow2_pos; lia).
  assert (Hhund : sc (S754_finite false 7036874417766400 (-46)) = 100 * u)
    by (vm_compute; reflexivity).
  assert (Hr100 : sc r <= 100 * u).
  { rewrite <- Hhund. apply Hup; [exact Hby|reflexivity|]. rewrite Hhund. nia. }
  assert (Hr0 : 0 <= sc r).
  { change 0 with (sc (S754_zero false)). apply Hlo; [reflexivity|reflexivity|].
    rewrite Hhund. cbn [sc]. nia. }
  destruct r as [s|s| |s m e] eqn:Er;
    [|discriminate Hfr|discriminate Hfr|].
  - exists 0. split; [lia|]. split; reflexivity.
  - cbn [sc] in Hr0, Hr100. pose proof (bounded_range _ _ Hvr) as (Hrg & Hd & Hnorm).
    pose proof (pow2_pos (e + 1074) ltac:(lia)) as Hp.
    assert (Hs : s = false) by (destruct s; [cbn [signed cond_Zopp] in Hr0; nia|reflexivity]).
    subst s. cbn [signed cond_Zopp] in Hr100.
    unfold Math_round, to_integral.
    destruct (Z.leb_spec 0 e) as [He|He].
    + exfalso. pose proof (digits_bounds m) as [Hl _].
      rewrite (Hnorm ltac:(lia)) in Hl. change (2 ^ (53 - 1)) with (2 ^ 52) in Hl.
      assert (u <= 2 ^ (e + 1074)) by (unfold u; apply Z.pow_le_mono_r; lia).
      assert (2 ^ 52 * u <= Zpos m * 2 ^ (e + 1074)) by nia.
      change (2 ^ 52) with 4503599627370496 in *. nia.
    + set (n := roundZ (signed false m) e).
      assert (Hn : 0 <= n <= 100).
      { unfold n, roundZ, signed, cond_Zopp. destruct (Z.leb_spec 0 e); [lia|].
        pose proof (pow2_pos (- e) ltac:(lia)) as Hk.
        assert (Hk1 : 2 ^ (- e + 1) = 2 * 2 ^ (- e))
          by (rewrite Z.pow_add_r by lia; change (2 ^ 1) with 2; ring).
        rewrite Hk1.
        assert (Hm : Zpos m <= 100 * 2 ^ (- e)).
        { assert (Hsplit : u = 2 ^ (e + 1074) * 2 ^ (- e)).
          { unfold u. rewrite <- Z.pow_add_r by lia. f_equal. lia. }
          rewrite Hsplit in Hr100. nia. }
        split.
        - apply Z.div_pos; lia.
        - apply Z.lt_succ_r. apply Z.div_lt_upper_bound; lia. }
      assert (Hfl : n = Qfloor (val (S754_finite false m e) + (1 # 2)))
        by (apply roundZ_floor; exact He).
      exists n. split; [exact Hn|]. split; [exact Hfl|].
      unfold integral. destruct (Z.eqb_spec n 0) as [Hz|Hnz].
      * rewrite Hz. reflexivity.
      * rewrite toString_small by lia. reflexivity.
Qed.

(** *** Ranges *)

Lemma small_facts (b : number) :
  small b = true -> valid b /\ is_finite b = true /\ magnitude b <= 1021.
Proof.
  unfold small. intros H.
  apply andb_prop in H as [H H3]. apply andb_prop in H as [H1 H2].
  repeat split; [exact H2|exact H1|apply Z.leb_le; exact H3].
Qed.

Lemma within_magnitude (lo hi x : number) :
  small lo = true -> small hi = true -> within lo hi x ->
  magnitude x <= Z.max (magnitude lo) (magnitude hi).
Proof.
  intros Hlo Hhi (Hv & Hf & Hl & Hu).
  apply small_facts in Hlo as (Hvl & Hfl & Hml).
  apply small_facts in Hhi as (Hvh & Hfh & Hmh).
  destruct (Z_le_gt_dec 0 (sc x)) as [Hpos|Hneg].
  - pose proof (magnitude_le x hi Hv Hvh Hf Hfh ltac:(lia)). lia.
  - pose proof (magnitude_le x lo Hv Hvl Hf Hfl ltac:(lia)). lia.
Qed.

Lemma within_small (lo hi x : number) :
  small lo = true -> small hi = true -> within lo hi x -> magnitude x <= 1021.
Proof.
  intros Hlo Hhi Hw. pose proof (within_magnitude lo hi x Hlo Hhi Hw).
  apply small_facts in Hlo as (_ & _ & Hml).
  apply small_facts in Hhi as (_ & _ & Hmh). lia.
Qed.

Lemma within_refl (c : number) : small c = true -> within c c c.
Proof.
  intros H. apply small_facts in H as (Hv & Hf & _).
  split; [exact Hv|]. split; [exact Hf|]. lia.
Qed.

Lemma within_weaken (lo hi lo' hi' x : number) :
  within lo hi x -> sc lo' <= sc lo -> sc hi <= sc hi' -> within lo' hi' x.
Proof.
  intros (Hv & Hf & Hl & Hu) H1 H2.
  split; [exact Hv|]. split; [exact Hf|]. lia.
Qed.

Lemma add_within (lx hx ly hy lo hi x y : number) :
  small lx = true -> small hx = true -> small ly = true -> small hy = true ->
  small lo = true -> small hi = true ->
  within lx hx x -> within ly hy y ->
  sc lo <= sc lx + sc ly -> sc hx + sc hy <= sc hi ->
  within lo hi (add x y).
Proof.
  intros Slx Shx Sly Shy Slo Shi Hx Hy Hl Hu.
  pose proof (within_small lx hx x Slx Shx Hx) as Mx.
  pose proof (within_small ly hy y Sly Shy Hy) as My.
  destruct Hx as (Vx & Fx & Lx & Ux). destruct Hy as (Vy & Fy & Ly & Uy).
  apply small_facts in Slo as (Vlo & Flo & _).
  apply small_facts in Shi as (Vhi & Fhi & _).
  destruct (add_between x y Vx Vy Fx Fy Mx My) as (Vr & Fr & Hup & Hlo).
  split; [exact Vr|]. split; [exact Fr|]. split.
  - apply Hlo; [assumption|assumption|lia].
  - apply Hup; [assumption|assumption|lia].
Qed.

Lemma sub_within (lx hx ly hy lo hi x y : number) :
  small lx = true -> small hx = true -> small ly = true -> small hy = true ->
  small lo = true -> small hi = true ->
  within lx hx x -> within ly hy y ->
  sc lo <= sc lx - sc hy -> sc hx - sc ly <= sc hi ->
  within lo hi (sub x y).
Proof.
  intros Slx Shx Sly Shy Slo Shi Hx Hy Hl Hu.
  pose proof (within_small lx hx x Slx Shx Hx) as Mx.
  pose proof (within_small ly hy y Sly Shy Hy) as My.
  destruct Hx as (Vx & Fx & Lx & Ux). destruct Hy as (Vy & Fy & Ly & Uy).
  apply small_facts in Slo as (Vlo & Flo & _).
  apply small_facts in Shi as (Vhi & Fhi & _).
  destruct (sub_between x y Vx Vy Fx Fy Mx My) as (Vr & Fr & Hup & Hlo).
  split; [exact Vr|]. split; [exact Fr|]. split.
  - apply Hlo; [assumption|assumption|lia].
  - apply Hup; [assumption|assumption|lia].
Qed.

(** Multiplication by a positive constant. *)
Lemma mul_within (lx hx lo hi x y : number) :
  small lx = true -> small hx = true -> small lo = true -> small hi = true ->
  normal_positive y = true ->
  Z.max (magnitude lx) (magnitude hx) + magnitude y <= 1022 ->
  within lx hx x ->
  sc lo * 2 ^ 1074 <= sc lx * sc y -> sc hx * sc y <= sc hi * 2 ^ 1074 ->
  within lo hi (mul x y).
Proof.
  intros Slx Shx Slo Shi Hy Hmag Hx Hl Hu.
  pose proof (within_magnitude lx hx x Slx Shx Hx) as Mx.
  destruct Hx as (Vx & Fx & Lx & Ux).
  apply small_facts in Slo as (Vlo & Flo & _).
  apply small_facts in Shi as (Vhi & Fhi & _).
  destruct y as [| | |[|] my ey]; try discriminate.
  cbn [normal_positive] in Hy. apply andb_prop in Hy as [Hd Hb].
  apply Z.eqb_eq in Hd. cbn [magnitude] in Hmag.
  destruct (mul_between x false my ey Vx Fx Hb Hd ltac:(lia)) as (Vr & Fr & Hup & Hlo).
  set (ky := sc (S754_finite false my ey)) in *.
  assert (Hky : 0 < ky).
  { unfold ky. cbn [sc signed cond_Zopp].
    apply Z.mul_pos_pos; [lia|apply pow2_pos].
    pose proof (bounded_range _ _ Hb). lia. }
  split; [exact Vr|]. split; [exact Fr|]. split.
  - apply Hlo; [assumption|assumption|]. nia.
  - apply Hup; [assumption|assumption|]. nia.
Qed.

Lemma ge_key (x c : number) :
  valid x -> valid c -> is_finite x = true -> is_finite c = true ->
  ge x c = (sc c <=? sc x).
Proof.
  intros Vx Vc Fx Fc. unfold ge, SFleb.
  rewrite (SFcompare_key c x Vc Vx (finite_not_nan c Fc) (finite_not_nan x Fx)).
  rewrite !key_finite by assumption. unfold Z.leb.
  destruct (sc c ?= sc x); reflexivity.
Qed.

Lemma lt_key (x c : number) :
  valid x -> valid c -> is_finite x = true -> is_finite c = true ->
  lt x c = (sc x <? sc c).
Proof.
  intros Vx Vc Fx Fc. unfold lt, SFltb.
  rewrite (SFcompare_key x c Vx Vc (finite_not_nan x Fx) (finite_not_nan c Fc)).
  rewrite !key_finite by assumption. unfold Z.ltb.
  destruct (sc x ?= sc c); reflexivity.
Qed.

Lemma within_ge (lo hi x : number) :
  small lo = true -> small hi = true -> within lo hi x ->
  ge x lo = true /\ ge hi x = true.
Proof.
  intros Slo Shi (Vx & Fx & Lx & Ux).
  apply small_facts in Slo as (Vlo & Flo & _).
  apply small_facts in Shi as (Vhi & Fhi & _).
  rewrite !ge_key by assumption. split; apply Z.leb_le; assumption.
Qed.

Lemma random_within (r : number) :
  random_value r -> within pos_zero (of_int 1) r /\ sc r < sc (of_int 1).
Proof.
  intros (Hv & Hf & _ & H0 & H1).
  pose proof (val_sc r Hv) as Hval. rewrite Hval in H0, H1.
  unfold Qle in H0. unfold Qlt in H1. cbn [Qnum Qden] in H0, H1.
  assert (HP : Zpos P1074 = 2 ^ 1074).
  { unfold P1074. rewrite Z2Pos.id; [reflexivity|apply pow2_pos; lia]. }
  rewrite HP in H1.
  assert (H1' : sc (of_int 1) = 2 ^ 1074) by (vm_compute; reflexivity).
  rewrite H1'. split; [|lia].
  split; [exact Hv|]. split; [exact Hf|]. rewrite H1'. cbn [sc pos_zero]. lia.
Qed.

(** Closed side conditions on concrete numbers. *)
Ltac closed :=
  first [ vm_compute; reflexivity
        | apply Z.leb_le; vm_compute; reflexivity
        | apply Z.ltb_lt; vm_compute; reflexivity ].

(** The comparisons that a range gives. *)
Ltac ge_bounds W Hlo Hhi :=
  lazymatch type of W with
  | within ?lo ?hi ?x =>
      destruct (within_ge lo hi x) as [Hlo Hhi]; [closed|closed|exact W|]
  end.

(** [base + Math.random() * c] for a positive constant [c]. *)
Lemma offset_draw (base c hi r : number) :
  random_value r ->
  small base = true -> small c = true -> small hi = true ->
  normal_positive c = true ->
  sc base + sc c <= sc hi ->
  within base hi (add base (mul r c)).
Proof.
  intros Hr Sb Sc Sh Nc Hsum.
  destruct (random_within r Hr) as (Wr & _).
  assert (S0 : small pos_zero = true) by reflexivity.
  assert (S1 : small (of_int 1) = true) by (vm_compute; reflexivity).
  assert (H1 : sc (of_int 1) = 2 ^ 1074) by (vm_compute; reflexivity).
  assert (Wt : within pos_zero c (mul r c)).
  { apply (mul_within pos_zero (of_int 1) pos_zero c r c); try assumption.
    - apply small_facts in Sc as (_ & _ & Mc).
      change (magnitude pos_zero) with (-1074).
      change (magnitude (of_int 1)) with 1. lia.
    - cbn [sc pos_zero]. lia.
    - rewrite H1. lia. }
  apply (add_within base base pos_zero c base hi); try assumption.
  - apply within_refl. exact Sb.
  - cbn [sc pos_zero]. lia.
Qed.

(** [base + (Math.random() - 0.5) * 2]. *)
Lemma centered_draw (base lo hi r : number) :
  random_value r ->
  small base = true -> small lo = true -> small hi = true ->
  sc lo <= sc base - 2 ^ 1074 -> sc base + 2 ^ 1074 <= sc hi ->
  within lo hi (add base (mul (sub r (decimal 5 1)) (of_int 2))).
Proof.
  intros Hr Sb Sl Sh Hlo Hhi.
  destruct (random_within r Hr) as (Wr & _).
  assert (S0 : small pos_zero = true) by reflexivity.
  assert (S1 : small (of_int 1) = true) by (vm_compute; reflexivity).
  assert (Sh5 : small (decimal 5 1) = true) by (vm_compute; reflexivity).
  assert (Sm5 : small (decimal (-5) 1) = true) by (vm_compute; reflexivity).
  assert (Sm1 : small (of_int (-1)) = true) by (vm_compute; reflexivity).
  assert (H1 : sc (of_int 1) = 2 ^ 1074) by (vm_compute; reflexivity).
  assert (Hm1 : sc (of_int (-1)) = - 2 ^ 1074) by (vm_compute; reflexivity).
  assert (Wd : within (decimal (-5) 1) (decimal 5 1) (sub r (decimal 5 1))).
  { apply (sub_within pos_zero (of_int 1) (decimal 5 1) (decimal 5 1));
      [| | | | | |exact Wr|apply within_refl; exact Sh5| |]; closed. }
  assert (Wv : within (of_int (-1)) (of_int 1) (mul (sub r (decimal 5 1)) (of_int 2))).
  { apply (mul_within (decimal (-5) 1) (decimal 5 1));
      [| | | | | |exact Wd| |]; closed. }
  apply (add_within base base (of_int (-1)) (of_int 1) lo hi);
    try exact Sb; try exact Sm1; try exact S1; try exact Sl; try exact Sh;
    try exact Wv.
  - apply within_refl. exact Sb.
  - rewrite Hm1. lia.
  - rewrite H1. lia.
Qed.

(** *** Division by one and by two *)

Lemma div_pow2_normal (s : bool) (m : positive) (e k : Z) :
  digits m = 53 -> 0 <= k -> -1073 + k <= e <= 971 ->
  div (S754_finite s m e) (S754_finite false 4503599627370496 (k - 52))
  = S754_finite s m (e - k).
Proof.
  intros Hd Hk He. unfold div, SFdiv, SFdiv_core_binary.
  replace (xorb s false) with s by (destruct s; reflexivity).
  change (Zdigits2 (Zpos m)) with (digits m). rewrite Hd.
  change (Zdigits2 (Zpos 4503599627370496)) with 53.
  fold (fexp64 (53 + e - (53 + (k - 52)))).
  rewrite fexp64_eq.
  replace (Z.min (Z.max (53 + e - (53 + (k - 52)) - 53) (-1074)) (e - (k - 52)))
    with (e - k - 1) by lia.
  replace (e - (k - 52) - (e - k - 1)) with 53 by lia.
  rewrite Z.shiftl_mul_pow2 by lia.
  change (Zpos 4503599627370496) with (2 ^ 52).
  assert (Hdiv : Z.div_eucl (Zpos m * 2 ^ 53) (2 ^ 52) = (Zpos m * 2 ^ 1, 0)).
  { pose proof (Z_div_mod (Zpos m * 2 ^ 53) (2 ^ 52) ltac:(reflexivity)) as H.
    destruct (Z.div_eucl (Zpos m * 2 ^ 53) (2 ^ 52)) as [q r].
    destruct H as [H1 H2]. change (2 ^ 53) with (2 ^ 52 * 2) in H1.
    change (2 ^ 1) with 2.
    assert (r = 0) by (change (2 ^ 52) with 4503599627370496 in *; lia).
    subst r. f_equal. change (2 ^ 52) with 4503599627370496 in *. lia. }
  rewrite Hdiv.
  change (new_location (2 ^ 52) 0) with loc_Exact.
  rewrite binary_round_aux_exact.
  - replace (e - k - 1 + 1) with (e - k) by lia.
    replace (e - k <=? emax - prec) with true; [reflexivity|].
    symmetry. apply Z.leb_le. unfold emax, prec. lia.
  - lia.
  - rewrite fexp64_eq, Hd. lia.
Qed.

(** A number of at least [2^-1020] is normal and positive. *)
Lemma normal_of_sc (x : number) :
  valid x -> is_finite x = true -> 2 ^ 54 <= sc x ->
  exists (m : positive) (e : Z),
    x = S754_finite false m e /\ digits m = 53 /\ -1073 <= e <= 971.
Proof.
  intros Hv Hf Hsc. destruct x as [s|s| |s m e]; try discriminate.
  - cbn [sc] in Hsc. exfalso. pose proof (pow2_pos 54 ltac:(lia)). lia.
  - pose proof (bounded_range _ _ Hv) as (Hr & Hd & Hn).
    pose proof (pow2_pos (e + 1074) ltac:(lia)) as Hp.
    pose proof (pow2_pos 54 ltac:(lia)) as Hp54.
    cbn [sc] in Hsc.
    destruct s; [cbn [signed cond_Zopp] in Hsc; nia|].
    cbn [signed cond_Zopp] in Hsc.
    assert (He : -1073 <= e).
    { destruct (Z_le_gt_dec (-1073) e) as [|Hlt]; [assumption|exfalso].
      assert (e = -1074) by lia. subst e. change (-1074 + 1074) with 0 in Hsc.
      change (2 ^ 0) with 1 in Hsc. pose proof (digits_lt m Hd).
      change (2 ^ 54) with (2 * 2 ^ 53) in Hsc. lia. }
    exists m, e. split; [reflexivity|]. split; [apply Hn; lia|lia].
Qed.

(** The mean of one confidence is the confidence. *)
Lemma mean_one (p : PassResult) :
  valid (confidence p) -> is_finite (confidence p) = true ->
  2 ^ 54 <= sc (confidence p) ->
  div (reduce_sum confidence [p]) (length_of [p]) = confidence p.
Proof.
  intros Hv Hf Hsc.
  destruct (normal_of_sc _ Hv Hf Hsc) as (m & e & Hc & Hd & He).
  unfold reduce_sum, length_of. cbn [fold_left List.length].
  rewrite Hc.
  change (add (of_int 0) (S754_finite false m e)) with (S754_finite false m e).
  change (of_int (Z.of_nat 1)) with (S754_finite false 4503599627370496 (0 - 52)).
  rewrite div_pow2_normal by lia. f_equal. lia.
Qed.

(** The mean of two confidences in a range is in the range; [lo2] and [hi2]
    are the doubles of the bounds. *)
Lemma mean_two (lo hi lo2 hi2 : number) (p q : PassResult) :
  small lo = true -> small hi = true -> small lo2 = true -> small hi2 = true ->
  sc lo2 = 2 * sc lo -> sc hi2 = 2 * sc hi -> 2 ^ 54 <= sc lo ->
  within lo hi (confidence p) -> within lo hi (confidence q) ->
  within lo hi (div (reduce_sum confidence [p; q]) (length_of [p; q])).
Proof.
  intros Slo Shi Slo2 Shi2 Hlo2 Hhi2 Hbig Wp Wq.
  pose proof (pow2_pos 54 ltac:(lia)) as Hp54.
  assert (Ws : within lo2 hi2 (add (confidence p) (confidence q))).
  { apply (add_within lo hi lo hi lo2 hi2); try assumption; lia. }
  destruct Ws as (Vs & Fs & Ls & Us).
  destruct (normal_of_sc _ Vs Fs ltac:(lia)) as (m & e & Hs & Hd & He).
  assert (Hp : add (of_int 0) (confidence p) = confidence p).
  { destruct Wp as (Vp & Fp & Lp & _).
    destruct (normal_of_sc _ Vp Fp ltac:(lia)) as (mp & ep & -> & _). reflexivity. }
  unfold reduce_sum, length_of. cbn [fold_left List.length].
  rewrite Hp, Hs.
  change (of_int (Z.of_nat 2)) with (S754_finite false 4503599627370496 (1 - 52)).
  assert (He1 : -1072 <= e).
  { destruct (Z_le_gt_dec (-1072) e) as [|Hlt]; [assumption|exfalso].
    assert (e = -1073) by lia. subst e. rewrite Hs in Ls.
    cbn [sc signed cond_Zopp] in Ls. change (-1073 + 1074) with 1 in Ls.
    change (2 ^ 1) with 2 in Ls.
    assert (Zpos m < 2 ^ 53) by (apply digits_lt; lia).
    change (2 ^ 54) with (2 * 2 ^ 53) in Hbig. lia. }
  rewrite div_pow2_normal by lia.
  rewrite Hs in Ls, Us. cbn [sc signed cond_Zopp] in Ls, Us.
  assert (Hhalf : 2 ^ (e + 1074) = 2 * 2 ^ (e - 1 + 1074)).
  { replace (e + 1074) with (1 + (e - 1 + 1074)) by lia.
    rewrite Z.pow_add_r by lia. reflexivity. }
  split.
  - apply bounded_intro; [rewrite fexp64_eq, Hd|]; lia.
  - split; [reflexivity|]. cbn [sc signed cond_Zopp]. lia.
Qed.

(** *** The providers *)

Lemma random_half : random_value (decimal 5 1).
Proof.
  split; [vm_compute; reflexivity|]. split; [reflexivity|].
  split; [discriminate|]. split; vm_compute; [discriminate|reflexivity].
Qed.

Lemma ge_above (lo hi c x : number) :
  small lo = true -> small hi = true -> small c = true ->
  within lo hi x -> sc c <= sc lo -> ge x c = true.
Proof.
  intros Slo Shi Sc (Vx & Fx & Lx & Ux) Hc.
  apply small_facts in Sc as (Vc & Fc & _).
  rewrite ge_key by assumption. apply Z.leb_le. lia.
Qed.

Lemma lt_below (lo hi c x : number) :
  small c = true -> within lo hi x -> sc hi < sc c ->
  lt x c = true /\ ge x c = false.
Proof.
  intros Sc (Vx & Fx & Lx & Ux) Hc.
  apply small_facts in Sc as (Vc & Fc & _).
  rewrite lt_key, ge_key by assumption.
  split; [apply Z.ltb_lt|apply Z.leb_gt]; lia.
Qed.

(** The confidence of the page component's mock capture. *)
Lemma mockCapture_confidence (r : number) :
  random_value r ->
  within (decimal 7 1) (decimal 95 2) (add (decimal 7 1) (mul r (decimal 25 2))).
Proof. intros Hr. apply offset_draw; [exact Hr| | | | |]; closed. Qed.

(** The confidence the detector of the web provider reports. *)
Lemma runDetector_confidence (this : WebMeasurementProvider.State)
      (r1 r2 r3 r4 r5 : number) (d : Detection.DetectionResult) :
  random_value r5 ->
  WebMeasurementProvider.runDetector this r1 r2 r3 r4 r5 = Some d ->
  within (decimal 7 1) (decimal 9 1) (Detection.confidence d).
Proof.
  intros Hr Hd. unfold WebMeasurementProvider.runDetector in Hd.
  destruct (WebMeasurementProvider.videoElement this) as [video|]; [|discriminate].
  destruct (strict_eq _ _ || strict_eq _ _); [discriminate|].
  apply (f_equal (fun o => match o with
                           | Some d' => Detection.confidence d'
                           | None => NaN
                           end)) in Hd.
  cbv beta iota in Hd. cbn [Detection.confidence] in Hd. rewrite <- Hd. apply offset_draw; [exact Hr| | | | |]; closed.
Qed.

(** What the web provider captures from a detection. *)
Lemma web_capture_spec (that that' : WebMeasurementProvider.State)
      (q1 q2 now : number) (d : Detection.DetectionResult) (p : PassResult) :
  WebMeasurementProvider.currentDetection that = Some d ->
  WebMeasurementProvider.capture that q1 q2 now = (returned p, that') ->
  confidence p = mul (Detection.confidence d) (decimal 7 1) /\
  pass_category p
  = (if ge (confidence p) (decimal 65 2) then OK else Not_Great) /\
  pxToInchUsed (frameMetadata p) = None /\
  detectorConfidence (frameMetadata p) = Detection.confidence d /\
  timestamp p = now /\
  WebMeasurementProvider.cornerHistory that' = [] /\
  WebMeasurementProvider.captureCount that'
  = add (WebMeasurementProvider.captureCount that) (of_int 1).
Proof.
  intros Hd Hc.
  assert (Hfst : fst (WebMeasurementProvider.capture that q1 q2 now) = returned p)
    by (rewrite Hc; reflexivity).
  assert (Hsnd : snd (WebMeasurementProvider.capture that q1 q2 now) = that')
    by (rewrite Hc; reflexivity).
  clear Hc. unfold WebMeasurementProvider.capture in Hfst, Hsnd.
  cbn [WebMeasurementProvider.currentDetection WebMeasurementProvider.videoElement
       WebMeasurementProvider.estimatePxToInch] in Hfst, Hsnd.
  rewrite Hd in Hfst, Hsnd.
  destruct (WebMeasurementProvider.videoElement that) as [video|];
    cbn [fst snd] in Hfst, Hsnd; [|discriminate].
  assert (Hp : p = {|
      widthInInches :=
        add (mul (of_int 36) (div (Detection.width d) (decimal 7 1)))
          (mul (sub q1 (decimal 5 1)) (of_int 2));
      heightInInches :=
        add (mul (of_int 48) (div (Detection.height d) (decimal 8 1)))
          (mul (sub q2 (decimal 5 1)) (of_int 2));
      confidence := mul (Detection.confidence d) (decimal 7 1);
      pass_category :=
        if ge (mul (Detection.confidence d) (decimal 7 1)) (decimal 65 2)
        then OK else Not_Great;
      timestamp := now;
      frameMetadata :=
        {| pxToInchUsed := None;
           detectorConfidence := Detection.confidence d |} |})
    by (injection Hfst as <-; reflexivity).
  rewrite Hp, <- Hsnd.
  cbn [confidence pass_category frameMetadata pxToInchUsed detectorConfidence
       timestamp WebMeasurementProvider.cornerHistory
       WebMeasurementProvider.captureCount].
  repeat split; reflexivity.
Qed.

Lemma web_pass_confidence (p : PassResult) :
  web_pass p ->
  within (decimal 48 2) (decimal 64 2) (confidence p) /\
  pass_category p = Not_Great.
Proof.
  intros (this & that & that' & r1 & r2 & r3 & r4 & r5 & q1 & q2 & now & d
          & Hr & Hrun & Hcur & Hcap).
  pose proof (runDetector_confidence this r1 r2 r3 r4 r5 d Hr Hrun) as Wd.
  destruct (web_capture_spec that that' q1 q2 now d p Hcur Hcap)
    as (Hc & Hcat & _).
  assert (Wc : within (decimal 48 2) (decimal 64 2) (confidence p)).
  { rewrite Hc.
    apply (mul_within (decimal 7 1) (decimal 9 1)); [| | | | | |exact Wd| |];
      closed. }
  split; [exact Wc|]. rewrite Hcat.
  destruct (lt_below (decimal 48 2) (decimal 64 2) (decimal 65 2) (confidence p))
    as (_ & Hge); [closed|exact Wc|closed|].
  rewrite Hge. reflexivity.
Qed.

(** What the mock provider captures. *)
Lemma mock_capture_confidence (this : MockProvider.State) (r1 r2 r3 now : number) :
  random_value r3 ->
  let p := fst (MockProvider.capture this r1 r2 r3 now) in
  within (decimal 75 2) (decimal 96 2) (confidence p) /\
  pass_category p <> Not_Great /\
  detectorConfidence (frameMetadata p) = confidence p.
Proof.
  intros Hr p. unfold p, MockProvider.capture.
  destruct (strict_eq _ (of_int 1));
    [|destruct (strict_eq _ (of_int 2))];
    cbn [fst confidence pass_category frameMetadata detectorConfidence].
  - split; [|split; [discriminate|reflexivity]].
    apply offset_draw; [exact Hr| | | | |]; closed.
  - split; [|split; [discriminate|reflexivity]].
    apply (within_weaken (decimal 85 2) (decimal 96 2)); [|closed|closed].
    apply offset_draw; [exact Hr| | | | |]; closed.
  - split; [|split; [destruct (gt _ _); discriminate|reflexivity]].
    apply (within_weaken (decimal 80 2) (decimal 96 2)); [|closed|closed].
    apply offset_draw; [exact Hr| | | | |]; closed.
Qed.

Lemma mock_pass_confidence (p : PassResult) :
  mock_pass p -> within (decimal 75 2) (decimal 96 2) (confidence p).
Proof.
  intros (this & r1 & r2 & r3 & now & _ & _ & Hr & ->).
  apply (mock_capture_confidence this r1 r2 r3 now Hr).
Qed.

(** The mean confidence of one or two passes whose confidences are in a
    range is in the range. *)
Lemma mean_within (lo hi lo2 hi2 : number) (ps : list PassResult) :
  small lo = true -> small hi = true -> small lo2 = true -> small hi2 = true ->
  sc lo2 = 2 * sc lo -> sc hi2 = 2 * sc hi -> 2 ^ 54 <= sc lo ->
  List.length ps = 1%nat \/ List.length ps = 2%nat ->
  (forall p, In p ps -> within lo hi (confidence p)) ->
  within lo hi (div (reduce_sum confidence ps) (length_of ps)).
Proof.
  intros Slo Shi Slo2 Shi2 Hlo2 Hhi2 Hbig Hlen Hall.
  destruct ps as [|p [|q [|r ps]]]; cbn [List.length] in Hlen;
    try (destruct Hlen; discriminate).
  - pose proof (Hall p (or_introl eq_refl)) as Wp.
    destruct Wp as (Vp & Fp & Lp & Up).
    rewrite mean_one by (assumption || lia).
    split; [exact Vp|]. split; [exact Fp|]. lia.
  - apply (mean_two lo hi lo2 hi2); try assumption.
    + apply Hall. left. reflexivity.
    + apply Hall. right. left. reflexivity.
Qed.

Lemma sample_web_pass_captured : web_pass sample_web_pass.
Proof.
  exists (sample_provider None), (sample_provider (Some sample_detection)),
    (snd (WebMeasurementProvider.capture (sample_provider (Some sample_detection))
            (decimal 5 1) (decimal 5 1) (of_int 0))),
    (decimal 5 1), (decimal 5 1), (decimal 5 1), (decimal 5 1), (decimal 5 1),
    (decimal 5 1), (decimal 5 1), (of_int 0), sample_detection.
  split; [exact random_half|].
  split; [vm_compute; reflexivity|].
  split; [reflexivity|]. vm_compute. reflexivity.
Qed.

Lemma sample_mock_pass_captured : mock_pass sample_mock_pass.
Proof.
  exists MockProvider.new, (decimal 5 1), (decimal 5 1), (decimal 5 1), (of_int 0).
  split; [exact random_half|]. split; [exact random_half|].
  split; [exact random_half|]. reflexivity.
Qed.

(** *** The history of the web provider *)

Lemma sc_of_int (n : Z) :
  0 <= n < 2 ^ 53 ->
  valid (of_int n) /\ is_finite (of_int n) = true /\ sc (of_int n) = n * 2 ^ 1074.
Proof.
  intros Hn. destruct (Z.eq_dec n 0) as [->|Hnz]; [repeat split|].
  destruct (of_int_bounded n) as (m & e & Ho & Hb & Hd & He & Hm); [lia|].
  rewrite Ho. split; [exact Hb|]. split; [reflexivity|].
  cbn [sc signed cond_Zopp]. rewrite Hm, <- Z.mul_assoc, <- Z.pow_add_r by lia.
  f_equal. f_equal. lia.
Qed.

Lemma gt_length {A : Type} (xs : list A) (k : nat) :
  Z.of_nat (List.length xs) < 2 ^ 53 -> Z.of_nat k < 2 ^ 53 ->
  gt (length_of xs) (of_int (Z.of_nat k)) = (k <? List.length xs)%nat.
Proof.
  intros Hx Hk. unfold length_of.
  destruct (sc_of_int (Z.of_nat (List.length xs)) ltac:(lia)) as (V1 & F1 & S1).
  destruct (sc_of_int (Z.of_nat k) ltac:(lia)) as (V2 & F2 & S2).
  change (gt (of_int (Z.of_nat (List.length xs))) (of_int (Z.of_nat k)))
    with (lt (of_int (Z.of_nat k)) (of_int (Z.of_nat (List.length xs)))).
  rewrite lt_key by assumption. rewrite S1, S2.
  pose proof (pow2_pos 1074 ltac:(lia)) as Hp.
  destruct (Nat.ltb_spec k (List.length xs)) as [H|H].
  - apply Z.ltb_lt. nia.
  - apply Z.ltb_ge. nia.
Qed.

Lemma getDetection_history (this : WebMeasurementProvider.State)
      (r1 r2 r3 r4 r5 now : number) :
  (List.length (WebMeasurementProvider.cornerHistory this) <= 10)%nat ->
  (List.length (WebMeasurementProvider.cornerHistory
     (snd (WebMeasurementProvider.getDetection this r1 r2 r3 r4 r5 now))) <= 10)%nat.
Proof.
  intros Hlen. unfold WebMeasurementProvider.getDetection.
  destruct (negb _ || _); [exact Hlen|].
  destruct (WebMeasurementProvider.runDetector _ r1 r2 r3 r4 r5) as [d|];
    cbn [snd WebMeasurementProvider.cornerHistory]; [|exact Hlen].
  set (pushed := WebMeasurementProvider.cornerHistory this ++ [_]).
  assert (Hp : List.length pushed
               = S (List.length (WebMeasurementProvider.cornerHistory this)))
    by (unfold pushed; rewrite length_app; cbn [List.length]; lia).
  unfold WebMeasurementProvider.STABILITY_WINDOW.
  change (of_int 10) with (of_int (Z.of_nat 10)).
  assert (H11 : 11 < 2 ^ 53) by (apply Z.ltb_lt; vm_compute; reflexivity).
  rewrite (gt_length pushed 10) by lia.
  destruct (Nat.ltb_spec 10 (List.length pushed)) as [H|H]; [|exact H].
  destruct pushed as [|c rest]; cbn [tl List.length] in *; lia.
Qed.

Lemma getDetection_detected (this : WebMeasurementProvider.State)
      (r1 r2 r3 r4 r5 now : number) :
  random_value r5 -> detected this ->
  detected (snd (WebMeasurementProvider.getDetection this r1 r2 r3 r4 r5 now)) /\
  (WebMeasurementProvider.isActive this = true ->
   WebMeasurementProvider.videoElement this <> None ->
   fst (WebMeasurementProvider.getDetection this r1 r2 r3 r4 r5 now)
   = WebMeasurementProvider.currentDetection
       (snd (WebMeasurementProvider.getDetection this r1 r2 r3 r4 r5 now))).
Proof.
  intros Hr Hdet. unfold WebMeasurementProvider.getDetection.
  destruct (WebMeasurementProvider.isActive this) eqn:Ha;
    destruct (WebMeasurementProvider.videoElement this) as [video|] eqn:Hv;
    cbn [negb orb fst snd];
    try (split; [exact Hdet|intros; congruence]).
  destruct (WebMeasurementProvider.runDetector _ r1 r2 r3 r4 r5) as [d|] eqn:Hrun;
    cbn [fst snd].
  - split; [|intros; reflexivity].
    unfold detected. cbn [WebMeasurementProvider.currentDetection].
    eexists. exists r1, r2, r3, r4, r5. split; [exact Hr|exact Hrun].
  - split; [exact Hdet|intros; reflexivity].
Qed.

Lemma detected_confidence (this : WebMeasurementProvider.State)
      (d : Detection.DetectionResult) :
  detected this -> WebMeasurementProvider.currentDetection this = Some d ->
  within (decimal 7 1) (decimal 9 1) (Detection.confidence d).
Proof.
  unfold detected. intros Hdet Hcur. rewrite Hcur in Hdet.
  destruct Hdet as (that & r1 & r2 & r3 & r4 & r5 & Hr & Hrun).
  exact (runDetector_confidence that r1 r2 r3 r4 r5 d Hr Hrun).
Qed.

Lemma not_stable_early (this : WebMeasurementProvider.State) :
  (List.length (WebMeasurementProvider.cornerHistory this) < 5)%nat ->
  Detection.isStable (WebMeasurementProvider.getStability this) = false.
Proof.
  intros Hlen. unfold WebMeasurementProvider.getStability.
  destruct (WebMeasurementProvider.cornerHistory this)
    as [|c1 [|c2 [|c3 [|c4 [|c5 rest]]]]]; cbn [List.length] in Hlen; try lia;
    try reflexivity; cbn [Detection.isStable]; apply andb_false_iff; right;
    vm_compute; reflexivity.
Qed.

(** *** Rounding and order *)

Lemma ceil_div_mono (a b u : Z) : 0 < u -> a <= b -> ceil_div a u <= ceil_div b u.
Proof.
  intros Hu Hab. unfold ceil_div.
  assert ((- b) / u <= (- a) / u) by (apply Z.div_le_mono; lia). lia.
Qed.

Lemma roundUp_mono (x y : number) :
  measurable x -> measurable y -> ge y x = true ->
  ge (roundUpToSixteenth y) (roundUpToSixteenth x) = true.
Proof.
  intros (Vx & Fx & Mx) (Vy & Fy & My) Hge.
  destruct (roundUp_sc x Vx Fx Mx) as (Vrx & Frx & Sx & _).
  destruct (roundUp_sc y Vy Fy My) as (Vry & Fry & Sy & _).
  rewrite ge_key in Hge by assumption. apply Z.leb_le in Hge.
  rewrite ge_key by assumption. apply Z.leb_le. rewrite Sx, Sy.
  pose proof (pow2_pos 1070 ltac:(lia)) as Hu.
  apply Z.mul_le_mono_nonneg_r; [lia|]. apply ceil_div_mono; assumption.
Qed.

(** The greatest of the rounded values is the rounded greatest value. *)
Lemma roundUp_max (xs : list number) :
  xs <> [] -> (forall x, In x xs -> measurable x) ->
  In (Math_max xs) xs /\
  forall x, In x xs ->
    ge (roundUpToSixteenth (Math_max xs)) (roundUpToSixteenth x) = true.
Proof.
  intros Hne Hall.
  assert (Hok : forall x, In x xs -> valid x /\ is_nan x = false).
  { intros x Hx. destruct (Hall x Hx) as (Vx & Fx & _).
    split; [exact Vx|apply finite_not_nan; exact Fx]. }
  destruct (Math_max_greatest xs Hne Hok) as [Hin Hge].
  split; [exact Hin|]. intros x Hx.
  apply roundUp_mono; [apply Hall; exact Hx|apply Hall; exact Hin|].
  apply Hge. exact Hx.
Qed.

(** * Further properties of the code *)

(** ** Display texts *)

(** X1. The review and details screens and the debug record format a
    dimension that they have already rounded; the rounding inside
    [formatInchesFraction] then changes nothing, so the text shown for a
    pass is the text of its raw measurement. *)
Theorem display_rounds_once (fuel : nat) (result : PassResult) :
  valid (widthInInches result) -> valid (heightInInches result) ->
  displayWidth fuel result = formatInchesFraction fuel (widthInInches result) /\
  displayHeight fuel result = formatInchesFraction fuel (heightInInches result).
Proof.
  intros Hw Hh. unfold displayWidth, displayHeight.
  split; apply formatInchesFraction_rounded; assumption.
Qed.

Lemma display_rounds_once_witness :
  let p := createPassResult (decimal 3601 2) (decimal 4751 2) (decimal 9 1) (of_int 0) in
  displayWidth 6 p = formatInchesFraction 6 (widthInInches p) /\
  displayHeight 6 p = formatInchesFraction 6 (heightInInches p).
Proof.
  intros p.
  assert (Hw : valid (widthInInches p)) by (vm_compute; reflexivity).
  assert (Hh : valid (heightInInches p)) by (vm_compute; reflexivity).
  exact (display_rounds_once 6 p Hw Hh).
Defined.

(** X2. The page component's own [formatFraction] returns, for every input
    and every depth of stack, what [formatInchesFraction] returns. *)
Theorem formatFraction_agrees (fuel : nat) (inches : number) :
  Page.formatFraction fuel inches = formatInchesFraction fuel inches.
Proof.
  unfold Page.formatFraction, formatInchesFraction, simplifyFraction,
    Page.roundUp, roundUpToSixteenth.
  rewrite gcd_findGCD.
  destruct (strict_eq _ (of_int 0)); [reflexivity|].
  destruct (findGCD fuel _ (of_int 16)); reflexivity.
Qed.

(** ** The final result of the state machine *)

(** X3. [calculateFinalResults] of the state machine and [aggregateResults]
    see the same passes alike, except that the machine does not round: the
    aggregated width and height are the machine's rounded up to the
    sixteenth, and the confidence and the category are equal.  This holds
    on the empty sequence too. *)
Theorem calculateFinalResults_unrounded (ps : list PassResult) :
  let r := Tutorial.calculateFinalResults ps in
  let a := aggregateResults ps in
  widthInches a = roundUpToSixteenth (Tutorial.width r) /\
  heightInches a = roundUpToSixteenth (Tutorial.height r) /\
  averageConfidence a = Tutorial.results_confidence r /\
  category a = Tutorial.results_category r.
Proof.
  unfold Tutorial.calculateFinalResults, aggregateResults.
  destruct (List.length ps =? 0)%nat;
    cbn [Tutorial.width Tutorial.height Tutorial.results_confidence
         Tutorial.results_category widthInches heightInches averageConfidence
         category].
  - change (of_int 0) with (S754_zero false). rewrite roundUp_zero.
    repeat split; reflexivity.
  - repeat split; reflexivity.
Qed.

(** X4. The completion screen prints the same dimensions whether it is
    given the machine's unrounded final width and height or the rounded
    ones of [aggregateResults]. *)
Theorem completion_dimensions_agree (fuel : nat) (ps : list PassResult) :
  (forall p, In p ps -> valid (widthInInches p) /\ valid (heightInInches p)) ->
  let r := Tutorial.calculateFinalResults ps in
  let a := aggregateResults ps in
  formatDimensions fuel (Tutorial.width r) (Tutorial.height r)
  = formatDimensions fuel (widthInches a) (heightInches a).
Proof.
  intros Hall r a. unfold r, a, Tutorial.calculateFinalResults, aggregateResults.
  destruct (List.length ps =? 0)%nat; [reflexivity|].
  cbn [Tutorial.width Tutorial.height widthInches heightInches].
  assert (Hvw : valid (Math_max (map widthInInches ps))).
  { apply Math_max_valid. intros x Hx. apply in_map_iff in Hx.
    destruct Hx as (p & <- & Hp). apply (Hall p Hp). }
  assert (Hvh : valid (Math_max (map heightInInches ps))).
  { apply Math_max_valid. intros x Hx. apply in_map_iff in Hx.
    destruct Hx as (p & <- & Hp). apply (Hall p Hp). }
  unfold formatDimensions.
  rewrite !formatInchesFraction_rounded by assumption. reflexivity.
Qed.

Lemma completion_dimensions_agree_witness :
  let r := Tutorial.calculateFinalResults sample_passes in
  let a := aggregateResults sample_passes in
  formatDimensions 6 (Tutorial.width r) (Tutorial.height r)
  = formatDimensions 6 (widthInches a) (heightInches a).
Proof.
  apply (completion_dimensions_agree 6 sample_passes).
  intros p Hp. unfold sample_passes in Hp. cbn [In] in Hp.
  destruct Hp as [<-|[<-|[<-|[]]]]; split; vm_compute; reflexivity.
Defined.

(** X5. The guard [shouldSuggestPass3] is the guard [hasLowConfidence]
    restricted to two passes or more: with fewer it is false, whatever the
    confidence, while [hasLowConfidence] holds of a context without
    passes. *)
Theorem shouldSuggestPass3_hasLowConfidence (c : Tutorial.TutorialContext) :
  Tutorial.guard_shouldSuggestPass3 c
  = (2 <=? List.length (Tutorial.passes c))%nat && Tutorial.hasLowConfidence c.
Proof.
  unfold Tutorial.guard_shouldSuggestPass3, Tutorial.hasLowConfidence,
    Tutorial.shouldSuggestPass3, Tutorial.calculateFinalResults.
  destruct (Tutorial.passes c) as [|p [|q ps]]; reflexivity.
Qed.

(** X6. With two passes, whenever the policy of [aggregate.ts] recommends a
    further pass for low confidence, the machine's [shouldSuggestPass3]
    holds as well. *)
Theorem low_confidence_suggests_pass3 (ps : list PassResult) :
  List.length ps = 2%nat ->
  reason (shouldRecommendAdditionalPass ps)
  = "Low confidence - an additional pass may improve accuracy"%string ->
  recommend (shouldRecommendAdditionalPass ps) = true /\
  Tutorial.shouldSuggestPass3 ps = true.
Proof.
  intros Hlen. unfold shouldRecommendAdditionalPass, Tutorial.shouldSuggestPass3.
  rewrite Hlen. cbn [Nat.eqb Nat.leb Nat.ltb].
  destruct (lt _ (decimal 65 2)) eqn:Hlow.
  - intros _. split; [reflexivity|]. apply lt_065_075. exact Hlow.
  - destruct (_ || _); cbn; discriminate.
Qed.

Lemma low_confidence_suggests_pass3_witness :
  let ps := [createPassResult (of_int 36) (of_int 48) (decimal 5 1) (of_int 0);
             createPassResult (of_int 36) (of_int 48) (decimal 6 1) (of_int 1)] in
  recommend (shouldRecommendAdditionalPass ps) = true /\
  Tutorial.shouldSuggestPass3 ps = true.
Proof.
  intros ps. apply (low_confidence_suggests_pass3 ps).
  - reflexivity.
  - vm_compute. reflexivity.
Defined.

(** ** The tutorial state machine *)

(** X7. Whenever the machine shows the completion or the details screen,
    the four final fields are set, to what [calculateFinalResults] yields
    on the passes the context holds now, and a mount type has been chosen:
    the screen never reads a null. *)
Theorem completion_results_current (s : Tutorial.Snapshot) :
  Tutorial.reachable s ->
  Tutorial.value s = Tutorial.completion \/ Tutorial.value s = Tutorial.details ->
  let c := Tutorial.context s in
  let r := Tutorial.calculateFinalResults (Tutorial.passes c) in
  Tutorial.finalWidth c = Some (Tutorial.width r) /\
  Tutorial.finalHeight c = Some (Tutorial.height r) /\
  Tutorial.finalConfidence c = Some (Tutorial.results_confidence r) /\
  Tutorial.finalCategory c = Some (Tutorial.results_category r) /\
  Tutorial.mountType c <> None.
Proof.
  intros Hr Hv. apply invariant_reachable in Hr. unfold invariant in Hr.
  destruct Hv as [Hv|Hv]; rewrite Hv in Hr;
    destruct Hr as ((Hw & Hh & Hc & Hk) & _ & Hm & _); cbn; auto.
Qed.

Lemma completion_results_current_witness :
  let s := Tutorial.run
             [Tutorial.START; Tutorial.PERMISSION_GRANTED;
              Tutorial.SELECT_MOUNT Tutorial.inside;
              Tutorial.CAPTURE_COMPLETE (nth 0 sample_passes (createPassResult NaN NaN NaN NaN));
              Tutorial.CONTINUE_TO_PASS2;
              Tutorial.CAPTURE_COMPLETE (nth 1 sample_passes (createPassResult NaN NaN NaN NaN));
              Tutorial.VIEW_RESULTS] Tutorial.initial in
  Tutorial.value s = Tutorial.completion /\
  Tutorial.finalWidth (Tutorial.context s) = Some (decimal 362 1) /\
  Tutorial.mountType (Tutorial.context s) <> None.
Proof.
  intros s.
  assert (Hr : Tutorial.reachable s)
    by (apply reachable_run; apply Tutorial.reachable_initial).
  assert (Hv : Tutorial.value s = Tutorial.completion) by reflexivity.
  split; [exact Hv|].
  destruct (completion_results_current s Hr (or_introl Hv)) as (Hw & _ & _ & _ & Hm).
  split; [|exact Hm].
  rewrite Hw. vm_compute. reflexivity.
Defined.

(** X8. Each review screen has a pass to show: the context holds at least
    one pass in [pass1Review] and at least two in [pass2Review], in the
    optional third capture and on the completion and details screens. *)
Theorem review_has_passes (s : Tutorial.Snapshot) :
  Tutorial.reachable s ->
  let n := List.length (Tutorial.passes (Tutorial.context s)) in
  match Tutorial.value s with
  | Tutorial.pass1Review | Tutorial.pass2 => (1 <= n)%nat
  | Tutorial.pass2Review | Tutorial.pass3
  | Tutorial.completion | Tutorial.details => (2 <= n)%nat
  | _ => True
  end.
Proof.
  intros Hr. apply invariant_reachable in Hr. unfold invariant in Hr.
  destruct (Tutorial.value s); cbn; try exact I;
    destruct Hr as (_ & _ & _ & Hn); exact Hn.
Qed.

Lemma review_has_passes_witness :
  (1 <= List.length (Tutorial.passes (Tutorial.context
     (Tutorial.run
        [Tutorial.START; Tutorial.PERMISSION_GRANTED;
         Tutorial.SELECT_MOUNT Tutorial.outside;
         Tutorial.CAPTURE_COMPLETE (createPassResult (of_int 36) (of_int 48) (decimal 9 1) (of_int 0))]
        Tutorial.initial))))%nat.
Proof.
  apply (review_has_passes
           (Tutorial.run
              [Tutorial.START; Tutorial.PERMISSION_GRANTED;
               Tutorial.SELECT_MOUNT Tutorial.outside;
               Tutorial.CAPTURE_COMPLETE (createPassResult (of_int 36) (of_int 48) (decimal 9 1) (of_int 0))]
              Tutorial.initial)).
  apply reachable_run. apply Tutorial.reachable_initial.
Defined.

(** X9. Leaving the settings screen returns to the screen it was opened
    from, home or completion, with the context untouched: the guard on
    [finalWidth] tells the two apart in every reachable snapshot. *)
Theorem settings_back_returns (s : Tutorial.Snapshot) :
  Tutorial.reachable s ->
  Tutorial.value s = Tutorial.home \/ Tutorial.value s = Tutorial.completion ->
  Tutorial.value (Tutorial.transition s Tutorial.VIEW_SETTINGS) = Tutorial.settings /\
  Tutorial.transition (Tutorial.transition s Tutorial.VIEW_SETTINGS) Tutorial.BACK = s.
Proof.
  intros Hr Hv. apply invariant_reachable in Hr. unfold invariant in Hr.
  destruct s as [v c]. cbn [Tutorial.value Tutorial.context] in *.
  destruct Hv as [-> | ->]; unfold Tutorial.transition;
    cbn [Tutorial.value Tutorial.context].
  - destruct Hr as (Hw & _). rewrite Hw. split; reflexivity.
  - destruct Hr as ((Hw & _) & _). rewrite Hw. split; reflexivity.
Qed.

Lemma settings_back_returns_witness :
  Tutorial.transition (Tutorial.transition Tutorial.initial Tutorial.VIEW_SETTINGS)
    Tutorial.BACK = Tutorial.initial.
Proof.
  exact (proj2 (settings_back_returns Tutorial.initial Tutorial.reachable_initial
                  (or_introl eq_refl))).
Defined.

(** X10. From the mount selection to the details screen the flag
    [cameraPermissionDenied] is false: a denial is always cleared before
    the flow goes on. *)
Theorem permission_denied_cleared (s : Tutorial.Snapshot) :
  Tutorial.reachable s ->
  Tutorial.value s <> Tutorial.home ->
  Tutorial.value s <> Tutorial.permission ->
  Tutorial.value s <> Tutorial.settings ->
  Tutorial.cameraPermissionDenied (Tutorial.context s) = false.
Proof.
  intros Hr Hh Hp Hs. apply invariant_reachable in Hr. unfold invariant in Hr.
  destruct (Tutorial.value s); try contradiction;
    destruct Hr as (_ & Hd); try exact Hd; destruct Hd as (Hd & _); exact Hd.
Qed.

Lemma permission_denied_cleared_witness :
  Tutorial.cameraPermissionDenied (Tutorial.context
    (Tutorial.run [Tutorial.START; Tutorial.PERMISSION_DENIED;
                   Tutorial.PERMISSION_GRANTED] Tutorial.initial)) = false.
Proof.
  apply (permission_denied_cleared
           (Tutorial.run [Tutorial.START; Tutorial.PERMISSION_DENIED;
                          Tutorial.PERMISSION_GRANTED] Tutorial.initial)).
  - apply reachable_run. apply Tutorial.reachable_initial.
  - discriminate.
  - discriminate.
  - discriminate.
Defined.

(** X11. No event but [RESTART] discards a pass: after any sequence of
    other events the context holds the passes it held before, in order,
    followed by those captured since. *)
Theorem passes_kept (events : list Tutorial.TutorialEvent) : forall s : Tutorial.Snapshot,
  ~ In Tutorial.RESTART events ->
  exists captured : list PassResult,
    Tutorial.passes (Tutorial.context (Tutorial.run events s))
    = Tutorial.passes (Tutorial.context s) ++ captured /\
    (List.length captured <= List.length events)%nat.
Proof.
  induction events as [|e es IH]; intros s Hno.
  - exists []. rewrite app_nil_r. split; [reflexivity|apply le_n].
  - assert (Hstep : exists one,
      Tutorial.passes (Tutorial.context (Tutorial.transition s e))
      = Tutorial.passes (Tutorial.context s) ++ one /\ (List.length one <= 1)%nat).
    { assert (He : e <> Tutorial.RESTART) by (intros ->; apply Hno; left; reflexivity).
      destruct s as [v c]. unfold Tutorial.transition.
      cbn [Tutorial.value Tutorial.context].
      destruct v; destruct e; try congruence;
        try (exists []; rewrite app_nil_r; split; [reflexivity|cbn; lia]);
        try (exists [result]; split; [reflexivity|cbn; lia]).
      destruct (Tutorial.finalWidth c);
        exists []; rewrite app_nil_r; split; try reflexivity; cbn; lia. }
    destruct Hstep as (one & Hone & Hlen1).
    destruct (IH (Tutorial.transition s e)) as (rest & Hrest & Hlen2).
    { intros Hin. apply Hno. right. exact Hin. }
    exists (one ++ rest). cbn [Tutorial.run fold_left].
    change (fold_left Tutorial.transition es (Tutorial.transition s e))
      with (Tutorial.run es (Tutorial.transition s e)).
    rewrite Hrest, Hone, app_assoc. split; [reflexivity|].
    rewrite length_app. cbn [List.length]. lia.
Qed.

Lemma passes_kept_witness :
  exists captured : list PassResult,
    Tutorial.passes (Tutorial.context
      (Tutorial.run [Tutorial.BACK; Tutorial.BACK]
         (Tutorial.run [Tutorial.START; Tutorial.PERMISSION_GRANTED;
                        Tutorial.SELECT_MOUNT Tutorial.inside;
                        Tutorial.CAPTURE_COMPLETE (createPassResult (of_int 36) (of_int 48) (decimal 9 1) (of_int 0))]
            Tutorial.initial)))
    = [createPassResult (of_int 36) (of_int 48) (decimal 9 1) (of_int 0)] ++ captured /\
    (List.length captured <= 2)%nat.
Proof.
  apply (passes_kept [Tutorial.BACK; Tutorial.BACK]
           (Tutorial.run [Tutorial.START; Tutorial.PERMISSION_GRANTED;
                          Tutorial.SELECT_MOUNT Tutorial.inside;
                          Tutorial.CAPTURE_COMPLETE (createPassResult (of_int 36) (of_int 48) (decimal 9 1) (of_int 0))]
              Tutorial.initial)).
  cbn. intros [H|[H|[]]]; discriminate H.
Defined.

(** X12. Going back from the first review to the home screen keeps what was
    captured: four [BACK] events lead from [pass1Review] to [home] with
    the context unchanged, so home can hold passes, and a new start adds
    to them. *)
Theorem home_keeps_passes (s : Tutorial.Snapshot) :
  Tutorial.reachable s ->
  Tutorial.value s = Tutorial.pass1Review ->
  let h := Tutorial.run [Tutorial.BACK; Tutorial.BACK; Tutorial.BACK; Tutorial.BACK] s in
  Tutorial.value h = Tutorial.home /\
  Tutorial.context h = Tutorial.context s /\
  Tutorial.passes (Tutorial.context h) <> [].
Proof.
  intros Hr Hv. apply invariant_reachable in Hr. unfold invariant in Hr.
  destruct s as [v c]. cbn [Tutorial.value Tutorial.context] in *. subst v.
  destruct Hr as (_ & _ & _ & Hn).
  cbn. repeat split. intros Hnil. rewrite Hnil in Hn. cbn in Hn. lia.
Qed.

Lemma home_keeps_passes_witness :
  let s := Tutorial.run
             [Tutorial.START; Tutorial.PERMISSION_GRANTED;
              Tutorial.SELECT_MOUNT Tutorial.inside;
              Tutorial.CAPTURE_COMPLETE (createPassResult (of_int 36) (of_int 48) (decimal 9 1) (of_int 0))]
             Tutorial.initial in
  let h := Tutorial.run [Tutorial.BACK; Tutorial.BACK; Tutorial.BACK; Tutorial.BACK] s in
  Tutorial.value h = Tutorial.home /\
  Tutorial.passes (Tutorial.context h) <> [].
Proof.
  intros s h.
  assert (Hr : Tutorial.reachable s)
    by (apply reachable_run; apply Tutorial.reachable_initial).
  destruct (home_keeps_passes s Hr eq_refl) as (Hv & _ & Hp).
  split; [exact Hv|exact Hp].
Defined.

(** X13. The machine puts no bound on the number of passes: returning from
    the first review to the first capture and capturing again adds a pass
    each time, so for every [n] a sequence of events reaches the
    completion screen with more than [n] passes. *)
Theorem passes_unbounded (p : PassResult) (n : nat) :
  let events :=
    [Tutorial.START; Tutorial.PERMISSION_GRANTED; Tutorial.SELECT_MOUNT Tutorial.inside]
    ++ recapture p n
    ++ [Tutorial.CAPTURE_COMPLETE p; Tutorial.CONTINUE_TO_PASS2;
        Tutorial.CAPTURE_COMPLETE p; Tutorial.VIEW_RESULTS] in
  let s := Tutorial.run events Tutorial.initial in
  Tutorial.value s = Tutorial.completion /\
  List.length (Tutorial.passes (Tutorial.context s)) = (n + 2)%nat.
Proof.
  intros events s. unfold s, events. rewrite !run_app.
  set (s1 := Tutorial.run [Tutorial.START; Tutorial.PERMISSION_GRANTED;
                           Tutorial.SELECT_MOUNT Tutorial.inside] Tutorial.initial).
  destruct (recapture_run p n s1 eq_refl) as (Hv & _ & Hp).
  change (Tutorial.passes (Tutorial.context s1)) with (@nil PassResult) in Hp.
  set (t := Tutorial.run (recapture p n) s1) in *.
  destruct t as [v c]. cbn [Tutorial.value Tutorial.context] in *. subst v.
  unfold Tutorial.run. cbn [fold_left].
  unfold Tutorial.transition.
  cbn [Tutorial.value Tutorial.context Tutorial.addPassResult Tutorial.calculateFinal
       Tutorial.passes].
  split; [reflexivity|].
  rewrite Hp, !length_app, repeat_length. cbn [app List.length]. lia.
Qed.

(** ** The reduction of fractions *)

(** X14. On non-negative integers below [2^53], [findGCD] returns their
    greatest common divisor, from any stack deeper than the second
    argument: each call replaces it by a remainder that is smaller. *)
Theorem findGCD_computes_gcd (fuel : nat) (a b : Z) :
  0 <= a < 2 ^ 53 -> 0 <= b < 2 ^ 53 -> b < Z.of_nat fuel ->
  findGCD fuel (of_int a) (of_int b) = Some (of_int (Z.gcd a b)) /\
  valid (of_int (Z.gcd a b)).
Proof.
  intros Ha Hb Hf. split; [apply findGCD_of_int; assumption|].
  destruct (Z.eq_dec (Z.gcd a b) 0) as [Hz|Hnz]; [rewrite Hz; reflexivity|].
  pose proof (Z.gcd_nonneg a b) as H0.
  assert (Hle : Z.gcd a b < 2 ^ 53).
  { destruct (Z.eq_dec b 0) as [->|Hb0].
    - rewrite Z.gcd_0_r, Z.abs_eq by lia. lia.
    - pose proof (Z.gcd_divide_r a b) as Hd.
      apply Z.divide_pos_le in Hd; lia. }
  destruct (of_int_bounded (Z.gcd a b)) as (m & e & Ho & Hbd & _); [lia|].
  rewrite Ho. exact Hbd.
Qed.

Lemma findGCD_computes_gcd_witness :
  findGCD 17 (of_int 12) (of_int 16) = Some (of_int (Z.gcd 12 16)).
Proof.
  apply (findGCD_computes_gcd 17 12 16); lia.
Defined.

(** X15. [simplifyFraction] reduces every fraction of a non-negative
    numerator and a positive denominator below [2^53] to lowest terms:
    both are divided exactly by their greatest common divisor, and the
    results have no common divisor left. *)
Theorem simplifyFraction_lowest_terms (fuel : nat) (n d : Z) :
  0 <= n < 2 ^ 53 -> 0 < d < 2 ^ 53 -> d < Z.of_nat fuel ->
  simplifyFraction fuel (of_int n) (of_int d)
  = Some {| numerator := of_int (n / Z.gcd n d);
            denominator := of_int (d / Z.gcd n d) |} /\
  Z.gcd (n / Z.gcd n d) (d / Z.gcd n d) = 1.
Proof.
  intros Hn Hd Hf.
  set (g := Z.gcd n d).
  assert (Hg0 : 0 < g).
  { pose proof (Z.gcd_nonneg n d) as H0.
    destruct (Z.eq_dec g 0) as [Hz|]; [|unfold g in *; lia].
    apply Z.gcd_eq_0_r in Hz. lia. }
  assert (Hdg : d = d / g * g).
  { destruct (Z.gcd_divide_r n d) as [k Hk]. fold g in Hk.
    rewrite Hk at 2. rewrite Z.div_mul by lia. exact Hk. }
  assert (Hng : n = n / g * g).
  { destruct (Z.gcd_divide_l n d) as [k Hk]. fold g in Hk.
    rewrite Hk at 2. rewrite Z.div_mul by lia. exact Hk. }
  assert (Hgle : g <= d).
  { apply Z.divide_pos_le; [lia|apply Z.gcd_divide_r]. }
  split; [|apply Z.gcd_div_gcd; [lia|reflexivity]].
  unfold simplifyFraction. rewrite findGCD_of_int by lia. fold g.
  set (qn := n / g) in *. set (qd := d / g) in *.
  f_equal. f_equal.
  - destruct (Z.eq_dec n 0) as [Hz|Hnz].
    + assert (Hq0 : qn = 0) by (unfold qn; rewrite Hz; apply Z.div_0_l; lia).
      rewrite Hq0, Hz.
      destruct (of_int_bounded g) as (m & e & Ho & _); [lia|].
      rewrite Ho. reflexivity.
    + rewrite Hng at 1. apply div_of_int_exact; [lia|nia|lia].
  - rewrite Hdg at 1. apply div_of_int_exact; [lia|nia|lia].
Qed.

Lemma simplifyFraction_lowest_terms_witness :
  simplifyFraction 25 (of_int 18) (of_int 24)
  = Some {| numerator := of_int (18 / Z.gcd 18 24);
            denominator := of_int (24 / Z.gcd 18 24) |}.
Proof.
  apply (simplifyFraction_lowest_terms 25 18 24); lia.
Defined.

(** ** Percentages *)

(** X16. For a confidence between 0 and 1, [formatConfidence] prints a whole
    percentage between 0% and 100%: the product of the confidence and 100,
    as the machine computes it, rounded to the nearest integer with ties
    upward, in decimal digits and followed by the percent sign. *)
Theorem formatConfidence_percentage (c : number) :
  valid c -> is_finite c = true -> (0 <= val c)%Q -> (val c <= 1)%Q ->
  exists n : Z,
    0 <= n <= 100 /\
    n = Qfloor (val (mul c (of_int 100)) + (1 # 2)) /\
    formatConfidence c = (digits_of n ++ "%")%string.
Proof.
  intros Hv Hf H0 H1. apply formatConfidence_unit; try assumption.
  apply sc_of_val_range; assumption.
Qed.

Lemma formatConfidence_percentage_witness :
  exists n : Z,
    0 <= n <= 100 /\
    n = Qfloor (val (mul (decimal 855 3) (of_int 100)) + (1 # 2)) /\
    formatConfidence (decimal 855 3) = (digits_of n ++ "%")%string.
Proof.
  apply (formatConfidence_percentage (decimal 855 3)).
  - vm_compute. reflexivity.
  - vm_compute. reflexivity.
  - vm_compute. discriminate.
  - vm_compute. discriminate.
Defined.

(** ** The providers *)

(** X17. Whatever the random numbers, the mock capture of the page
    component yields a confidence from 0.7 to 0.95, a category that is
    never Not Great, a width from 35 to 37 and a height from 47 to 49
    inches. *)
Theorem mockCapture_ranges (r1 r2 r3 now : number) :
  random_value r1 -> random_value r2 -> random_value r3 ->
  let p := Page.mockCapture r1 r2 r3 now in
  ge (Page.confidence p) (decimal 7 1) = true /\
  ge (decimal 95 2) (Page.confidence p) = true /\
  Page.category p <> Not_Great /\
  ge (Page.widthInInches p) (of_int 35) = true /\
  ge (of_int 37) (Page.widthInInches p) = true /\
  ge (Page.heightInInches p) (of_int 47) = true /\
  ge (of_int 49) (Page.heightInInches p) = true.
Proof.
  intros H1 H2 H3 p. unfold p, Page.mockCapture.
  cbn [Page.confidence Page.category Page.widthInInches Page.heightInInches].
  pose proof (mockCapture_confidence r1 H1) as Wc.
  assert (Ww : within (of_int 35) (of_int 37) (add (of_int 35) (mul r2 (of_int 2))))
    by (apply offset_draw; [exact H2| | | | |]; closed).
  assert (Wh : within (of_int 47) (of_int 49) (add (of_int 47) (mul r3 (of_int 2))))
    by (apply offset_draw; [exact H3| | | | |]; closed).
  ge_bounds Wc Hc1 Hc2.
  ge_bounds Ww Hw1 Hw2.
  ge_bounds Wh Hh1 Hh2.
  assert (Hok : ge (add (decimal 7 1) (mul r1 (decimal 25 2))) (decimal 65 2) = true)
    by (apply (ge_above (decimal 7 1) (decimal 95 2)); [| | |exact Wc|]; closed).
  repeat split; try assumption.
  rewrite Hok. destruct (ge _ (decimal 85 2)); discriminate.
Qed.

Lemma mockCapture_ranges_witness :
  Page.category (Page.mockCapture (decimal 5 1) (decimal 5 1) (decimal 5 1) (of_int 0))
  <> Not_Great.
Proof.
  apply (mockCapture_ranges (decimal 5 1) (decimal 5 1) (decimal 5 1) (of_int 0)
           random_half random_half random_half).
Defined.

(** X18. Whatever the random numbers and the number of earlier captures,
    the mock provider with its base size of 36 by 48 inches captures a
    confidence from 0.75 to 0.96, repeated as detector confidence, a
    category that is never Not Great, a width from 35 to 37 and a height
    from 47 to 49; it adds one to its capture count and keeps its base
    size. *)
Theorem MockProvider_capture_ranges (this : MockProvider.State)
        (r1 r2 r3 now : number) :
  MockProvider.baseWidth this = of_int 36 ->
  MockProvider.baseHeight this = of_int 48 ->
  random_value r1 -> random_value r2 -> random_value r3 ->
  let p := fst (MockProvider.capture this r1 r2 r3 now) in
  let this' := snd (MockProvider.capture this r1 r2 r3 now) in
  ge (confidence p) (decimal 75 2) = true /\
  ge (decimal 96 2) (confidence p) = true /\
  detectorConfidence (frameMetadata p) = confidence p /\
  pass_category p <> Not_Great /\
  ge (widthInInches p) (of_int 35) = true /\
  ge (of_int 37) (widthInInches p) = true /\
  ge (heightInInches p) (of_int 47) = true /\
  ge (of_int 49) (heightInInches p) = true /\
  MockProvider.captureCount this'
  = add (MockProvider.captureCount this) (of_int 1) /\
  MockProvider.baseWidth this' = of_int 36 /\
  MockProvider.baseHeight this' = of_int 48.
Proof.
  intros Hbw Hbh H1 H2 H3 p this'.
  destruct (mock_capture_confidence this r1 r2 r3 now H3) as (Wc & Hcat & Hdet).
  fold p in Wc, Hcat, Hdet.
  ge_bounds Wc Hc1 Hc2.
  assert (Hw : widthInInches p
               = add (of_int 36) (mul (sub r1 (decimal 5 1)) (of_int 2))).
  { unfold p, MockProvider.capture. rewrite Hbw.
    destruct (strict_eq _ (of_int 1)); [|destruct (strict_eq _ (of_int 2))];
      reflexivity. }
  assert (Hh : heightInInches p
               = add (of_int 48) (mul (sub r2 (decimal 5 1)) (of_int 2))).
  { unfold p, MockProvider.capture. rewrite Hbh.
    destruct (strict_eq _ (of_int 1)); [|destruct (strict_eq _ (of_int 2))];
      reflexivity. }
  assert (Ww : within (of_int 35) (of_int 37) (widthInInches p))
    by (rewrite Hw; apply centered_draw; [exact H1| | | | |]; closed).
  assert (Wh : within (of_int 47) (of_int 49) (heightInInches p))
    by (rewrite Hh; apply centered_draw; [exact H2| | | | |]; closed).
  ge_bounds Ww Hw1 Hw2.
  ge_bounds Wh Hh1 Hh2.
  assert (Hst : MockProvider.captureCount this'
                = add (MockProvider.captureCount this) (of_int 1) /\
                MockProvider.baseWidth this' = MockProvider.baseWidth this /\
                MockProvider.baseHeight this' = MockProvider.baseHeight this).
  { unfold this', MockProvider.capture.
    destruct (strict_eq _ (of_int 1)); [|destruct (strict_eq _ (of_int 2))];
      repeat split; reflexivity. }
  destruct Hst as (Hs1 & Hs2 & Hs3). rewrite Hbw in Hs2. rewrite Hbh in Hs3.
  repeat split; assumption.
Qed.

Lemma MockProvider_capture_ranges_witness :
  ge (confidence (fst (MockProvider.capture MockProvider.new
        (decimal 5 1) (decimal 5 1) (decimal 5 1) (of_int 0)))) (decimal 75 2)
  = true.
Proof.
  apply (MockProvider_capture_ranges MockProvider.new
           (decimal 5 1) (decimal 5 1) (decimal 5 1) (of_int 0)
           eq_refl eq_refl random_half random_half random_half).
Defined.

(** X19. The detector of the web provider reports a confidence from 0.7 to
    0.9, and a capture from such a detection has seven tenths of it as
    confidence, below 0.65: without a pixel scale every pass of the web
    provider is Not Great. *)
Theorem web_capture_not_great (this that that' : WebMeasurementProvider.State)
        (r1 r2 r3 r4 r5 q1 q2 now : number)
        (d : Detection.DetectionResult) (p : PassResult) :
  random_value r5 ->
  WebMeasurementProvider.runDetector this r1 r2 r3 r4 r5 = Some d ->
  WebMeasurementProvider.currentDetection that = Some d ->
  WebMeasurementProvider.capture that q1 q2 now = (returned p, that') ->
  ge (Detection.confidence d) (decimal 7 1) = true /\
  ge (decimal 9 1) (Detection.confidence d) = true /\
  confidence p = mul (Detection.confidence d) (decimal 7 1) /\
  lt (confidence p) (decimal 65 2) = true /\
  pass_category p = Not_Great /\
  pxToInchUsed (frameMetadata p) = None /\
  detectorConfidence (frameMetadata p) = Detection.confidence d.
Proof.
  intros Hr Hrun Hcur Hcap.
  pose proof (runDetector_confidence this r1 r2 r3 r4 r5 d Hr Hrun) as Wd.
  ge_bounds Wd Hd1 Hd2.
  destruct (web_capture_spec that that' q1 q2 now d p Hcur Hcap)
    as (Hc & _ & Hpx & Hdet & _).
  assert (Hweb : web_pass p).
  { exists this, that, that', r1, r2, r3, r4, r5, q1, q2, now, d. auto. }
  destruct (web_pass_confidence p Hweb) as (Wc & Hcat).
  destruct (lt_below (decimal 48 2) (decimal 64 2) (decimal 65 2) (confidence p))
    as (Hlt & _); [closed|exact Wc|closed|].
  repeat split; assumption.
Qed.

Lemma web_capture_not_great_witness :
  lt (confidence sample_web_pass) (decimal 65 2) = true /\
  pass_category sample_web_pass = Not_Great.
Proof.
  assert (Hrun : WebMeasurementProvider.runDetector (sample_provider None)
            (decimal 5 1) (decimal 5 1) (decimal 5 1) (decimal 5 1) (decimal 5 1)
          = Some sample_detection)
    by (vm_compute; reflexivity).
  assert (Hcur : WebMeasurementProvider.currentDetection
                   (sample_provider (Some sample_detection))
                 = Some sample_detection)
    by reflexivity.
  assert (Hcap : WebMeasurementProvider.capture
                   (sample_provider (Some sample_detection))
                   (decimal 5 1) (decimal 5 1) (of_int 0)
                 = (returned sample_web_pass,
                    snd (WebMeasurementProvider.capture
                           (sample_provider (Some sample_detection))
                           (decimal 5 1) (decimal 5 1) (of_int 0))))
    by (vm_compute; reflexivity).
  destruct (web_capture_not_great _ _ _ _ _ _ _ _ _ _ _ _ _
              random_half Hrun Hcur Hcap)
    as (_ & _ & _ & Hlt & Hcat & _).
  split; [exact Hlt|exact Hcat].
Defined.

(** X20. After one or two captures of the web provider the policy always
    asks for a further pass on the ground of low confidence, and the
    aggregated category is Not Great. *)
Theorem web_passes_low_confidence (ps : list PassResult) :
  List.length ps = 1%nat \/ List.length ps = 2%nat ->
  (forall p, In p ps -> web_pass p) ->
  shouldRecommendAdditionalPass ps
  = {| recommend := true;
       reason := "Low confidence - an additional pass may improve accuracy" |} /\
  category (aggregateResults ps) = Not_Great.
Proof.
  intros Hlen Hall.
  assert (Wm : within (decimal 48 2) (decimal 64 2)
                 (div (reduce_sum confidence ps) (length_of ps))).
  { apply (mean_within _ _ (decimal 96 2) (decimal 128 2));
      [| | | | | | |exact Hlen|]; [closed ..|].
    intros p Hp. apply web_pass_confidence. apply Hall. exact Hp. }
  destruct (lt_below (decimal 48 2) (decimal 64 2) (decimal 65 2)
              (div (reduce_sum confidence ps) (length_of ps)))
    as (Hlt & Hge65); [closed|exact Wm|closed|].
  destruct (lt_below (decimal 48 2) (decimal 64 2) (decimal 85 2)
              (div (reduce_sum confidence ps) (length_of ps)))
    as (_ & Hge85); [closed|exact Wm|closed|].
  unfold shouldRecommendAdditionalPass, aggregateResults.
  assert (H0 : (List.length ps =? 0)%nat = false)
    by (destruct Hlen as [-> | ->]; reflexivity).
  assert (H3 : (3 <=? List.length ps)%nat = false)
    by (destruct Hlen as [-> | ->]; reflexivity).
  rewrite H0, H3, Hlt. cbn [category]. rewrite Hge85, Hge65.
  split; reflexivity.
Qed.

Lemma web_passes_low_confidence_witness :
  recommend (shouldRecommendAdditionalPass [sample_web_pass]) = true /\
  category (aggregateResults [sample_web_pass]) = Not_Great.
Proof.
  assert (Hall : forall p, In p [sample_web_pass] -> web_pass p).
  { intros p [<- | []]. exact sample_web_pass_captured. }
  destruct (web_passes_low_confidence [sample_web_pass] (or_introl eq_refl) Hall)
    as [Hrec Hcat].
  split; [rewrite Hrec; reflexivity|exact Hcat].
Defined.

(** X21. After one or two captures of the mock provider the policy never
    answers with the low-confidence reason, and the aggregated category
    is never Not Great. *)
Theorem mock_passes_never_low (ps : list PassResult) :
  List.length ps = 1%nat \/ List.length ps = 2%nat ->
  (forall p, In p ps -> mock_pass p) ->
  reason (shouldRecommendAdditionalPass ps)
  <> "Low confidence - an additional pass may improve accuracy"%string /\
  category (aggregateResults ps) <> Not_Great.
Proof.
  intros Hlen Hall.
  assert (Wm : within (decimal 75 2) (decimal 96 2)
                 (div (reduce_sum confidence ps) (length_of ps))).
  { apply (mean_within _ _ (decimal 15 1) (decimal 192 2));
      [| | | | | | |exact Hlen|]; [closed ..|].
    intros p Hp. apply mock_pass_confidence. apply Hall. exact Hp. }
  assert (Hge : ge (div (reduce_sum confidence ps) (length_of ps)) (decimal 65 2)
                = true)
    by (apply (ge_above (decimal 75 2) (decimal 96 2)); [| | |exact Wm|]; closed).
  assert (Hlt : lt (div (reduce_sum confidence ps) (length_of ps)) (decimal 65 2)
                = false).
  { destruct Wm as (Vm & Fm & Lm & Um).
    rewrite lt_key; [|exact Vm|closed|exact Fm|closed].
    apply Z.ltb_ge.
    assert (sc (decimal 65 2) <= sc (decimal 75 2)) by closed. lia. }
  unfold shouldRecommendAdditionalPass, aggregateResults.
  assert (H0 : (List.length ps =? 0)%nat = false)
    by (destruct Hlen as [-> | ->]; reflexivity).
  assert (H3 : (3 <=? List.length ps)%nat = false)
    by (destruct Hlen as [-> | ->]; reflexivity).
  rewrite H0, H3, Hlt. cbn [category]. rewrite Hge.
  split.
  - destruct (if (2 <=? List.length ps)%nat then _ else false); discriminate.
  - destruct (ge _ (decimal 85 2)); discriminate.
Qed.

Lemma mock_passes_never_low_witness :
  category (aggregateResults [sample_mock_pass]) <> Not_Great.
Proof.
  assert (Hall : forall p, In p [sample_mock_pass] -> mock_pass p).
  { intros p [<- | []]. exact sample_mock_pass_captured. }
  exact (proj2 (mock_passes_never_low [sample_mock_pass] (or_introl eq_refl) Hall)).
Defined.

(** X22. A frame keeps the web provider in order: the history of corners
    never grows beyond the window of 10 entries, the current detection
    still is one that came out of the detector, and what [getDetection]
    returns from an active provider with a video is the current detection
    of the provider. *)
Theorem getDetection_invariants (this : WebMeasurementProvider.State)
        (r1 r2 r3 r4 r5 now : number) :
  random_value r5 -> detected this ->
  (List.length (WebMeasurementProvider.cornerHistory this) <= 10)%nat ->
  let result := WebMeasurementProvider.getDetection this r1 r2 r3 r4 r5 now in
  detected (snd result) /\
  (List.length (WebMeasurementProvider.cornerHistory (snd result)) <= 10)%nat /\
  (WebMeasurementProvider.isActive this = true ->
   WebMeasurementProvider.videoElement this <> None ->
   fst result = WebMeasurementProvider.currentDetection (snd result)).
Proof.
  intros Hr Hdet Hlen result.
  destruct (getDetection_detected this r1 r2 r3 r4 r5 now Hr Hdet) as [H1 H2].
  split; [exact H1|]. split; [|exact H2].
  apply getDetection_history. exact Hlen.
Qed.

Lemma getDetection_invariants_witness :
  let result :=
    WebMeasurementProvider.getDetection (sample_provider None)
      (decimal 5 1) (decimal 5 1) (decimal 5 1) (decimal 5 1) (decimal 5 1)
      (of_int 0) in
  detected (snd result) /\
  (List.length (WebMeasurementProvider.cornerHistory (snd result)) <= 10)%nat.
Proof.
  intros result.
  assert (Hdet : detected (sample_provider None)) by exact I.
  assert (Hlen : (List.length (WebMeasurementProvider.cornerHistory
                                 (sample_provider None)) <= 10)%nat)
    by (cbn; lia).
  destruct (getDetection_invariants (sample_provider None)
              (decimal 5 1) (decimal 5 1) (decimal 5 1) (decimal 5 1)
              (decimal 5 1) (of_int 0) random_half Hdet Hlen) as (H1 & H2 & _).
  split; [exact H1|exact H2].
Defined.

(** X23. The web provider never suggests a capture with fewer than five
    entries in its history, and the confidence test of [suggestCapture]
    never decides: a detection of the detector is always above the
    threshold of 0.6, so that a capture is suggested exactly when the
    detection is stable and there is a detection. *)
Theorem suggestCapture_conditions (this : WebMeasurementProvider.State) :
  detected this ->
  ((List.length (WebMeasurementProvider.cornerHistory this) < 5)%nat ->
   WebMeasurementProvider.suggestCapture this = false) /\
  WebMeasurementProvider.suggestCapture this
  = Detection.isStable (WebMeasurementProvider.getStability this)
    && match WebMeasurementProvider.currentDetection this with
       | Some _ => true
       | None => false
       end.
Proof.
  intros Hdet. split.
  - intros Hlen. unfold WebMeasurementProvider.suggestCapture.
    rewrite (not_stable_early this Hlen). reflexivity.
  - unfold WebMeasurementProvider.suggestCapture.
    destruct (WebMeasurementProvider.currentDetection this) as [d|] eqn:Hcur;
      [|reflexivity].
    pose proof (detected_confidence this d Hdet Hcur) as (Vd & Fd & Ld & _).
    f_equal. unfold WebMeasurementProvider.CONFIDENCE_THRESHOLD.
    change (gt (Detection.confidence d) (decimal 6 1))
      with (lt (decimal 6 1) (Detection.confidence d)).
    rewrite lt_key; [|closed|exact Vd|closed|exact Fd].
    apply Z.ltb_lt.
    assert (sc (decimal 6 1) < sc (decimal 7 1)) by closed. lia.
Qed.

Lemma suggestCapture_conditions_witness :
  WebMeasurementProvider.suggestCapture (sample_provider (Some sample_detection))
  = false.
Proof.
  assert (Hdet : detected (sample_provider (Some sample_detection))).
  { exists (sample_provider None), (decimal 5 1), (decimal 5 1), (decimal 5 1),
      (decimal 5 1), (decimal 5 1).
    split; [exact random_half|]. vm_compute. reflexivity. }
  apply (proj1 (suggestCapture_conditions _ Hdet)). cbn. lia.
Defined.

(** ** Rounding and the final dimensions *)

(** X24. [roundUpToSixteenth] keeps the order: of two finite dimensions
    below [2^1020] the greater one rounds to the greater sixteenth, or to
    the same. *)
Theorem roundUp_monotone (x y : number) :
  measurable x -> measurable y -> ge y x = true ->
  ge (roundUpToSixteenth y) (roundUpToSixteenth x) = true.
Proof. apply roundUp_mono. Qed.

Lemma roundUp_monotone_witness :
  ge (roundUpToSixteenth (decimal 3607 2)) (roundUpToSixteenth (decimal 3601 2))
  = true.
Proof.
  apply (roundUp_monotone (decimal 3601 2) (decimal 3607 2)).
  - split; [vm_compute; reflexivity|]. split; vm_compute; reflexivity.
  - split; [vm_compute; reflexivity|]. split; vm_compute; reflexivity.
  - vm_compute. reflexivity.
Defined.

(** X25. The final width is the greatest of the widths that the review
    screens show for the passes: it is the rounded width of one of the
    passes and at least the rounded width of each; likewise the final
    height. *)
Theorem final_dimensions_are_greatest_shown (ps : list PassResult) :
  ps <> [] ->
  (forall p, In p ps ->
     measurable (widthInInches p) /\ measurable (heightInInches p)) ->
  let a := aggregateResults ps in
  (exists p, In p ps /\ widthInches a = roundUpToSixteenth (widthInInches p)) /\
  (forall p, In p ps ->
     ge (widthInches a) (roundUpToSixteenth (widthInInches p)) = true) /\
  (exists p, In p ps /\ heightInches a = roundUpToSixteenth (heightInInches p)) /\
  (forall p, In p ps ->
     ge (heightInches a) (roundUpToSixteenth (heightInInches p)) = true).
Proof.
  intros Hne Hall a.
  assert (Hlen : (List.length ps =? 0)%nat = false)
    by (destruct ps; [contradiction|reflexivity]).
  assert (Hw : widthInches a = roundUpToSixteenth (Math_max (map widthInInches ps)))
    by (unfold a, aggregateResults; rewrite Hlen; reflexivity).
  assert (Hh : heightInches a = roundUpToSixteenth (Math_max (map heightInInches ps)))
    by (unfold a, aggregateResults; rewrite Hlen; reflexivity).
  assert (Hgen : forall f : PassResult -> number,
             (forall p, In p ps -> measurable (f p)) ->
             (exists p, In p ps /\ Math_max (map f ps) = f p) /\
             (forall p, In p ps ->
                ge (roundUpToSixteenth (Math_max (map f ps)))
                   (roundUpToSixteenth (f p)) = true)).
  { intros f Hf.
    destruct (roundUp_max (map f ps)) as [Hin Hge].
    - destruct ps; [contradiction|discriminate].
    - intros x Hx. apply in_map_iff in Hx. destruct Hx as (p & <- & Hp).
      apply Hf. exact Hp.
    - split.
      + apply in_map_iff in Hin. destruct Hin as (p & Hp & Hin).
        exists p. split; [exact Hin|symmetry; exact Hp].
      + intros p Hp. apply Hge. apply in_map. exact Hp. }
  destruct (Hgen widthInInches (fun p Hp => proj1 (Hall p Hp)))
    as ((pw & Hpw & Hmw) & Hgw).
  destruct (Hgen heightInInches (fun p Hp => proj2 (Hall p Hp)))
    as ((ph & Hph & Hmh) & Hgh).
  rewrite Hw, Hh. split; [exists pw; rewrite Hmw; auto|].
  split; [exact Hgw|]. split; [exists ph; rewrite Hmh; auto|exact Hgh].
Qed.

Lemma final_dimensions_are_greatest_shown_witness :
  ge (widthInches (aggregateResults varying_passes))
     (roundUpToSixteenth (widthInInches (nth 0 varying_passes sample_web_pass)))
  = true.
Proof.
  assert (Hne : varying_passes <> []) by discriminate.
  assert (Hall : forall p, In p varying_passes ->
            measurable (widthInInches p) /\ measurable (heightInInches p)).
  { intros p Hp. unfold varying_passes in Hp. cbn [In] in Hp.
    destruct Hp as [<-|[<-|[]]];
      (split; (split; [vm_compute; reflexivity|]); split; vm_compute; reflexivity). }
  apply (proj1 (proj2 (final_dimensions_are_greatest_shown varying_passes Hne Hall))).
  left. reflexivity.
Defined.
